(** * mutative-yjs: a shallow embedding of [src/util.ts] and [src/bind.ts]

    The library keeps a plain JSON snapshot in step with a tree of CRDT
    containers (Y.Map / Y.Array).  The development follows the source files:

    - [Js]    : the JavaScript values the code manipulates (primitives, plain
                objects and arrays with identity, the built-in [Set]);
    - [Yjs]   : the interface of the CRDT engine the code calls (containers,
                their read and write operations, change events);
    - [Util]  : [src/util.ts], the value converter;
    - [Bind]  : [src/bind.ts], the patch applier, the event translator and
                the binder.

    The CRDT engine and the draft engine are collaborators of the library, not
    part of it: the first is modelled at the interface the code uses, the
    second by what a call of [create] returns. *)

From stdpp Require Import gmap strings list pretty.

Set Warnings "-register-all,-clear-no-such-hyp".

(* ===================================================================== *)
(** ** JavaScript values *)
(* ===================================================================== *)

Module Js.

(** Values that carry no identity.  Numbers are the integer-valued ones: the
    code uses them as opaque payloads, as indices and as lengths. *)
Inductive prim :=
| PUndefined
| PNull
| PBool (b : bool)
| PNum (n : Z)
| PStr (s : string).

#[global] Instance prim_eq_dec : EqDecision prim.
Proof. solve_decision. Defined.

(** The identity of a plain object or array. *)
Definition ref := nat.

(** What a variable or a property holds: a primitive, or a reference. *)
Inductive plain :=
| VPrim (p : prim)
| VRef (r : ref).

#[global] Instance plain_eq_dec : EqDecision plain.
Proof. solve_decision. Defined.

(** What a reference points to.  The entry list of an object is the list
    [Object.entries] returns; its keys are pairwise distinct. *)
Inductive object :=
| OArr (items : list plain)
| OObj (entries : list (string * plain)).

(** The plain objects alive during a call.  A reference without an entry
    stands for a value that is neither an array nor of type ['object'] (a
    function, say). *)
Abbreviation heap := (gmap ref object).

(** Modelled from the spec: the declarations of [./types] ([JSONPrimitive],
    [JSONArray], [JSONObject], [JSONValue]) are not part of the sources at
    hand.  A snapshot is "an immutable plain value, either a keyed mapping or
    an ordered sequence, recursively composed of primitives, nested mappings,
    and nested sequences", with no cycles: a finite tree. *)
Inductive JSONValue :=
| JPrim (p : prim)
| JArray (items : list JSONValue)
| JObject (entries : list (string * JSONValue)).

Definition undefined : JSONValue := JPrim PUndefined.

(** [typeof v] *)
Inductive type_tag :=
| TUndefined | TObject | TBoolean | TNumber | TString | TFunction.

Definition typeof_prim (p : prim) : type_tag :=
  match p with
  | PUndefined => TUndefined
  | PNull => TObject
  | PBool _ => TBoolean
  | PNum _ => TNumber
  | PStr _ => TString
  end.

Definition typeof (h : heap) (v : plain) : type_tag :=
  match v with
  | VPrim p => typeof_prim p
  | VRef r => match h !! r with Some _ => TObject | None => TFunction end
  end.

Definition type_tag_eqb (a b : type_tag) : bool :=
  match a, b with
  | TUndefined, TUndefined | TObject, TObject | TBoolean, TBoolean
  | TNumber, TNumber | TString, TString | TFunction, TFunction => true
  | _, _ => false
  end.

(** [Array.isArray(v)] *)
Definition Array_isArray (h : heap) (v : plain) : bool :=
  match v with
  | VRef r => match h !! r with Some (OArr _) => true | _ => false end
  | VPrim _ => false
  end.

(** Association lists with the behaviour of a JS [Map] or of the own
    properties of an object: [set] on a present key keeps its position. *)
Section alist.
Context {A : Type}.

Fixpoint alist_get (k : string) (l : list (string * A)) : option A :=
  match l with
  | [] => None
  | (k', a) :: l' => if decide (k = k') then Some a else alist_get k l'
  end.

Fixpoint alist_set (k : string) (a : A) (l : list (string * A))
  : list (string * A) :=
  match l with
  | [] => [(k, a)]
  | (k', a') :: l' =>
      if decide (k = k') then (k, a) :: l' else (k', a') :: alist_set k a l'
  end.

Fixpoint alist_delete (k : string) (l : list (string * A))
  : list (string * A) :=
  match l with
  | [] => []
  | (k', a') :: l' =>
      if decide (k = k') then alist_delete k l'
      else (k', a') :: alist_delete k l'
  end.
End alist.

(** [arr.splice(start, deleteCount, ...items)] on an array of [length l]
    elements: both [start] and [deleteCount] are clamped to the array. *)
Definition splice {A} (start deleteCount : nat) (new : list A) (l : list A)
  : list A :=
  take start l ++ new ++ drop (start + deleteCount) l.

(** The built-in [Set], as ECMAScript specifies it: the set data is a list
    of slots in insertion order, [delete] empties the slot of the value and
    [add] appends a slot when the value is absent.  [forEach] walks the slots
    by index and reads the list again after every callback. *)
Section set.
Context {A : Type} `{EqDecision A}.

Definition SetData := list (option A).

Definition set_has (x : A) (s : SetData) : bool :=
  bool_decide (Some x ∈ s).

Definition set_add (x : A) (s : SetData) : SetData :=
  if set_has x s then s else s ++ [Some x].

Fixpoint set_delete (x : A) (s : SetData) : SetData :=
  match s with
  | [] => []
  | Some y :: s' =>
      if decide (x = y) then None :: s' else Some y :: set_delete x s'
  | None :: s' => None :: set_delete x s'
  end.

(** The values of the set, in insertion order. *)
Definition set_values (s : SetData) : list A := omap id s.
End set.

Arguments SetData : clear implicits.

End Js.

Export Js.

(* ===================================================================== *)
(** ** Errors and outcomes *)
(* ===================================================================== *)

Inductive PatchOp := PATCH_REPLACE | PATCH_ADD | PATCH_REMOVE.

#[global] Instance PatchOp_eq_dec : EqDecision PatchOp.
Proof. solve_decision. Defined.

(** Why [notImplemented] was called. *)
Inductive Reason :=
| RootOperation (op : PatchOp)
    (* `Cannot apply ${op} operation to root level` *)
| RootReplace
    (* `Cannot replace root of type ... with value type ...` *)
| UnsupportedPatch (op : PatchOp)
    (* `Unsupported patch operation: ${op} on ...` *).

Inductive Error :=
| CircularReference
    (* Error('Circular reference detected in JSON structure') *)
| NotImplemented (reason : Reason)
    (* Error(`Not implemented: ${reason}`) *)
| InvalidConfiguration
    (* Error('patchesOptions must be a boolean or an object') *)
| TypeError
    (* thrown by the runtime: a property of null or undefined, a call of
       something that is no function *)
| LengthExceeded
    (* thrown by the CRDT engine: a sequence edit beyond the end *)
| OutsideModel
    (* not an error of the program: the code went where this model does not
       follow it (the coercion of a string or an object to a number, the
       length of a sequence that is in no document, a state that reads as
       no tree) *).

(** The outcome of running a piece of code from state [S]: it returns, or it
    throws and leaves the state it had reached, or the model ran out of
    fuel. *)
Inductive outcome (S A : Type) :=
| Done (s : S) (a : A)
| Throw (s : S) (e : Error)
| OutOfFuel.

Arguments Done {S A} s a.
Arguments Throw {S A} s e.
Arguments OutOfFuel {S A}.

Definition M (S A : Type) := S → outcome S A.

Definition ret {S A} (a : A) : M S A := λ s, Done s a.

Definition throw {S A} (e : Error) : M S A := λ s, Throw s e.

Definition and_then {S A B} (m : M S A) (f : A → M S B) : M S B :=
  λ s, match m s with
       | Done s' a => f a s'
       | Throw s' e => Throw s' e
       | OutOfFuel => OutOfFuel
       end.

Notation "'let!' x ':=' m 'in' k" := (and_then m (λ x, k))
  (at level 10, x name, m at level 100, k at level 200).
Notation "'do!' m 'in' k" := (and_then m (λ _, k))
  (at level 10, m at level 100, k at level 200).

(** The outcome of a step that left the state [s], and threw [e] if it
    threw. *)
Definition finished {S} (s : S) (e : option Error) : outcome S unit :=
  match e with
  | None => Done s tt
  | Some e => Throw s e
  end.

Definition get_state {S} : M S S := λ s, Done s s.
Definition put_state {S} (s : S) : M S unit := λ _, Done s tt.
Definition modify {S} (f : S → S) : M S unit := λ s, Done (f s) tt.

(** Run code that works on a part [T] of the state [S]. *)
Definition zoom {S T A} (get : S → T) (set : T → S → S) (m : M T A) : M S A :=
  λ s, match m (get s) with
       | Done t a => Done (set t s) a
       | Throw t e => Throw (set t s) e
       | OutOfFuel => OutOfFuel
       end.

(** [xs.map(f)] for an effectful [f]: left to right, stopping at the first
    throw. *)
Fixpoint traverse {S A B} (f : A → M S B) (xs : list A) : M S (list B) :=
  match xs with
  | [] => ret []
  | x :: xs' => let! y := f x in let! ys := traverse f xs' in ret (y :: ys)
  end.

(** [xs.forEach(f)] and [for (... of xs) f(...)] *)
Fixpoint for_each {S A} (f : A → M S unit) (xs : list A) : M S unit :=
  match xs with
  | [] => ret tt
  | x :: xs' => do! f x in for_each f xs'
  end.

(* ===================================================================== *)
(** ** The CRDT engine, at the interface the library uses *)
(* ===================================================================== *)

Module Yjs.

(** The identity of a container: what [new Y.Map()] and [new Y.Array()]
    allocate. *)
Definition yid := nat.

(** What a container slot holds: a primitive or a child container.  The
    containers of a document form a tree, every container being owned by at
    most one parent.

    [YMap] and [YArray] are containers that belong to a document, with what
    they hold.  [YNewMap] and [YNewArray] are containers as [new Y.Map()] and
    [new Y.Array()] make them, in no document yet: what is written to them
    is kept aside (their preliminary content), they read as empty, and they
    take their content in when they become part of a document.

    The entries of a keyed container are an association list.  Its order is
    the order in which the keys were set since the container was last
    emptied; the engine keeps the place of a key that is deleted and set
    again, so the statements about containers whose keys were deleted read
    them key by key. *)
Inductive YValue :=
| YPrim (p : prim)
| YMap (id : yid) (entries : list (string * YValue))
| YArray (id : yid) (items : list YValue)
| YNewMap (id : yid) (prelim : list (string * YValue))
| YNewArray (id : yid) (prelim : list YValue).

Definition yundefined : YValue := YPrim PUndefined.

(** [v instanceof Y.Map], [v instanceof Y.Array] *)
Definition is_YMap (v : YValue) : bool :=
  match v with YMap _ _ | YNewMap _ _ => true | _ => false end.

Definition is_YArray (v : YValue) : bool :=
  match v with YArray _ _ | YNewArray _ _ => true | _ => false end.

(** [type.doc]: whether a container belongs to a document. *)
Definition in_doc (v : YValue) : bool :=
  match v with YMap _ _ | YArray _ _ => true | _ => false end.

(** [type.toJSON()], and what it does to a child.  It reads what the
    document holds: nothing, for a container that is in none. *)
Fixpoint toJSON (v : YValue) : JSONValue :=
  match v with
  | YPrim p => JPrim p
  | YMap _ entries => JObject (map (λ kv, (kv.1, toJSON kv.2)) entries)
  | YArray _ items => JArray (map toJSON items)
  | YNewMap _ _ => JObject []
  | YNewArray _ _ => JArray []
  end.

(** What a container takes in when it becomes part of a document
    ([_integrate]).  A keyed container sets its preliminary entries one by
    one.  A sequence inserts its preliminary content as [insert] does
    ([typeListInsertGenericsAfter]): primitives are collected and stored
    when a container comes or at the end; a container is stored and then
    takes its own content in; at [undefined] the engine throws a TypeError
    (it reads [c.constructor]) and what was collected is lost.  The second
    component tells whether the engine got through: when it did not, the
    first is what the document was left with.  A container that is in a
    document already is not content the library hands over. *)
Fixpoint integrate (v : YValue) : YValue * bool :=
  match v with
  | YNewMap id prelim =>
      let '(entries, ok) :=
        (fix set_all (es acc : list (string * YValue))
           : list (string * YValue) * bool :=
           match es with
           | [] => (acc, true)
           | (k, c) :: es' =>
               let '(c', ok) := integrate c in
               if ok then set_all es' (alist_set k c' acc)
               else (alist_set k c' acc, false)
           end) prelim [] in
      (YMap id entries, ok)
  | YNewArray id prelim =>
      let '(items, ok) :=
        (fix insert_all (cs stored buffer : list YValue)
           : list YValue * bool :=
           match cs with
           | [] => (stored ++ buffer, true)
           | c :: cs' =>
               match c with
               | YPrim PUndefined => (stored, false)
               | YPrim _ => insert_all cs' stored (buffer ++ [c])
               | _ =>
                   let '(c', ok) := integrate c in
                   if ok then insert_all cs' (stored ++ buffer ++ [c']) []
                   else (stored ++ buffer ++ [c'], false)
               end
           end) prelim [] [] in
      (YArray id items, ok)
  | _ => (v, true)
  end.

(** The same two loops, for the content handed to [set], [insert] and
    [push] of a container of a document. *)
Fixpoint set_all (es acc : list (string * YValue))
  : list (string * YValue) * bool :=
  match es with
  | [] => (acc, true)
  | (k, c) :: es' =>
      let '(c', ok) := integrate c in
      if ok then set_all es' (alist_set k c' acc)
      else (alist_set k c' acc, false)
  end.

Fixpoint insert_all (cs stored buffer : list YValue) : list YValue * bool :=
  match cs with
  | [] => (stored ++ buffer, true)
  | c :: cs' =>
      match c with
      | YPrim PUndefined => (stored, false)
      | YPrim _ => insert_all cs' stored (buffer ++ [c])
      | _ =>
          let '(c', ok) := integrate c in
          if ok then insert_all cs' (stored ++ buffer ++ [c']) []
          else (stored ++ buffer ++ [c'], false)
      end
  end.

Definition insert_content (content : list YValue) : list YValue * bool :=
  insert_all content [] [].

(** Operations on the entries of a Y.Map. *)
Definition ymap_get (k : string) (entries : list (string * YValue)) : YValue :=
  default yundefined (alist_get k entries).

(** Operations on the items of a Y.Array of a document.  [insert] beyond
    the end throws, and so does [insert] of content the engine does not get
    through; [delete] removes what there is from [index] on and throws when
    fewer than [len] items were there. *)
Definition yarray_get (i : nat) (items : list YValue) : YValue :=
  default yundefined (items !! i).

Definition yarray_insert (i : nat) (content : list YValue)
    (items : list YValue) : list YValue * option Error :=
  if decide (i ≤ length items) then
    let '(new, ok) := insert_content content in
    (take i items ++ new ++ drop i items,
     if ok then None else Some TypeError)
  else (items, Some LengthExceeded).

Definition yarray_delete (i len : nat) (items : list YValue)
  : list YValue * option Error :=
  if decide (len = 0) then (items, None)
  else if decide (i + len ≤ length items)
       then (take i items ++ drop (i + len) items, None)
       else (take i items, Some LengthExceeded).

(** A step of a path: a key of a keyed container, an index of a sequence. *)
Inductive step :=
| Key (k : string)
| Idx (i : nat).

#[global] Instance step_eq_dec : EqDecision step.
Proof. solve_decision. Defined.

(** The index a step names in an array of [n] elements: a number, or the
    string that spells one in decimal, as [String(i)] does.  (Other strings
    that JavaScript reads as a number, such as ["01"], name no element of a
    plain array; what the engine's [get] makes of them depends on how it
    stores the elements, and is not followed.) *)
Definition step_index (n : nat) (s : step) : option nat :=
  match s with
  | Idx i => Some i
  | Key k => List.find (λ i, bool_decide (pretty i = k)) (seq 0 n)
  end.

(** [type.get(step)]: an absent key and an index out of range give
    [undefined], and so does a number under a keyed container.  A sequence
    compares the step with its length as a number, so the string that spells
    an index in decimal reads that element; a string that spells no number
    reads [undefined].  A container that is in no document reads as
    empty. *)
Definition yget (s : step) (v : YValue) : option YValue :=
  match v, s with
  | YMap _ entries, Key k => Some (ymap_get k entries)
  | YMap _ _, Idx _ => Some yundefined
  | YArray _ items, Idx i => Some (yarray_get i items)
  | YArray _ items, Key k =>
      Some (default yundefined
              (i ← step_index (length items) (Key k); items !! i))
  | YNewMap _ _, _ | YNewArray _ _, _ => Some yundefined
  | YPrim _, _ => None
  end.

(** A change event, as the engine hands it to a deep observer. *)
Inductive KeyAction := KAdd | KUpdate | KDelete.

(** The content of an [insert] delta: an array of values for a sequence
    container, a string for a text. *)
Inductive Insert :=
| InsArray (values : list YValue)
| InsString (s : string).

(** One entry of [event.changes.delta]; an absent field is [None]. *)
Record Delta := {
  d_retain : option nat;
  d_delete : option nat;
  d_insert : option Insert
}.

Inductive EventKind :=
| YMapEvent (keys : list (string * KeyAction))
| YArrayEvent (delta : list Delta)
| YOtherEvent.

Record YEvent := {
  e_path : list step;
  e_target : YValue;
  e_kind : EventKind
}.

(** [transaction.origin] *)
Inductive Origin :=
| ONull
| OSymbol (id : nat)
| OOther (tag : nat).

#[global] Instance Origin_eq_dec : EqDecision Origin.
Proof. solve_decision. Defined.

End Yjs.

Export Yjs.

(* ===================================================================== *)
(** ** src/util.ts *)
(* ===================================================================== *)

Module Util.

Definition is_null (v : plain) : bool :=
  match v with VPrim PNull => true | _ => false end.

Definition isJSONPrimitive (h : heap) (v : plain) : bool :=
  let t := typeof h v in
  type_tag_eqb t TString || type_tag_eqb t TNumber || type_tag_eqb t TBoolean
  || is_null v.

Definition isJSONArray (h : heap) (v : plain) : bool := Array_isArray h v.

Definition isJSONObject (h : heap) (v : plain) : bool :=
  negb (isJSONArray h v) && type_tag_eqb (typeof h v) TObject.

(** What the code reads from a value once its shape is known. *)
Definition prim_of (v : plain) : prim :=
  match v with VPrim p => p | VRef _ => PUndefined end.

Definition array_items (h : heap) (v : plain) : list plain :=
  match v with
  | VRef r => match h !! r with Some (OArr items) => items | _ => [] end
  | VPrim _ => []
  end.

(** [Object.entries(v)] of a plain object. *)
Definition object_entries (h : heap) (v : plain) : list (string * plain) :=
  match v with
  | VRef r => match h !! r with Some (OObj entries) => entries | _ => [] end
  | VPrim _ => []
  end.

(** The state of one conversion: the [seen] set handed down the recursive
    calls, and the supply of container identities. *)
Record ConvState := {
  seen : gset ref;
  alloc : yid
}.

Definition seen_has (v : plain) : M ConvState bool :=
  λ s, Done s (match v with VRef r => bool_decide (r ∈ seen s) | _ => false end).

Definition seen_add (v : plain) : M ConvState unit :=
  λ s, Done {| seen := match v with VRef r => {[r]} ∪ seen s | _ => seen s end;
               alloc := alloc s |} tt.

(** [new Y.Array()], [new Y.Map()] *)
Definition new_YArray : M ConvState YValue :=
  λ s, Done {| seen := seen s; alloc := S (alloc s) |} (YNewArray (alloc s) []).

Definition new_YMap : M ConvState YValue :=
  λ s, Done {| seen := seen s; alloc := S (alloc s) |} (YNewMap (alloc s) []).

(** [dest.push(content)], [dest.set(k, v)] on a container held in a local
    variable: the container afterwards, and the error of the engine if it
    threw.  A container that is in no document keeps what it is given
    aside. *)
Definition ypush (content : list YValue) (dest : YValue)
  : YValue * option Error :=
  match dest with
  | YArray id items =>
      let '(new, ok) := insert_content content in
      (YArray id (items ++ new), if ok then None else Some TypeError)
  | YNewArray id prelim => (YNewArray id (prelim ++ content), None)
  | _ => (dest, None)
  end.

Definition yset (k : string) (v : YValue) (dest : YValue)
  : YValue * option Error :=
  match dest with
  | YMap id entries =>
      let '(v', ok) := integrate v in
      (YMap id (alist_set k v' entries), if ok then None else Some TypeError)
  | YNewMap id prelim => (YNewMap id (alist_set k v prelim), None)
  | _ => (dest, None)
  end.

(** The container a write left, or the error it threw. *)
Definition written {S} (r : YValue * option Error) : M S YValue :=
  match r.2 with
  | None => ret r.1
  | Some e => throw e
  end.

(** The bodies of [applyJsonArray] and [applyJsonObject], for a given
    converter of the children. *)
Definition applyJsonArray_with (conv : plain → M ConvState YValue)
    (dest : YValue) (source : list plain) : M ConvState YValue :=
  let! content := traverse conv source in
  written (ypush content dest).

Fixpoint applyJsonObject_with (conv : plain → M ConvState YValue)
    (dest : YValue) (source : list (string * plain)) : M ConvState YValue :=
  match source with
  | [] => ret dest
  | (k, v) :: rest =>
      let! y := conv v in
      let! dest' := written (yset k y dest) in
      applyJsonObject_with conv dest' rest
  end.

Fixpoint toYDataType (fuel : nat) (h : heap) (v : plain)
  : M ConvState YValue :=
  match fuel with
  | 0 => λ _, OutOfFuel
  | S fuel' =>
      if isJSONPrimitive h v then
        ret (YPrim (prim_of v))
      else if isJSONArray h v then
        let! cyclic := seen_has v in
        if (cyclic : bool) then throw CircularReference
        else
          do! seen_add v in
          let! arr := new_YArray in
          applyJsonArray_with (toYDataType fuel' h) arr (array_items h v)
      else if isJSONObject h v then
        let! cyclic := seen_has v in
        if (cyclic : bool) then throw CircularReference
        else
          do! seen_add v in
          let! map := new_YMap in
          applyJsonObject_with (toYDataType fuel' h) map (object_entries h v)
      else
        ret yundefined
  end.

Definition applyJsonArray (fuel : nat) (h : heap) (dest : YValue)
    (source : plain) : M ConvState YValue :=
  applyJsonArray_with (toYDataType fuel h) dest (array_items h source).

Definition applyJsonObject (fuel : nat) (h : heap) (dest : YValue)
    (source : plain) : M ConvState YValue :=
  applyJsonObject_with (toYDataType fuel h) dest (object_entries h source).

(** The recursion enters an array or an object only after adding it to
    [seen], so its depth is at most the number of objects of the heap. *)
Definition enough_fuel (h : heap) : nat := S (size h).

(** A call [toYDataType(v)] from outside: [seen] is a new, empty set. *)
Definition convert (h : heap) (v : plain) : M yid YValue :=
  zoom (λ a, {| seen := ∅; alloc := a |}) (λ s _, alloc s)
       (toYDataType (enough_fuel h) h v).

Definition toPlainValue (v : YValue) : JSONValue :=
  if is_YMap v || is_YArray v then toJSON v
  else JPrim (match v with YPrim p => p | _ => PUndefined end).

Definition notImplemented {S A} (reason : Reason) : M S A :=
  throw (NotImplemented reason).

(** *** What a plain value stands for *)

(** The plain value read as a tree, as [JSON.stringify] or a deep comparison
    walks it, to the depth the fuel allows. *)
Fixpoint tree_of (fuel : nat) (h : heap) (v : plain) : option JSONValue :=
  match fuel with
  | 0 => None
  | S fuel' =>
      match v with
      | VPrim p => Some (JPrim p)
      | VRef r =>
          match h !! r with
          | Some (OArr items) => JArray <$> mapM (tree_of fuel' h) items
          | Some (OObj entries) =>
              JObject <$> mapM (λ kv, pair kv.1 <$> tree_of fuel' h kv.2) entries
          | None => Some undefined
          end
      end
  end.

(** [unshared h v t R]: the value [v] is the tree [t], built from the objects
    [R] of the heap, none of which is met twice on the way. *)
Inductive unshared (h : heap) : plain → JSONValue → gset ref → Prop :=
| unshared_prim p :
    unshared h (VPrim p) (JPrim p) ∅
| unshared_arr r items ts R :
    h !! r = Some (OArr items) →
    unshared_list h items ts R →
    r ∉ R →
    unshared h (VRef r) (JArray ts) ({[r]} ∪ R)
| unshared_obj r entries tes R :
    h !! r = Some (OObj entries) →
    NoDup entries.*1 →
    tes.*1 = entries.*1 →
    unshared_list h entries.*2 tes.*2 R →
    r ∉ R →
    unshared h (VRef r) (JObject tes) ({[r]} ∪ R)
with unshared_list (h : heap) : list plain → list JSONValue → gset ref → Prop :=
| unshared_nil :
    unshared_list h [] [] ∅
| unshared_cons v vs t ts R1 R2 :
    unshared h v t R1 →
    unshared_list h vs ts R2 →
    R1 ## R2 →
    unshared_list h (v :: vs) (t :: ts) (R1 ∪ R2).

End Util.

Export Util.


(* ===================================================================== *)
(** ** src/bind.ts *)
(* ===================================================================== *)

Module Bind.

Abbreviation Snapshot := JSONValue.

(** The predicates of [util.ts] on the values of a snapshot. *)
Definition typeof_tree (v : JSONValue) : type_tag :=
  match v with JPrim p => typeof_prim p | _ => TObject end.

Definition isJSONArray_tree (v : JSONValue) : bool :=
  match v with JArray _ => true | _ => false end.

Definition isJSONObject_tree (v : JSONValue) : bool :=
  negb (isJSONArray_tree v) && type_tag_eqb (typeof_tree v) TObject.

(** *** Properties of a draft: [obj[step]], [base[key] = v], [delete base[key]] *)

(** [String(step)], the property key a step names. *)
Definition step_key (s : step) : string :=
  match s with Key k => k | Idx i => pretty i end.

(** The character of a string at an index, as a string. *)
Definition char_at (i : nat) (s : string) : option string :=
  (λ a, String a EmptyString) <$> String.get i s.

(** [obj[step]] reads an own property; [None] is the [TypeError] of reading
    a property of [null] or [undefined].  A string has its length and its
    characters, a number and a boolean have no own property. *)
Definition jget (s : step) (obj : JSONValue) : option JSONValue :=
  match obj with
  | JObject entries => Some (default undefined (alist_get (step_key s) entries))
  | JArray items =>
      if bool_decide (s = Key "length")
      then Some (JPrim (PNum (Z.of_nat (length items))))
      else Some (default undefined (i ← step_index (length items) s; items !! i))
  | JPrim PNull | JPrim PUndefined => None
  | JPrim (PStr str) =>
      if bool_decide (s = Key "length")
      then Some (JPrim (PNum (Z.of_nat (String.length str))))
      else Some (default undefined
                   (i ← step_index (String.length str) s;
                    c ← char_at i str;
                    Some (JPrim (PStr c))))
  | JPrim _ => Some undefined
  end.

(** [event.path.reduce((obj, step) => obj[step], target)] *)
Fixpoint jget_path (steps : list step) (obj : JSONValue) : option JSONValue :=
  match steps with
  | [] => Some obj
  | s :: rest => child ← jget s obj; jget_path rest child
  end.

(** The draft with the object found at [steps] replaced by [new]: what a
    mutation of that object through its reference amounts to. *)
Definition jreplace_child (s : step) (f : JSONValue → JSONValue)
    (obj : JSONValue) : JSONValue :=
  match obj with
  | JObject entries =>
      match alist_get (step_key s) entries with
      | Some child => JObject (alist_set (step_key s) (f child) entries)
      | None => obj
      end
  | JArray items =>
      match step_index (length items) s with
      | Some i => JArray (alter f i items)
      | None => obj
      end
  | JPrim _ => obj
  end.

Fixpoint jreplace (steps : list step) (new : JSONValue) (obj : JSONValue)
  : JSONValue :=
  match steps with
  | [] => new
  | s :: rest => jreplace_child s (jreplace rest new) obj
  end.

(** Run code that mutates the object at [steps] of the draft. *)
Definition at_draft {A} (steps : list step) (m : M JSONValue A)
  : M JSONValue A :=
  λ root,
    match jget_path steps root with
    | None => Throw root TypeError
    | Some base =>
        match m base with
        | Done base' a => Done (jreplace steps base' root) a
        | Throw base' e => Throw (jreplace steps base' root) e
        | OutOfFuel => OutOfFuel
        end
    end.

(** [base[key] = v] and [delete base[key]], for a [base] that passed
    [isJSONObject]: an object, or [null]. *)
Definition assign (key : string) (v : JSONValue) : M JSONValue unit :=
  λ base,
    match base with
    | JObject entries => Done (JObject (alist_set key v entries)) tt
    | _ => Throw base TypeError
    end.

Definition delete_property (key : string) : M JSONValue unit :=
  λ base,
    match base with
    | JObject entries => Done (JObject (alist_delete key entries)) tt
    | _ => Throw base TypeError
    end.

(** *** applyYEvent *)

Definition apply_key_change (source : YValue) (kc : string * KeyAction)
  : M JSONValue unit :=
  match kc.2 with
  | KAdd | KUpdate =>
      match yget (Key kc.1) source with
      | Some child => assign kc.1 (toPlainValue child)
      | None => throw TypeError
      end
  | KDelete => delete_property kc.1
  end.

(** [change.insert.length] and the elements spliced in. *)
Definition insert_length (ins : Insert) : nat :=
  match ins with
  | InsArray values => length values
  | InsString s => String.length s
  end.

Definition insert_items (ins : Insert) : list JSONValue :=
  match ins with
  | InsArray values => map toPlainValue values
  | InsString s => [toPlainValue (YPrim (PStr s))]
  end.

(** [if (x)] for a count and for the content of an insert. *)
Definition truthy_count (n : option nat) : bool :=
  match n with Some (S _) => true | _ => false end.

Definition truthy_insert (ins : option Insert) : bool :=
  match ins with
  | Some (InsArray _) => true
  | Some (InsString s) => negb (bool_decide (s = ""))
  | None => false
  end.

(** The body of the [forEach] over [event.changes.delta]; the state is the
    local variable [retain] and the array [arr]. *)
Definition apply_delta (st : nat * list JSONValue) (change : Delta)
  : nat * list JSONValue :=
  let '(retain, arr) := st in
  let retain :=
    if truthy_count (d_retain change)
    then retain + default 0 (d_retain change) else retain in
  let arr :=
    if truthy_count (d_delete change)
    then splice retain (default 0 (d_delete change)) [] arr else arr in
  if truthy_insert (d_insert change) then
    match d_insert change with
    | Some ins =>
        (retain + insert_length ins, splice retain 0 (insert_items ins) arr)
    | None => (retain, arr)
    end
  else (retain, arr).

Definition applyYEvent (event : YEvent) : M JSONValue unit :=
  λ base,
    match e_kind event, base with
    | YMapEvent keys, _ =>
        if isJSONObject_tree base
        then for_each (apply_key_change (e_target event)) keys base
        else Done base tt
    | YArrayEvent delta, JArray arr =>
        Done (JArray (foldl apply_delta (0, arr) delta).2) tt
    | _, _ => Done base tt
    end.

(** [create(snapshot, (target) => { for (const event of events) ... })]: the
    next snapshot, or the error the recipe threw. *)
Definition applyYEvents (snapshot : Snapshot) (events : list YEvent)
  : Snapshot + Error :=
  match for_each (λ event, at_draft (e_path event) (applyYEvent event))
             events snapshot with
  | Done next _ => inl next
  | Throw _ e => inr e
  | OutOfFuel => inr OutsideModel
  end.

(** *** The containers a patch is applied to *)

(** The state of patch application: a container with all that it owns, and
    the supply of container identities. *)
Record Cell := {
  node : YValue;
  supply : yid
}.

Definition get_node : M Cell YValue := λ c, Done c (node c).

Definition modify_node (f : YValue → YValue) : M Cell unit :=
  λ c, Done {| node := f (node c); supply := supply c |} tt.

(** A write of the engine to the container in [node]: it leaves the
    container it leaves, also when it throws. *)
Definition write_node (f : YValue → YValue * option Error) : M Cell unit :=
  λ c, finished {| node := (f (node c)).1; supply := supply c |} (f (node c)).2.

(** The methods of the container in [node].  On a container that is in no
    document they work on its preliminary content: a JS [Map], or a JS
    array edited by [splice].  On a keyed container of a document, [clear]
    and [delete] leave no trace in the entry list; the engine remembers the
    place of the key (see [YValue]). *)
Definition Y_clear : M Cell unit :=
  modify_node (λ v, match v with
                    | YMap id _ => YMap id []
                    | YNewMap id _ => YNewMap id []
                    | _ => v
                    end).

Definition Y_set (k : string) (y : YValue) : M Cell unit :=
  write_node (yset k y).

Definition Y_delete_key (k : string) : M Cell unit :=
  modify_node (λ v, match v with
                    | YMap id entries => YMap id (alist_delete k entries)
                    | YNewMap id prelim => YNewMap id (alist_delete k prelim)
                    | _ => v
                    end).

(** [length] of a sequence of a document.  What it reads on a sequence
    that is in no document differs between the versions of the engine (the
    length of the preliminary content, or 0): the model does not follow
    the code there. *)
Definition Y_length : M Cell nat :=
  λ c, match node c with
       | YArray _ items => Done c (length items)
       | YNewArray _ _ => Throw c OutsideModel
       | _ => Done c 0
       end.

Definition Y_insert (i : nat) (content : list YValue) : M Cell unit :=
  write_node (λ v, match v with
                   | YArray id items =>
                       (YArray id (yarray_insert i content items).1,
                        (yarray_insert i content items).2)
                   | YNewArray id prelim =>
                       (YNewArray id (splice i 0 content prelim), None)
                   | _ => (v, None)
                   end).

Definition Y_delete (i len : nat) : M Cell unit :=
  write_node (λ v, match v with
                   | YArray id items =>
                       (YArray id (yarray_delete i len items).1,
                        (yarray_delete i len items).2)
                   | YNewArray id prelim =>
                       (YNewArray id (splice i len [] prelim), None)
                   | _ => (v, None)
                   end).

Definition Y_push (content : list YValue) : M Cell unit :=
  write_node (ypush content).

Definition Y_get (s : step) : M Cell YValue :=
  λ c, match yget s (node c) with
       | Some v => Done c v
       | None => Throw c TypeError
       end.

(** [toYDataType(v)], drawing identities from the supply. *)
Definition conv (h : heap) (v : plain) : M Cell YValue :=
  zoom supply (λ a c, {| node := node c; supply := a |}) (convert h v).

(** [base = base.get(step)] along [steps]; [None] is the [TypeError] of
    calling [get] on what is no container. *)
Fixpoint navigate (steps : list step) (base : YValue) : option YValue :=
  match steps with
  | [] => Some base
  | s :: rest => child ← yget s base; navigate rest child
  end.

Definition walk (steps : list step) : M Cell YValue :=
  λ c, match navigate steps (node c) with
       | Some base => Done c base
       | None => Throw c TypeError
       end.

(** The tree with the container found at [steps] replaced by [new]: what a
    mutation of that container through its reference amounts to. *)
Definition yreplace_child (s : step) (f : YValue → YValue) (v : YValue)
  : YValue :=
  match v, s with
  | YMap id entries, Key k =>
      match alist_get k entries with
      | Some child => YMap id (alist_set k (f child) entries)
      | None => v
      end
  | YArray id items, _ =>
      match step_index (length items) s with
      | Some i => YArray id (alter f i items)
      | None => v
      end
  | _, _ => v
  end.

Fixpoint yreplace (steps : list step) (new : YValue) (v : YValue) : YValue :=
  match steps with
  | [] => new
  | s :: rest => yreplace_child s (yreplace rest new) v
  end.

(** Run code on the container reached from [node] along [steps]. *)
Definition at_container {A} (steps : list step) (m : M Cell A) : M Cell A :=
  λ c,
    match navigate steps (node c) with
    | None => Throw c TypeError
    | Some base =>
        match m {| node := base; supply := supply c |} with
        | Done c' a =>
            Done {| node := yreplace steps (node c') (node c);
                    supply := supply c' |} a
        | Throw c' e =>
            Throw {| node := yreplace steps (node c') (node c);
                     supply := supply c' |} e
        | OutOfFuel => OutOfFuel
        end
    end.

(** [Object.entries(v)]: a [TypeError] on [null] and [undefined]. *)
Definition Object_entries {S} (h : heap) (v : plain)
  : M S (list (string * plain)) :=
  match v with
  | VPrim PNull | VPrim PUndefined => throw TypeError
  | _ => ret (object_entries h v)
  end.

(** [target.set(k, toYDataType(v))] *)
Definition set_converted (h : heap) (kv : string * plain) : M Cell unit :=
  let! y := conv h kv.2 in Y_set kv.1 y.

(** *** defaultApplyPatch *)

Record Patch := {
  path : list step;
  op : PatchOp;
  value : plain
}.

(** [base.delete(value, diff)] for a [value] below zero, on a sequence of
    a document: the engine starts at the first element, removes what there
    is and throws, since fewer than [diff] elements were there. *)
Definition Y_delete_from_negative : M Cell unit :=
  write_node (λ v, match v with
                   | YArray id items => (YArray id [], Some LengthExceeded)
                   | _ => (v, None)
                   end).

(** The branch for the pseudo-property ['length'] of a sequence.  The
    comparisons read [null] and [false] as 0, [true] as 1, and are both
    false for [undefined]; the coercion of a string or of an object to a
    number is not followed. *)
Definition apply_length (value : plain) : M Cell unit :=
  match value with
  | VPrim (PNum n) =>
      let! len := Y_length in
      if bool_decide (n < 0)%Z then Y_delete_from_negative
      else if bool_decide (Z.to_nat n < len) then
        Y_delete (Z.to_nat n) (len - Z.to_nat n)
      else if bool_decide (len < Z.to_nat n) then
        Y_push (replicate (Z.to_nat n - len) (YPrim PNull))
      else ret tt
  | VPrim PUndefined => ret tt
  | VPrim PNull | VPrim (PBool false) =>
      let! len := Y_length in
      if bool_decide (0 < len) then Y_delete 0 len else ret tt
  | VPrim (PBool true) =>
      let! len := Y_length in
      if bool_decide (1 < len) then Y_delete 1 (len - 1)
      else if bool_decide (len < 1) then Y_push [YPrim PNull]
      else ret tt
  | _ => throw OutsideModel
  end.

Definition defaultApplyPatch (h : heap) (patch : Patch) : M Cell unit :=
  let '{| path := path; op := op; value := value |} := patch in
  match last path with
  | None =>
      (* !path.length *)
      do! (if bool_decide (op ≠ PATCH_REPLACE)
           then notImplemented (RootOperation op) else ret tt) in
      let! target := get_node in
      if is_YMap target && isJSONObject h value then
        do! Y_clear in
        for_each (set_converted h) (object_entries h value)
      else if is_YArray target && isJSONArray h value then
        let! len := Y_length in
        do! Y_delete 0 len in
        let! content := traverse (conv h) (array_items h value) in
        Y_push content
      else
        notImplemented RootReplace
  | Some property =>
      let parent := removelast path in
      let! base := walk parent in
      match base, property with
      | (YMap _ _ | YNewMap _ _), Key property =>
          at_container parent
            match op with
            | PATCH_ADD | PATCH_REPLACE =>
                let! y := conv h value in Y_set property y
            | PATCH_REMOVE => Y_delete_key property
            end
      | (YArray _ _ | YNewArray _ _), Idx property =>
          at_container parent
            match op with
            | PATCH_ADD =>
                let! y := conv h value in Y_insert property [y]
            | PATCH_REPLACE =>
                let! oldValue := Y_get (Idx property) in
                if is_YMap oldValue && isJSONObject h value then
                  at_container [Idx property]
                    (do! Y_clear in
                     let! entries := Object_entries h value in
                     for_each (set_converted h) entries)
                else
                  do! Y_delete property 1 in
                  let! y := conv h value in
                  Y_insert property [y]
            | PATCH_REMOVE => Y_delete property 1
            end
      | (YArray _ _ | YNewArray _ _), Key "length" =>
          at_container parent (apply_length value)
      | _, _ => notImplemented (UnsupportedPatch op)
      end
  end.

(** *** applyUpdate *)

(** What [create(snapshot, fn, { enablePatches })] returns for the mutator
    [fn] of the caller: the next state and the patches. *)
Definition UpdateFn := plain → Snapshot → Snapshot * list Patch.

Definition applyUpdate (snapshot : Snapshot) (fn : UpdateFn)
    (applyPatch : Patch → M Cell unit) (patchesOptions : plain)
  : M Cell Snapshot :=
  let '(nextState, patches) := fn patchesOptions snapshot in
  do! for_each applyPatch patches in
  ret nextState.

(** *** bind *)

(** The symbol created once, when the module is loaded. *)
Definition MUTATIVE_YJS_ORIGIN : Origin := OSymbol 0.

(** A listener is a function of the caller: it has an identity, and a body.
    The bodies followed here call [subscribe] and the functions [subscribe]
    returned, on the binder that invokes them. *)
Definition ListenerFn := nat.

Inductive Action :=
| CallSubscribe (fn : ListenerFn)
| CallUnsubscribe (fn : ListenerFn).

Record Options := {
  applyPatch : option ((Patch → M Cell unit) → Patch → M Cell unit);
  patchesOptions : plain
}.

(** The variables a call of [bind] closes over. *)
Record Binder := {
  snapshot : Snapshot;
  subscription : SetData ListenerFn;
  options : option Options
}.

(** An invocation [fn(snapshot)] by a binder. *)
Record Call := {
  by_binder : nat;
  listener : ListenerFn;
  argument : Snapshot
}.

(** The source container with the supply of identities, its deep observers
    in the order of registration, the binders made so far and the
    invocations of listeners so far. *)
Record World := {
  source : YValue;
  ids : yid;
  observers : list nat;
  binders : list Binder;
  calls : list Call
}.

(** [source.doc] *)
Definition doc (w : World) : bool := in_doc (source w).

Definition set_source (c : Cell) (w : World) : World :=
  {| source := node c; ids := Bind.supply c;
     observers := observers w; binders := binders w; calls := calls w |}.

Definition set_observers (o : list nat) (w : World) : World :=
  {| source := source w; ids := ids w;
     observers := o; binders := binders w; calls := calls w |}.

Definition set_binders (bs : list Binder) (w : World) : World :=
  {| source := source w; ids := ids w;
     observers := observers w; binders := bs; calls := calls w |}.

Definition set_calls (cs : list Call) (w : World) : World :=
  {| source := source w; ids := ids w;
     observers := observers w; binders := binders w; calls := cs |}.

(** Run code on the source container. *)
Definition with_source {A} (m : M Cell A) : M World A :=
  zoom (λ w, {| node := source w; supply := ids w |}) set_source m.

(** The binder behind a handle. *)
Definition the_binder (i : nat) : M World Binder :=
  λ w, match binders w !! i with
       | Some b => Done w b
       | None => Throw w OutsideModel
       end.

Definition modify_binder (i : nat) (f : Binder → Binder) : M World unit :=
  modify (λ w, set_binders (alter f i (binders w)) w).

Definition set_snapshot (s : Snapshot) (b : Binder) : Binder :=
  {| snapshot := s; subscription := subscription b; options := options b |}.

Definition set_subscription (s : SetData ListenerFn) (b : Binder) : Binder :=
  {| snapshot := snapshot b; subscription := s; options := options b |}.

(** [a ?? b] *)
Definition nullish (a b : plain) : plain :=
  match a with
  | VPrim PUndefined | VPrim PNull => b
  | _ => a
  end.

Definition js_true : plain := VPrim (PBool true).

Section binder.

(** The plain objects alive: the values of patches, the options. *)
Variable h : heap.

(** The events the engine reports for a transaction that took the source
    from one state to another. *)
Variable yjs_events : YValue → YValue → list YEvent.

(** The body of every listener. *)
Variable listeners : ListenerFn → list Action.

Definition get (i : nat) : M World Snapshot :=
  let! b := the_binder i in ret (snapshot b).

(** The function [subscribe] returns: [() => void subscription.delete(fn)] *)
Definition unsubscribe (i : nat) (fn : ListenerFn) : M World unit :=
  modify_binder i (λ b, set_subscription (set_delete fn (subscription b)) b).

Definition run_action (i : nat) (a : Action) : M World unit :=
  match a with
  | CallSubscribe fn =>
      modify_binder i (λ b, set_subscription (set_add fn (subscription b)) b)
  | CallUnsubscribe fn => unsubscribe i fn
  end.

(** [fn(get())] *)
Definition call_listener (i : nat) (fn : ListenerFn) : M World unit :=
  let! s := get i in
  do! modify (λ w, set_calls (calls w ++ [{| by_binder := i; listener := fn;
                                             argument := s |}]) w) in
  for_each (run_action i) (listeners fn).

Definition subscribe (i : nat) (fn : ListenerFn) (immediate : bool)
  : M World unit :=
  do! modify_binder i (λ b, set_subscription (set_add fn (subscription b)) b) in
  if immediate then call_listener i fn else ret tt.

(** [subscription.forEach((fn) => fn(get()))], from slot [index] on. *)
Fixpoint forEach (fuel : nat) (i : nat) (index : nat) : M World unit :=
  match fuel with
  | 0 => λ _, OutOfFuel
  | S fuel' =>
      let! b := the_binder i in
      match subscription b !! index with
      | None => ret tt
      | Some None => forEach fuel' i (S index)
      | Some (Some fn) =>
          do! call_listener i fn in
          forEach fuel' i (S index)
      end
  end.

Definition notify (fuel : nat) (i : nat) : M World unit := forEach fuel i 0.

Definition observer (fuel : nat) (i : nat) (events : list YEvent)
    (origin : Origin) : M World unit :=
  if bool_decide (origin = MUTATIVE_YJS_ORIGIN) then ret tt
  else
    let! s := get i in
    match applyYEvents s events with
    | inl next =>
        do! modify_binder i (set_snapshot next) in
        notify fuel i
    | inr e => throw e
    end.

(** The end of a transaction: the engine calls the deep observers of the
    source when the transaction changed it. *)
Definition commit (fuel : nat) (before : YValue) (origin : Origin)
  : M World unit :=
  let! w := get_state in
  match yjs_events before (source w) with
  | [] => ret tt
  | events => for_each (λ i, observer fuel i events origin) (observers w)
  end.

(** [Y.transact(doc, f, origin)], called while no transaction of the
    document is running: the observers run when [f] has ended, also when it
    threw.  (Called inside a running transaction, the engine runs [f] in
    that transaction and keeps its origin; no code followed here does
    that: the bodies of listeners call [subscribe] and unsubscribe
    functions only.) *)
Definition transact {A} (fuel : nat) (f : M World A) (origin : Origin)
  : M World A :=
  λ w,
    match f w with
    | Done w' a => (do! commit fuel (source w) origin in ret a) w'
    | Throw w' e =>
        match commit fuel (source w) origin w' with
        | Done w'' _ => Throw w'' e
        | Throw w'' e' => Throw w'' e'
        | OutOfFuel => OutOfFuel
        end
    | OutOfFuel => OutOfFuel
    end.

(** A change of the source by someone else, in a transaction of theirs. *)
Definition external (fuel : nat) (mutation : M Cell unit) (origin : Origin)
  : M World unit :=
  transact fuel (with_source mutation) origin.

Definition bind (options : option Options) : M World nat :=
  λ w,
    let i := length (binders w) in
    let b := {| snapshot := toJSON (source w); subscription := [];
                options := options |} in
    Done (set_observers (observers w ++ [i]) (set_binders (binders w ++ [b]) w)) i.

Definition unbind (i : nat) : M World unit :=
  modify (λ w, set_observers (filter (λ j, j ≠ i) (observers w)) w).

(** [options ? (options.patchesOptions ?? true) : true] *)
Definition patchesOptionsInOption (b : Binder) : plain :=
  match options b with
  | Some o => nullish (patchesOptions o) js_true
  | None => js_true
  end.

Definition applyPatch_of (b : Binder) : Patch → M Cell unit :=
  match options b with
  | Some {| applyPatch := Some applyPatchInOption |} =>
      applyPatchInOption (defaultApplyPatch h)
  | _ => defaultApplyPatch h
  end.

Definition doApplyUpdate (i : nat) (fn : UpdateFn) : M World unit :=
  let! b := the_binder i in
  let! next := with_source (applyUpdate (snapshot b) fn (applyPatch_of b)
                                        (patchesOptionsInOption b)) in
  modify_binder i (set_snapshot next).

(** [update], from [if (doc)] on. *)
Definition update_checked (fuel : nat) (i : nat) (fn : UpdateFn)
  : M World unit :=
  let! w := get_state in
  if doc w then
    do! transact fuel (doApplyUpdate i fn) MUTATIVE_YJS_ORIGIN in
    notify fuel i
  else
    do! doApplyUpdate i fn in
    notify fuel i.

Definition update (fuel : nat) (i : nat) (fn : UpdateFn) : M World unit :=
  let! b := the_binder i in
  let v := patchesOptionsInOption b in
  if negb (bool_decide (v = js_true))
     && negb (bool_decide (v = VPrim PNull))
     && negb (type_tag_eqb (typeof h v) TObject)
  then throw InvalidConfiguration
  else update_checked fuel i fn.

End binder.

End Bind.

Export Bind.

(* ===================================================================== *)
(** ** src/helpers.ts *)
(* ===================================================================== *)

Module Helpers.

(** [() => rawReturn(initialState)], as the draft engine reports it: the
    state returned becomes the next state ([t], the tree the value reads
    as), and the one patch replaces the root by it. *)
Definition initial_recipe (t : Snapshot) (initialState : plain) : UpdateFn :=
  λ _ _, (t, [{| path := []; op := PATCH_REPLACE; value := initialState |}]).

(** The tree a state reads as.  A state that holds itself reads as no
    tree, and no snapshot of this model stands for it: [undefined] takes
    its place while [update] runs. *)
Definition state_tree (h : heap) (initialState : plain) : Snapshot :=
  default undefined (tree_of (enough_fuel h) h initialState).

Section createBinder.
Variable h : heap.
Variable yjs_events : YValue → YValue → list YEvent.
Variable listeners : ListenerFn → list Action.

(** [update] runs whatever the state is; the model stops, with
    [OutsideModel], only where [update] has returned with a state that
    reads as no tree. *)
Definition createBinder (fuel : nat) (initialState : plain)
    (options : option Options) : M World nat :=
  let! binder := bind options in
  do! update h yjs_events listeners fuel binder
        (initial_recipe (state_tree h initialState) initialState) in
  match tree_of (enough_fuel h) h initialState with
  | Some _ => ret binder
  | None => throw OutsideModel
  end.

End createBinder.

End Helpers.

Export Helpers.

(* ===================================================================== *)
(** ** Notions the statements use *)
(* ===================================================================== *)

(** *** Conversion *)

(** The objects of the heap a conversion has not entered yet: what bounds
    the depth of the recursion. *)
Definition measure (h : heap) (st : ConvState) : nat :=
  size (dom h ∖ seen st).

(** What a converter of children does, as far as the recursion needs it:
    below the bound it returns or throws [CircularReference], and [seen]
    only grows. *)
Definition conv_ok (h : heap) (conv : plain → M ConvState YValue)
    (bound : nat) : Prop :=
  ∀ v st, measure h st < bound →
    match conv v st with
    | Done st' _ => seen st ⊆ seen st' ∧ alloc st ≤ alloc st'
    | Throw st' e => e = CircularReference ∧ seen st ⊆ seen st'
    | OutOfFuel => False
    end.

(** What a container holds, in the document or kept aside: what it reads
    as once it is part of a document. *)
Fixpoint content (v : YValue) : JSONValue :=
  match v with
  | YPrim p => JPrim p
  | YMap _ entries | YNewMap _ entries =>
      JObject (map (λ kv, (kv.1, content kv.2)) entries)
  | YArray _ items | YNewArray _ items => JArray (map content items)
  end.

(** A value as [toYDataType] makes it: a primitive, or a container that is
    in no document, with distinct keys, holding such values. *)
Fixpoint is_new (v : YValue) : Prop :=
  match v with
  | YPrim _ => True
  | YNewMap _ prelim =>
      NoDup prelim.*1
      ∧ (fix all (es : list (string * YValue)) : Prop :=
           match es with
           | [] => True
           | kv :: es' => is_new kv.2 ∧ all es'
           end) prelim
  | YNewArray _ prelim =>
      (fix all (cs : list YValue) : Prop :=
         match cs with
         | [] => True
         | c :: cs' => is_new c ∧ all cs'
         end) prelim
  | YMap _ _ | YArray _ _ => False
  end.

(** A tree the engine takes in: no array of it holds [undefined] (under a
    key, [undefined] is stored like any primitive). *)
Fixpoint storable (t : JSONValue) : bool :=
  match t with
  | JPrim _ => true
  | JArray ts =>
      forallb (λ t, match t with
                    | JPrim PUndefined => false
                    | _ => storable t
                    end) ts
  | JObject tes => forallb (λ kv, storable kv.2) tes
  end.

(** The values the engine takes in, each as it is stored. *)
Definition stored_as (ys ys' : list YValue) : Prop :=
  Forall2 (λ y y', integrate y = (y', true)) ys ys'.

Definition round_trips (h : heap) (conv : plain → M ConvState YValue)
    (bound : nat) : Prop :=
  ∀ v t R st, unshared h v t R → R ## seen st → measure h st < bound →
    ∃ st' y, conv v st = Done st' y ∧ content y = t ∧ is_new y
             ∧ seen st' = seen st ∪ R.

(** Values that are trees, each on its own: the values converted by
    separate calls of [toYDataType]. *)
Definition trees (h : heap) (vs : list plain) (ts : list JSONValue) : Prop :=
  Forall2 (λ v t, ∃ R, unshared h v t R) vs ts.

(** The values an object holds, and what can be reached from a value. *)
Definition children (h : heap) (r : ref) : list plain :=
  match h !! r with
  | Some (OArr items) => items
  | Some (OObj entries) => entries.*2
  | None => []
  end.

Inductive reaches (h : heap) : plain → ref → Prop :=
| reaches_here r :
    is_Some (h !! r) → reaches h (VRef r) r
| reaches_child r c r' :
    c ∈ children h r → reaches h c r' → reaches h (VRef r) r'.

(** An array or object that holds itself, directly or further down. *)
Definition on_cycle (h : heap) (r : ref) : Prop :=
  ∃ c, c ∈ children h r ∧ reaches h c r.

Definition has_cycle (h : heap) (v : plain) : Prop :=
  ∃ r, reaches h v r ∧ on_cycle h r.

(** What a converter of children has done when it returned: it has
    entered, for the first time, every object within reach, and none of
    them holds itself. *)
Definition visits (h : heap) (conv : plain → M ConvState YValue) : Prop :=
  ∀ v st st' y, conv v st = Done st' y →
    seen st ⊆ seen st'
    ∧ ∀ r, reaches h v r → (r ∉ seen st) ∧ r ∈ seen st' ∧ (¬ on_cycle h r).

(** *** Errors *)

(** The errors a piece of code can throw. *)
Definition throws_within {S A} (P : Error → Prop) (m : M S A) : Prop :=
  ∀ s s' e, m s = Throw s' e → P e.

(** *** Containers *)

Definition is_container (v : YValue) : Prop := is_YMap v || is_YArray v.

(** *** Sequence deltas, as the specification words them *)

Inductive DeltaOp :=
| Retain (count : nat)
| Delete (count : nat)
| Insert (values : list YValue).

Definition delta_of (d : DeltaOp) : Delta :=
  match d with
  | Retain n => {| d_retain := Some n; d_delete := None; d_insert := None |}
  | Delete n => {| d_retain := None; d_delete := Some n; d_insert := None |}
  | Insert vs =>
      {| d_retain := None; d_delete := None; d_insert := Some (InsArray vs) |}
  end.

(** "Replay the delta run left-to-right against the base sequence using a
    single running cursor": retain advances the cursor, delete removes that
    many elements starting at the cursor, insert splices in the projections
    of the inserted elements at the cursor and advances the cursor by their
    count. *)
Fixpoint replay (cursor : nat) (ops : list DeltaOp) (arr : list JSONValue)
  : list JSONValue :=
  match ops with
  | [] => arr
  | Retain n :: rest => replay (cursor + n) rest arr
  | Delete n :: rest =>
      replay cursor rest (take cursor arr ++ drop (cursor + n) arr)
  | Insert vs :: rest =>
      replay (cursor + length vs) rest
             (take cursor arr ++ map toPlainValue vs ++ drop cursor arr)
  end.

(** *** Subscriber sets and notifications *)

(** A set holds a value once. *)
Definition set_wf (s : SetData ListenerFn) : Prop := NoDup (set_values s).

Definition deletes {A} `{EqDecision A} (xs : list A) (s : SetData A)
  : SetData A :=
  foldl (λ s x, set_delete x s) s xs.

(** The listeners a body unsubscribes. *)
Definition unsubscribed_by (body : list Action) : list ListenerFn :=
  omap (λ a, match a with
             | CallUnsubscribe g => Some g
             | CallSubscribe _ => None
             end) body.

Definition only_unsubscribes (body : list Action) : Prop :=
  ∀ a, a ∈ body → ∃ g, a = CallUnsubscribe g.

(** The listeners a notification invokes, of those subscribed when it began
    ([fs], in order): one that an earlier invoked listener unsubscribed is
    passed over. *)
Fixpoint survivors (listeners : ListenerFn → list Action)
    (removed : list ListenerFn) (fs : list ListenerFn) : list ListenerFn :=
  match fs with
  | [] => []
  | f :: rest =>
      if bool_decide (f ∈ removed) then survivors listeners removed rest
      else f :: survivors listeners (removed ++ unsubscribed_by (listeners f)) rest
  end.

(** A listener that leaves the subscriptions of the others alone: its body
    does nothing, or unsubscribes the listener itself. *)
Definition keeps_to_itself (listeners : ListenerFn → list Action)
    (fn : ListenerFn) : Prop :=
  ∀ a, a ∈ listeners fn → a = CallUnsubscribe fn.

(** The resolved setting [update] lets through. *)
Definition accepted (h : heap) (v : plain) : Prop :=
  v = js_true ∨ typeof h v = TObject.

Definition cell_of (w : World) : Cell := {| node := source w; supply := ids w |}.

Definition put_binder (i : nat) (b : Binder) (w : World) : World :=
  set_binders (<[i := b]> (binders w)) w.

Definition invocation (i : nat) (s : Snapshot) (fn : ListenerFn) : Call :=
  {| by_binder := i; listener := fn; argument := s |}.

Definition add_calls (cs : list Call) (w : World) : World :=
  set_calls (calls w ++ cs) w.

(** *** The inputs of the examples *)

(** An empty keyed container of a document, nothing bound to it yet. *)
Definition empty_doc : World :=
  {| source := YMap 0 []; ids := 1;
     observers := []; binders := []; calls := [] |}.

(** [(state) => { state.count = n }], as the draft engine reports it. *)
Definition set_count (n : Z) : UpdateFn :=
  λ _ s,
    match s with
    | JObject entries =>
        (JObject (alist_set "count" (JPrim (PNum n)) entries),
         [{| path := [Key "count"];
             op := match alist_get "count" entries with
                   | Some _ => PATCH_REPLACE
                   | None => PATCH_ADD
                   end;
             value := VPrim (PNum n) |}])
    | _ => (s, [])
    end.

(** [{ patchesOptions: false }] *)
Definition false_options : Options :=
  {| applyPatch := None; patchesOptions := VPrim (PBool false) |}.

(** [{ patchesOptions: { pathAsArray: true } }], the object at reference 1. *)
Definition object_options : Options :=
  {| applyPatch := None; patchesOptions := VRef 1 |}.

Definition options_heap : heap :=
  {[ 1 := OObj [("pathAsArray", VPrim (PBool true))] ]}.

(** [const a = {}; const v = [a, a]]: [v] is reference 1, [a] reference 2. *)
Definition shared_heap : heap :=
  {[ 1 := OArr [VRef 2; VRef 2]; 2 := OObj [] ]}.

(** [const c = { a: 1 }; c.self = c] at reference 1,
    [const l = [1, 2]; l.push(l)] at reference 2, and
    [const o = {}; o.list = [o]] at reference 3. *)
Definition circular_heap : heap :=
  {[ 1 := OObj [("a", VPrim (PNum 1)); ("self", VRef 1)];
     2 := OArr [VPrim (PNum 1); VPrim (PNum 2); VRef 2];
     3 := OObj [("list", VRef 4)];
     4 := OArr [VRef 3] ]}.

(** [{ x: { y: "z" }, n: [1, null] }] at reference 1 and [[true, {}]] at
    reference 5. *)
Definition plain_heap : heap :=
  {[ 1 := OObj [("x", VRef 2); ("n", VRef 3)];
     2 := OObj [("y", VPrim (PStr "z"))];
     3 := OArr [VPrim (PNum 1); VPrim PNull];
     5 := OArr [VPrim (PBool true); VRef 6];
     6 := OObj [] ]}.

(** The document of the test 'should handle array element updated to null':
    [{ items: [{ id: 1 }, { id: 2 }, { id: 3 }] }]. *)
Definition items_doc : Cell :=
  {| node := YMap 0 [("items", YArray 1 [YMap 2 [("id", YPrim (PNum 1))];
                                         YMap 3 [("id", YPrim (PNum 2))];
                                         YMap 4 [("id", YPrim (PNum 3))]])];
     supply := 5 |}.

(** Listener 1 calls the function that unsubscribes listener 2; listener 3
    calls the function that unsubscribes itself; the others do nothing. *)
Definition bodies (fn : ListenerFn) : list Action :=
  match fn with
  | 1 => [CallUnsubscribe 2]
  | 3 => [CallUnsubscribe 3]
  | _ => []
  end.

(** [(state) => { state.a = 1; state.b = 2 }] on an empty object: two
    patches. *)
Definition set_a_b : UpdateFn :=
  λ _ _,
    (JObject [("a", JPrim (PNum 1)); ("b", JPrim (PNum 2))],
     [{| path := [Key "a"]; op := PATCH_ADD; value := VPrim (PNum 1) |};
      {| path := [Key "b"]; op := PATCH_ADD; value := VPrim (PNum 2) |}]).

(** A binder on an empty keyed container of a document, with the listeners
    given subscribed in that order. *)
Definition binder_with (fs : list ListenerFn) (o : option Options) : Binder :=
  {| snapshot := JObject []; subscription := Some <$> fs; options := o |}.

Definition doc_with (fs : list ListenerFn) (o : option Options) : World :=
  {| source := YMap 0 []; ids := 1;
     observers := [0]; binders := [binder_with fs o]; calls := [] |}.

(** An engine that reports no events: used where no observer listens. *)
Definition no_events : YValue → YValue → list YEvent := λ _ _, [].

(** How often a listener occurs in a run of invocations. *)
Definition times_invoked (fn : ListenerFn) (cs : list Call) : nat :=
  length (filter (λ c, listener c = fn) cs).

(** What [get()] returns for a binder. *)
Definition snapshot_of (i : nat) (w : World) : option Snapshot :=
  snapshot <$> binders w !! i.

(** *** The containers of a converted value *)

(** The identities of the containers of a value, the value itself first. *)
Fixpoint container_ids (v : YValue) : list yid :=
  match v with
  | YPrim _ => []
  | YMap id entries | YNewMap id entries =>
      id :: flat_map (λ kv, container_ids kv.2) entries
  | YArray id items | YNewArray id items =>
      id :: flat_map container_ids items
  end.

(** Identities that are pairwise distinct and were handed out between two
    states of the supply. *)
Definition fresh_between (a a' : yid) (ids : list yid) : Prop :=
  NoDup ids ∧ ∀ id, id ∈ ids → a ≤ id < a'.

Definition allocates (conv : plain → M ConvState YValue) : Prop :=
  ∀ v st st' y, conv v st = Done st' y →
    alloc st ≤ alloc st' ∧ fresh_between (alloc st) (alloc st') (container_ids y).

(** *** Heaps of JSON values *)

(** The keys of an object are distinct. *)
Definition heap_wf (h : heap) : Prop :=
  ∀ r entries, h !! r = Some (OObj entries) → NoDup entries.*1.

(** The value and all that the objects of the heap hold are primitives,
    arrays and plain objects: no reference leads out of the heap. *)
Definition plain_closed (h : heap) (v : plain) : Prop :=
  (∀ r, v = VRef r → is_Some (h !! r))
  ∧ ∀ r r', VRef r' ∈ children h r → is_Some (h !! r').

(** What a converter of children has shown when it returned: the value is a
    tree built from objects it had not seen. *)
Definition reads_back (h : heap) (conv : plain → M ConvState YValue) : Prop :=
  ∀ v st st' y, (∀ r, v = VRef r → is_Some (h !! r)) →
    conv v st = Done st' y →
    ∃ t R, unshared h v t R ∧ R ## seen st ∧ seen st' = seen st ∪ R.

(** *** Patches no branch applies *)

(** The last step of a path does not fit what its parent path leads to. *)
Definition unsupported (base : YValue) (s : step) : Prop :=
  match base, s with
  | YPrim _, _ => True
  | (YMap _ _ | YNewMap _ _), Idx _ => True
  | (YArray _ _ | YNewArray _ _), Key k => k ≠ "length"
  | _, _ => False
  end.

(** *** Events and snapshots *)

(** What a keyed event must tell of the change of a keyed container: the
    keys deleted are gone, the keys added or updated are there, and the
    keys it does not name hold what they held. *)
Definition describes (keys : list (string * KeyAction))
    (before after : list (string * YValue)) : Prop :=
  ∀ k, match alist_get k keys with
       | Some KDelete => alist_get k after = None
       | Some _ => is_Some (alist_get k after)
       | None => alist_get k after = alist_get k before
       end.

(** An object of a snapshot agrees with a keyed container, key by key. *)
Definition in_sync (entries : list (string * JSONValue))
    (source : list (string * YValue)) : Prop :=
  ∀ k, alist_get k entries = toJSON <$> alist_get k source.

(** Two readings of a keyed container that hold the same entries, in
    whatever order; other values are compared as they are. *)
Definition same_entries (a b : JSONValue) : Prop :=
  match a, b with
  | JObject x, JObject y => x ≡ₚ y
  | _, _ => a = b
  end.

Definition is_tree_container (v : JSONValue) : Prop :=
  match v with JPrim _ => False | _ => True end.

(** *** Binders that observe *)

(** The snapshot of a binder after its observer has replayed events. *)
Definition next_snapshot (events : list YEvent) (b : Binder) : Snapshot :=
  match applyYEvents (snapshot b) events with
  | inl next => next
  | inr _ => snapshot b
  end.

(** The invocations by which binder [j] tells its listeners of events. *)
Definition notified (events : list YEvent) (w : World) (j : nat) : list Call :=
  match binders w !! j with
  | Some b => invocation j (next_snapshot events b) <$> set_values (subscription b)
  | None => []
  end.

(** Binder [j] can take the events: they apply to its snapshot, and its
    listeners keep to themselves. *)
Definition ready (listeners : ListenerFn → list Action) (fuel : nat)
    (events : list YEvent) (w : World) (j : nat) : Prop :=
  ∃ b, binders w !! j = Some b
       ∧ (∃ next, applyYEvents (snapshot b) events = inl next)
       ∧ set_wf (subscription b)
       ∧ (∀ fn, fn ∈ set_values (subscription b) → keeps_to_itself listeners fn)
       ∧ length (subscription b) < fuel.

(** A listener that calls its own unsubscribe function and subscribes
    again. *)
Definition resubscribes (listeners : ListenerFn → list Action)
    (fn : ListenerFn) : Prop :=
  listeners fn = [CallUnsubscribe fn; CallSubscribe fn].

(** Options that leave the patch applier alone and pass the check of
    [update]. *)
Definition default_options (h : heap) (options : option Options) : Prop :=
  ∀ o, options = Some o →
    applyPatch o = None ∧ accepted h (nullish (patchesOptions o) js_true).

(** *** More inputs of examples *)

(** [(state) => { state.a = 1; state.self = c }] for the circular [c] at
    reference 1 of [circular_heap]. *)
Definition set_a_self : UpdateFn :=
  λ _ _,
    (JObject [("a", JPrim (PNum 1))],
     [{| path := [Key "a"]; op := PATCH_ADD; value := VPrim (PNum 1) |};
      {| path := [Key "self"]; op := PATCH_ADD; value := VRef 1 |}]).

(** An engine that reports the key [count] of the root as added. *)
Definition count_added : YValue → YValue → list YEvent :=
  λ _ after, [{| e_path := []; e_target := after;
                 e_kind := YMapEvent [("count", KAdd)] |}].

(** Listener 1 unsubscribes itself and subscribes again. *)
Definition resubscriber (fn : ListenerFn) : list Action :=
  match fn with
  | 1 => [CallUnsubscribe 1; CallSubscribe 1]
  | _ => []
  end.

(* ===================================================================== *)
(** ** Facts about the value converter *)
(* ===================================================================== *)

Section util_facts.
Variable h : heap.

Lemma isJSONPrimitive_ref r : isJSONPrimitive h (VRef r) = false.
Proof. unfold isJSONPrimitive. simpl. by destruct (h !! r). Qed.

Lemma toYDataType_prim fuel p st :
  toYDataType (S fuel) h (VPrim p) st = Done st (YPrim p).
Proof. by destruct p. Qed.

Lemma toYDataType_array fuel r items st :
  h !! r = Some (OArr items) →
  toYDataType (S fuel) h (VRef r) st =
    if bool_decide (r ∈ seen st) then Throw st CircularReference
    else applyJsonArray_with (toYDataType fuel h) (YNewArray (alloc st) []) items
           {| seen := {[r]} ∪ seen st; alloc := S (alloc st) |}.
Proof.
  intros Hr. simpl. rewrite isJSONPrimitive_ref. simpl. rewrite Hr.
  unfold and_then. simpl. by case_bool_decide.
Qed.

Lemma toYDataType_object fuel r entries st :
  h !! r = Some (OObj entries) →
  toYDataType (S fuel) h (VRef r) st =
    if bool_decide (r ∈ seen st) then Throw st CircularReference
    else applyJsonObject_with (toYDataType fuel h) (YNewMap (alloc st) []) entries
           {| seen := {[r]} ∪ seen st; alloc := S (alloc st) |}.
Proof.
  intros Hr. simpl. rewrite isJSONPrimitive_ref. unfold isJSONObject.
  simpl. rewrite Hr. unfold and_then. simpl. by case_bool_decide.
Qed.

Lemma toYDataType_other fuel r st :
  h !! r = None →
  toYDataType (S fuel) h (VRef r) st = Done st yundefined.
Proof.
  intros Hr. simpl. rewrite isJSONPrimitive_ref. unfold isJSONObject.
  simpl. by rewrite Hr.
Qed.


Lemma measure_mono st st' : seen st ⊆ seen st' → measure h st' ≤ measure h st.
Proof. intros Hs. unfold measure. apply subseteq_size. set_solver. Qed.

Lemma measure_enter r st o :
  h !! r = Some o → r ∉ seen st →
  measure h {| seen := {[r]} ∪ seen st; alloc := S (alloc st) |} < measure h st.
Proof.
  intros Hr Hn. unfold measure; simpl. apply subset_size.
  assert (r ∈ dom h) by (apply elem_of_dom; eauto).
  set_solver.
Qed.


Lemma traverse_ok conv bound items st :
  conv_ok h conv bound → measure h st < bound →
  match traverse conv items st with
  | Done st' _ => seen st ⊆ seen st' ∧ alloc st ≤ alloc st'
  | Throw st' e => e = CircularReference ∧ seen st ⊆ seen st'
  | OutOfFuel => False
  end.
Proof.
  intros Hc. revert st. induction items as [|v items IH]; intros st Hm; simpl.
  - done.
  - unfold and_then. specialize (Hc v st Hm).
    destruct (conv v st) as [st1 y| |]; [|done..].
    destruct Hc as [Hs Ha].
    specialize (IH st1). 
    destruct (traverse conv items st1) as [st2 ys| st2 e|]; simpl.
    + destruct IH as [? ?]. { pose proof (measure_mono _ _ Hs). lia. }
      split; [set_solver | lia].
    + destruct IH as [? ?]. { pose proof (measure_mono _ _ Hs). lia. }
      split; [done | set_solver].
    + apply IH. pose proof (measure_mono _ _ Hs). lia.
Qed.

(** The two loops on a container just made. *)
Lemma applyJsonObject_with_cons conv id acc k v entries st :
  applyJsonObject_with conv (YNewMap id acc) ((k, v) :: entries) st
  = match conv v st with
    | Done st1 y =>
        applyJsonObject_with conv (YNewMap id (alist_set k y acc)) entries st1
    | Throw st1 e => Throw st1 e
    | OutOfFuel => OutOfFuel
    end.
Proof. cbn [applyJsonObject_with]. unfold and_then. by destruct (conv v st). Qed.

Lemma applyJsonArray_with_new conv id acc items st :
  applyJsonArray_with conv (YNewArray id acc) items st
  = match traverse conv items st with
    | Done st1 ys => Done st1 (YNewArray id (acc ++ ys))
    | Throw st1 e => Throw st1 e
    | OutOfFuel => OutOfFuel
    end.
Proof. unfold applyJsonArray_with, and_then. by destruct (traverse conv items st). Qed.

Lemma applyJsonObject_with_ok conv bound entries id acc st :
  conv_ok h conv bound → measure h st < bound →
  match applyJsonObject_with conv (YNewMap id acc) entries st with
  | Done st' _ => seen st ⊆ seen st' ∧ alloc st ≤ alloc st'
  | Throw st' e => e = CircularReference ∧ seen st ⊆ seen st'
  | OutOfFuel => False
  end.
Proof.
  intros Hc. revert acc st.
  induction entries as [|[k v] entries IH]; intros acc st Hm.
  - done.
  - rewrite applyJsonObject_with_cons. specialize (Hc v st Hm).
    destruct (conv v st) as [st1 y| |]; [|done..].
    destruct Hc as [Hs Ha].
    specialize (IH (alist_set k y acc) st1).
    destruct (applyJsonObject_with conv _ entries st1) as [st2 ys| st2 e|]; simpl.
    + destruct IH as [? ?]. { pose proof (measure_mono _ _ Hs). lia. }
      split; [set_solver | lia].
    + destruct IH as [? ?]. { pose proof (measure_mono _ _ Hs). lia. }
      split; [done | set_solver].
    + apply IH. pose proof (measure_mono _ _ Hs). lia.
Qed.

Lemma toYDataType_ok fuel : conv_ok h (toYDataType fuel h) fuel.
Proof.
  induction fuel as [|fuel IH]; intros v st Hm; [lia|].
  destruct v as [p|r]; [by rewrite toYDataType_prim|].
  destruct (h !! r) as [[items|entries]|] eqn:Hr.
  - rewrite (toYDataType_array _ _ _ _ Hr).
    case_bool_decide as Hin; [done|].
    pose proof (measure_enter r st _ Hr Hin) as Hlt.
    rewrite applyJsonArray_with_new.
    match goal with |- context [traverse ?c ?i ?s] =>
      pose proof (traverse_ok c fuel i s IH) as Ht; destruct (traverse c i s) end; simpl in *.
    + destruct Ht as [? ?]; [lia|]. split; [set_solver|lia].
    + destruct Ht as [? ?]; [lia|]. split; [done|set_solver].
    + apply Ht. lia.
  - rewrite (toYDataType_object _ _ _ _ Hr).
    case_bool_decide as Hin; [done|].
    pose proof (measure_enter r st _ Hr Hin) as Hlt.
    match goal with |- context [applyJsonObject_with ?c (YNewMap ?d ?a) ?i ?s] =>
      pose proof (applyJsonObject_with_ok c fuel i d a s IH) as Ht;
      destruct (applyJsonObject_with c (YNewMap d a) i s) end; simpl in *.
    + destruct Ht as [? ?]; [lia|]. split; [set_solver|lia].
    + destruct Ht as [? ?]; [lia|]. split; [done|set_solver].
    + apply Ht. lia.
  - by rewrite toYDataType_other.
Qed.

Lemma alist_set_fresh {A} (k : string) (a : A) l :
  k ∉ l.*1 → alist_set k a l = l ++ [(k, a)].
Proof.
  induction l as [|[k' a'] l IH]; simpl; [done|].
  intros Hn. apply not_elem_of_cons in Hn as [Hne Hn].
  destruct (decide (k = k')); [done|]. by rewrite IH.
Qed.

Lemma toJSON_zip keys ys :
  map (λ kv : string * YValue, (kv.1, toJSON kv.2)) (zip keys ys)
  = zip keys (map toJSON ys).
Proof.
  revert ys. induction keys as [|k keys IH]; intros [|y ys]; simpl; f_equal; auto.
Qed.

Lemma content_zip keys ys :
  map (λ kv : string * YValue, (kv.1, content kv.2)) (zip keys ys)
  = zip keys (map content ys).
Proof.
  revert ys. induction keys as [|k keys IH]; intros [|y ys]; simpl; f_equal; auto.
Qed.

Lemma is_new_map id prelim :
  is_new (YNewMap id prelim)
  ↔ NoDup prelim.*1 ∧ Forall (λ kv, is_new kv.2) prelim.
Proof.
  cbn [is_new]. apply and_iff_compat_l.
  induction prelim as [|kv prelim IH]; [by split; [constructor|]|].
  rewrite Forall_cons. by rewrite <- IH.
Qed.

Lemma is_new_array id prelim :
  is_new (YNewArray id prelim) ↔ Forall is_new prelim.
Proof.
  cbn [is_new].
  induction prelim as [|c prelim IH]; [by split; [constructor|]|].
  rewrite Forall_cons. by rewrite <- IH.
Qed.

Lemma Forall_zip_snd (P : YValue → Prop) (keys : list string) ys :
  Forall P ys → Forall (λ kv : string * YValue, P kv.2) (zip keys ys).
Proof.
  intros Hys. revert keys. induction Hys as [|y ys Hy _ IH]; intros [|k keys];
    try constructor; [done|apply IH].
Qed.

Lemma traverse_unshared conv bound items ts R st :
  round_trips h conv bound →
  unshared_list h items ts R → R ## seen st → measure h st < bound →
  ∃ st' ys, traverse conv items st = Done st' ys
            ∧ map content ys = ts ∧ Forall is_new ys
            ∧ length ys = length items
            ∧ seen st' = seen st ∪ R.
Proof.
  intros Hc Hl. revert st.
  induction Hl as [|v vs t ts R1 R2 Hv Hl IH Hdisj]; intros st HR Hm; simpl.
  - exists st, []. split_and!; [done..|set_solver].
  - unfold and_then.
    destruct (Hc v t R1 st Hv) as (st1 & y & -> & Hy & Hnew & Hs1); [set_solver|done|].
    destruct (IH st1) as (st2 & ys & -> & Hys & Hnews & Hlen & Hs2).
    { rewrite Hs1. set_solver. }
    { assert (measure h st1 ≤ measure h st); [|lia].
      apply measure_mono. set_solver. }
    exists st2, (y :: ys). simpl.
    split_and!; [done|by f_equal|by constructor|by f_equal|].
    rewrite Hs2, Hs1. set_solver.
Qed.

Lemma applyJsonObject_with_unshared conv bound entries ts R id acc st :
  round_trips h conv bound →
  unshared_list h entries.*2 ts R → R ## seen st → measure h st < bound →
  NoDup entries.*1 → (∀ k, k ∈ entries.*1 → k ∉ acc.*1) →
  ∃ st' ys, applyJsonObject_with conv (YNewMap id acc) entries st
            = Done st' (YNewMap id (acc ++ zip entries.*1 ys))
            ∧ map content ys = ts ∧ Forall is_new ys
            ∧ length ys = length entries
            ∧ seen st' = seen st ∪ R.
Proof.
  intros Hc. revert ts R acc st.
  induction entries as [|[k v] entries IH]; intros ts R acc st Hl HR Hm Hnd Hacc;
    simpl in Hl; inversion Hl as [|? ? t ts' R1 R2 Hv Hl' Hdisj]; subst.
  - exists st, []. simpl. rewrite app_nil_r. split_and!; [done..|set_solver].
  - rewrite applyJsonObject_with_cons. rewrite fmap_cons in Hnd.
    apply NoDup_cons in Hnd as [Hk Hnd].
    destruct (Hc v t R1 st Hv) as (st1 & y & -> & Hy & Hnew & Hs1); [set_solver|done|].
    rewrite alist_set_fresh by (apply Hacc; left).
    destruct (IH ts' R2 (acc ++ [(k, y)]) st1 Hl') as (st2 & ys & -> & Hys & Hnews & Hlen & Hs2).
    { rewrite Hs1. set_solver. }
    { assert (measure h st1 ≤ measure h st); [|lia].
      apply measure_mono. set_solver. }
    { done. }
    { intros k' Hk'. rewrite fmap_app. simpl.
      rewrite elem_of_app, list_elem_of_singleton.
      intros [?| ->]; [|done]. eapply Hacc; [right|]; done. }
    exists st2, (y :: ys). rewrite fmap_cons. simpl. rewrite <- app_assoc. simpl.
    split_and!; [done|by f_equal|by constructor|by f_equal|].
    rewrite Hs2, Hs1. set_solver.
Qed.

Lemma toYDataType_unshared fuel : round_trips h (toYDataType fuel h) fuel.
Proof.
  induction fuel as [|fuel IH]; intros v t R st Hv HR Hm; [lia|].
  destruct Hv as [p | r items ts R Hr Hl Hn | r entries tes R Hr Hnd Hkeys Hl Hn].
  - rewrite toYDataType_prim. eexists _, _. split_and!; [done|done|done|set_solver].
  - rewrite (toYDataType_array _ _ _ _ Hr).
    assert (r ∉ seen st) as Hin by set_solver.
    rewrite bool_decide_eq_false_2 by done.
    rewrite applyJsonArray_with_new.
    edestruct (traverse_unshared (toYDataType fuel h) fuel items ts R)
      as (st' & ys & -> & Hys & Hnews & _ & Hs);
      [exact IH | exact Hl | | | ].
    { simpl. set_solver. }
    { pose proof (measure_enter r st _ Hr Hin). lia. }
    simpl. eexists _, _. split_and!; [done|by simpl; rewrite Hys| |].
    + by apply is_new_array.
    + rewrite Hs. simpl. set_solver.
  - rewrite (toYDataType_object _ _ _ _ Hr).
    assert (r ∉ seen st) as Hin by set_solver.
    rewrite bool_decide_eq_false_2 by done.
    edestruct (applyJsonObject_with_unshared (toYDataType fuel h) fuel entries tes.*2 R (alloc st) [])
      as (st' & ys & -> & Hys & Hnews & Hlen & Hs); [exact IH | exact Hl | | | exact Hnd | | ].
    { simpl. set_solver. }
    { pose proof (measure_enter r st _ Hr Hin). lia. }
    { intros k _. simpl. apply not_elem_of_nil. }
    simpl. eexists _, _. split_and!; [done| | |].
    + simpl. by rewrite content_zip, Hys, <- Hkeys, zip_fst_snd.
    + apply is_new_map. split; [|by apply Forall_zip_snd].
      rewrite fst_zip; [done|]. rewrite length_fmap. lia.
    + rewrite Hs. simpl. set_solver.
Qed.

(** A value that is a tree whose objects are met once each converts, to
    new containers that hold that tree. *)
Lemma convert_unshared v t R a :
  unshared h v t R →
  ∃ a' y, convert h v a = Done a' y ∧ content y = t ∧ is_new y.
Proof.
  intros Hv. unfold convert, zoom.
  destruct (toYDataType_unshared (enough_fuel h) v t R {| seen := ∅; alloc := a |} Hv)
    as (st' & y & -> & Hy & Hnew & _).
  { simpl. set_solver. }
  { unfold measure, enough_fuel. simpl.
    assert (size (dom h ∖ (∅ : gset ref)) ≤ size (dom h)) by (apply subseteq_size; set_solver).
    rewrite size_dom in *. lia. }
  by eexists _, _.
Qed.
End util_facts.

Section cycle_facts.
Variable h : heap.

Lemma traverse_visits conv items st st' ys :
  visits h conv → traverse conv items st = Done st' ys →
  seen st ⊆ seen st'
  ∧ ∀ c r, c ∈ items → reaches h c r → (r ∉ seen st) ∧ r ∈ seen st' ∧ (¬ on_cycle h r).
Proof.
  intros Hc. revert st ys. induction items as [|v items IH]; intros st ys; simpl.
  - intros [= <- <-]. split; [done|]. intros c r Hin. by apply elem_of_nil in Hin.
  - unfold and_then. destruct (conv v st) as [st1 y| |] eqn:Hv; [|done..].
    destruct (traverse conv items st1) as [st2 ys'| |] eqn:Ht; [|done..].
    simpl. intros [= <- <-].
    destruct (Hc _ _ _ _ Hv) as [Hs1 Hr1]. destruct (IH _ _ Ht) as [Hs2 Hr2].
    split; [set_solver|]. intros c r [->|Hin]%elem_of_cons Hreach.
    + destruct (Hr1 r Hreach) as (? & ? & ?). split_and!; [done|set_solver|done].
    + destruct (Hr2 c r Hin Hreach) as (? & ? & ?). split_and!; [set_solver|done|done].
Qed.

Lemma applyJsonObject_with_visits conv entries id acc st st' y :
  visits h conv →
  applyJsonObject_with conv (YNewMap id acc) entries st = Done st' y →
  seen st ⊆ seen st'
  ∧ ∀ c r, c ∈ entries.*2 → reaches h c r → (r ∉ seen st) ∧ r ∈ seen st' ∧ (¬ on_cycle h r).
Proof.
  intros Hc. revert acc st. induction entries as [|[k v] entries IH]; intros acc st.
  - simpl. intros [= <- <-]. split; [done|]. intros c r Hin. by apply elem_of_nil in Hin.
  - rewrite fmap_cons. rewrite applyJsonObject_with_cons.
    destruct (conv v st) as [st1 y1| |] eqn:Hv; [|done..].
    intros Ht.
    destruct (Hc _ _ _ _ Hv) as [Hs1 Hr1]. destruct (IH _ _ Ht) as [Hs2 Hr2].
    split; [set_solver|]. intros c r [->|Hin]%elem_of_cons Hreach.
    + destruct (Hr1 r Hreach) as (? & ? & ?). split_and!; [done|set_solver|done].
    + destruct (Hr2 c r Hin Hreach) as (? & ? & ?). split_and!; [set_solver|done|done].
Qed.

Lemma reaches_inv v r :
  reaches h v r →
  ∃ r0, v = VRef r0 ∧ ((r = r0 ∧ is_Some (h !! r0))
                       ∨ ∃ c, c ∈ children h r0 ∧ reaches h c r).
Proof. destruct 1; eauto 10. Qed.

Lemma toYDataType_visits fuel : visits h (toYDataType fuel h).
Proof.
  induction fuel as [|fuel IH]; intros v st st' y; [done|].
  destruct v as [p|r0].
  { rewrite toYDataType_prim. intros [= <- <-]. split; [done|].
    intros r Hr. apply reaches_inv in Hr as (? & ? & _). done. }
  assert (∀ st1, seen st1 = {[r0]} ∪ seen st → r0 ∉ seen st →
     (seen st1 ⊆ seen st'
      ∧ ∀ c r, c ∈ children h r0 → reaches h c r →
               (r ∉ seen st1) ∧ r ∈ seen st' ∧ (¬ on_cycle h r)) →
     is_Some (h !! r0) →
     seen st ⊆ seen st'
     ∧ ∀ r, reaches h (VRef r0) r → (r ∉ seen st) ∧ r ∈ seen st' ∧ (¬ on_cycle h r)) as Hstep.
  { intros st1 Hst1 Hr0 [Hs Hr] Hsome. split; [set_solver|].
    intros r Hreach. apply reaches_inv in Hreach as (? & [= <-] & [[-> _]|(c & Hc & Hreach)]).
    - split_and!; [done|set_solver|].
      intros (c & Hc & Hreach). destruct (Hr c r0 Hc Hreach) as (Hn & _). set_solver.
    - destruct (Hr c r Hc Hreach) as (? & ? & ?). split_and!; [set_solver|done|done]. }
  destruct (h !! r0) as [[items|entries]|] eqn:Hr0.
  - rewrite (toYDataType_array _ _ _ _ _ Hr0).
    case_bool_decide as Hin; [done|].
    rewrite applyJsonArray_with_new.
    destruct (traverse _ _ _) as [st1 ys| |] eqn:Ht; [|done..].
    simpl. intros [= <- <-].
    apply (traverse_visits _ _ _ _ _ IH) in Ht.
    eapply Hstep; [| |unfold children; rewrite Hr0; exact Ht|done]; done.
  - rewrite (toYDataType_object _ _ _ _ _ Hr0).
    case_bool_decide as Hin; [done|].
    intros Ht. apply (applyJsonObject_with_visits _ _ _ _ _ _ _ IH) in Ht.
    eapply Hstep; [| |unfold children; rewrite Hr0; exact Ht|done]; done.
  - rewrite (toYDataType_other _ _ _ _ Hr0). intros [= <- <-]. split; [done|].
    intros r Hreach. apply reaches_inv in Hreach as (? & [= <-] & [[-> [? ?]]|(c & Hc & _)]).
    + congruence.
    + unfold children in Hc. rewrite Hr0 in Hc. by apply elem_of_nil in Hc.
Qed.

(** A value from which an object that holds itself can be reached does not
    convert: the conversion throws [CircularReference]. *)
Lemma convert_cycle v a :
  has_cycle h v → ∃ a', convert h v a = Throw a' CircularReference.
Proof.
  intros (r & Hreach & Hcyc). unfold convert, zoom.
  pose proof (toYDataType_ok h (enough_fuel h) v {| seen := ∅; alloc := a |}) as Hok.
  pose proof (toYDataType_visits (enough_fuel h) v {| seen := ∅; alloc := a |}) as Hvis.
  destruct (toYDataType (enough_fuel h) h v _) as [st' y|st' e|].
  - destruct (Hvis _ _ eq_refl) as [_ Hr]. by destruct (Hr r Hreach) as (_ & _ & ?).
  - destruct Hok as [-> _]; [|eauto].
    unfold measure, enough_fuel. simpl.
    assert (size (dom h ∖ (∅ : gset ref)) ≤ size (dom h)) by (apply subseteq_size; set_solver).
    rewrite size_dom in *. lia.
  - destruct Hok.
    unfold measure, enough_fuel. simpl.
    assert (size (dom h ∖ (∅ : gset ref)) ≤ size (dom h)) by (apply subseteq_size; set_solver).
    rewrite size_dom in *. lia.
Qed.

End cycle_facts.

(** A call from outside returns or throws [CircularReference]. *)
Lemma convert_returns_or_throws h v a :
  ∃ a', (∃ y, convert h v a = Done a' y)
        ∨ convert h v a = Throw a' CircularReference.
Proof.
  unfold convert, zoom.
  pose proof (toYDataType_ok h (enough_fuel h) v {| seen := ∅; alloc := a |}) as Hok.
  assert (measure h {| seen := ∅; alloc := a |} < enough_fuel h) as Hm.
  { unfold measure, enough_fuel. simpl.
    assert (size (dom h ∖ (∅ : gset ref)) ≤ size (dom h)) by (apply subseteq_size; set_solver).
    rewrite size_dom in *. lia. }
  specialize (Hok Hm).
  destruct (toYDataType (enough_fuel h) h v _) as [st' y|st' e|]; [| |done].
  - exists (alloc st'). left. by exists y.
  - destruct Hok as [-> _]. exists (alloc st'). by right.
Qed.

(* ===================================================================== *)
(** ** Facts about the event translator *)
(* ===================================================================== *)

Lemma replay_eq ops : ∀ cursor arr,
  (foldl apply_delta (cursor, arr) (delta_of <$> ops)).2 = replay cursor ops arr.
Proof.
  induction ops as [|[n|n|vs] ops IH]; intros cursor arr; [done|..];
    rewrite fmap_cons; cbn [foldl replay].
  - destruct n as [|n]; cbn; rewrite IH; [by rewrite Nat.add_0_r|done].
  - destruct n as [|n]; cbn; rewrite IH; [|done].
    by rewrite Nat.add_0_r, take_drop.
  - cbn. rewrite IH. unfold splice. by rewrite Nat.add_0_r.
Qed.

(* ===================================================================== *)
(** ** Facts about the patch applier *)
(* ===================================================================== *)

Section engine_facts.

Lemma YValue_nested_ind (P : YValue → Prop) :
  (∀ p, P (YPrim p)) →
  (∀ id entries, Forall (λ kv, P kv.2) entries → P (YMap id entries)) →
  (∀ id items, Forall P items → P (YArray id items)) →
  (∀ id prelim, Forall (λ kv, P kv.2) prelim → P (YNewMap id prelim)) →
  (∀ id prelim, Forall P prelim → P (YNewArray id prelim)) →
  ∀ v, P v.
Proof.
  intros Hprim Hmap Harr Hnmap Hnarr.
  fix IH 1. intros [p|id entries|id items|id prelim|id prelim].
  - apply Hprim.
  - apply Hmap. induction entries as [|[k c] entries IHe]; constructor; [apply IH|done].
  - apply Harr. induction items as [|c items IHi]; constructor; [apply IH|done].
  - apply Hnmap. induction prelim as [|[k c] prelim IHe]; constructor; [apply IH|done].
  - apply Hnarr. induction prelim as [|c prelim IHi]; constructor; [apply IH|done].
Qed.

Lemma integrate_map id prelim :
  integrate (YNewMap id prelim)
  = (YMap id (set_all prelim []).1, (set_all prelim []).2).
Proof.
  change (integrate (YNewMap id prelim))
    with (let '(entries, ok) := set_all prelim [] in (YMap id entries, ok)).
  by destruct (set_all prelim []).
Qed.

Lemma integrate_array id prelim :
  integrate (YNewArray id prelim)
  = (YArray id (insert_content prelim).1, (insert_content prelim).2).
Proof.
  change (integrate (YNewArray id prelim))
    with (let '(items, ok) := insert_all prelim [] [] in (YArray id items, ok)).
  unfold insert_content. by destruct (insert_all prelim [] []).
Qed.

Lemma set_all_ok es es' acc :
  NoDup es.*1 → (∀ k, k ∈ es.*1 → k ∉ acc.*1) →
  Forall2 (λ kv kv' : string * YValue,
             kv'.1 = kv.1 ∧ integrate kv.2 = (kv'.2, true)) es es' →
  set_all es acc = (acc ++ es', true).
Proof.
  intros Hnd Hacc Hes. revert acc Hnd Hacc.
  induction Hes as [|[k c] [k' c'] es es' [Hk Hc] _ IH]; intros acc Hnd Hacc.
  - simpl. by rewrite app_nil_r.
  - simpl in Hk, Hc. subst k'. rewrite fmap_cons in Hnd.
    apply NoDup_cons in Hnd as [Hfresh Hnd].
    cbn [set_all]. rewrite Hc.
    rewrite alist_set_fresh by (apply Hacc; left).
    rewrite IH; [by rewrite <- app_assoc|done|].
    intros k' Hk'. rewrite fmap_app. simpl.
    rewrite elem_of_app, list_elem_of_singleton.
    intros [?| ->]; [|done]. eapply Hacc; [right|]; done.
Qed.

Lemma insert_all_ok cs cs' stored buffer :
  Forall (λ c, c ≠ yundefined) cs → stored_as cs cs' →
  insert_all cs stored buffer = (stored ++ buffer ++ cs', true).
Proof.
  intros Hdef Hcs. revert stored buffer Hdef.
  induction Hcs as [|c c' cs cs' Hc _ IH]; intros stored buffer Hdef.
  - simpl. by rewrite app_nil_r.
  - apply Forall_cons in Hdef as [Hc0 Hdef]. cbn [insert_all].
    destruct c as [p|id entries|id items|id prelim|id prelim];
      [destruct p; [done|..]; injection Hc as <-;
       rewrite IH by done; by rewrite <- app_assoc|..];
      rewrite Hc, IH by done; by rewrite app_nil_l, <- !app_assoc.
Qed.

Lemma insert_content_ok cs cs' :
  Forall (λ c, c ≠ yundefined) cs → stored_as cs cs' →
  insert_content cs = (cs', true).
Proof. intros. unfold insert_content. by rewrite (insert_all_ok cs cs'). Qed.

(** One value handed to [insert]. *)
Lemma insert_content_one y :
  y ≠ yundefined → insert_content [y] = ([(integrate y).1], (integrate y).2).
Proof.
  intros Hy. unfold insert_content. cbn [insert_all].
  destruct y as [p|id entries|id items|id prelim|id prelim];
    [by destruct p|..]; by destruct (integrate _) as [y' [|]].
Qed.

Lemma insert_content_undefined : insert_content [yundefined] = ([], false).
Proof. reflexivity. Qed.

Lemma insert_content_nulls n :
  insert_content (replicate n (YPrim PNull)) = (replicate n (YPrim PNull), true).
Proof.
  apply insert_content_ok.
  - apply Forall_replicate. done.
  - induction n; constructor; done.
Qed.

Lemma storable_array ts :
  storable (JArray ts) = true
  ↔ Forall (λ t, t ≠ undefined ∧ storable t = true) ts.
Proof.
  cbn [storable]. induction ts as [|t ts IH]; [by split; [constructor|]|].
  cbn [forallb]. rewrite andb_true_iff, Forall_cons, IH.
  apply and_iff_compat_r. unfold undefined.
  destruct t as [[]| |]; simpl; naive_solver.
Qed.

Lemma storable_object tes :
  storable (JObject tes) = true ↔ Forall (λ kv, storable kv.2 = true) tes.
Proof.
  cbn [storable]. induction tes as [|te tes IH]; [by split; [constructor|]|].
  cbn [forallb]. by rewrite andb_true_iff, Forall_cons, IH.
Qed.

Lemma content_undefined y : content y = undefined → y = yundefined.
Proof. destruct y as [p| | | |]; simpl; [|done..]. by intros [= ->]. Qed.

(** What [toYDataType] made of a tree the engine takes in becomes part of a
    document, and reads there as the tree. *)
Lemma integrate_new y :
  is_new y → storable (content y) = true →
  ∃ y', integrate y = (y', true) ∧ toJSON y' = content y.
Proof.
  induction y as [p|id entries _|id items _|id prelim IH|id prelim IH]
    using YValue_nested_ind; intros Hnew Hst; [by eexists|done|done|..].
  - apply is_new_map in Hnew as [Hnd Hnew]. cbn [content] in Hst.
    apply storable_object in Hst. rewrite Forall_fmap in Hst.
    assert (∃ es', Forall2 (λ kv kv' : string * YValue,
                     kv'.1 = kv.1 ∧ integrate kv.2 = (kv'.2, true)) prelim es'
                   ∧ map (λ kv, (kv.1, toJSON kv.2)) es'
                     = map (λ kv, (kv.1, content kv.2)) prelim) as (es' & Hes & Hread).
    { clear Hnd. induction prelim as [|[k c] prelim IHp]; [by exists []|].
      apply Forall_cons in IH as [IHc IH]. apply Forall_cons in Hnew as [Hc Hnew].
      apply Forall_cons in Hst as [Hsc Hst].
      destruct (IHc Hc Hsc) as (c' & Hint & Hread).
      destruct (IHp IH Hnew Hst) as (es' & Hes & Hreads).
      exists ((k, c') :: es'). split; [by constructor|]. simpl in *. by rewrite Hread, Hreads. }
    exists (YMap id es'). rewrite integrate_map.
    rewrite (set_all_ok prelim es' []); [|done| |done].
    + simpl. by rewrite Hread.
    + intros k _. apply not_elem_of_nil.
  - apply is_new_array in Hnew. cbn [content] in Hst.
    apply storable_array in Hst. rewrite Forall_fmap in Hst.
    assert (∃ cs', stored_as prelim cs'
                   ∧ map toJSON cs' = map content prelim
                   ∧ Forall (λ c, c ≠ yundefined) prelim) as (cs' & Hcs & Hread & Hdef).
    { induction prelim as [|c prelim IHp];
        [exists []; split_and!; by constructor|].
      apply Forall_cons in IH as [IHc IH]. apply Forall_cons in Hnew as [Hc Hnew].
      apply Forall_cons in Hst as [[Hdc Hsc] Hst]. simpl in Hdc, Hsc.
      destruct (IHc Hc Hsc) as (c' & Hint & Hread).
      destruct (IHp IH Hnew Hst) as (cs' & Hcs & Hreads & Hdef).
      exists (c' :: cs'). split_and!; [by constructor|simpl; by rewrite Hread, Hreads|].
      constructor; [|done]. intros ->. by destruct Hdc. }
    exists (YArray id cs'). rewrite integrate_array.
    rewrite (insert_content_ok prelim cs') by done. simpl. by rewrite Hread.
Qed.

Lemma stored_as_new ys :
  Forall is_new ys → Forall (λ y, storable (content y) = true) ys →
  ∃ ys', stored_as ys ys' ∧ map toJSON ys' = map content ys.
Proof.
  induction ys as [|y ys IH]; intros Hnew Hst;
    [exists []; split; by constructor|].
  apply Forall_cons in Hnew as [Hy Hnew]. apply Forall_cons in Hst as [Hsy Hst].
  destruct (integrate_new y Hy Hsy) as (y' & Hint & Hread).
  destruct (IH Hnew Hst) as (ys' & Hys & Hreads).
  exists (y' :: ys'). split; [by constructor|]. simpl. by rewrite Hread, Hreads.
Qed.

Lemma stored_as_length ys ys' : stored_as ys ys' → length ys = length ys'.
Proof. apply Forall2_length. Qed.

(** A container that is in no document reads as empty. *)
Lemma toPlainValue_new y :
  is_new y →
  toPlainValue y = match content y with
                   | JPrim p => JPrim p
                   | JArray _ => JArray []
                   | JObject _ => JObject []
                   end.
Proof. by destruct y. Qed.

End engine_facts.

Section patch_facts.
Variable h : heap.

Lemma conv_eq v c :
  conv h v c =
    match convert h v (supply c) with
    | Done a y => Done {| node := node c; supply := a |} y
    | Throw a e => Throw {| node := node c; supply := a |} e
    | OutOfFuel => OutOfFuel
    end.
Proof. reflexivity. Qed.

Lemma alist_get_set_same {A} (k : string) (a : A) l :
  alist_get k l = Some a → alist_set k a l = l.
Proof.
  induction l as [|[k' a'] l IH]; simpl; [done|].
  destruct (decide (k = k')) as [->|]; [by intros [= ->]|].
  intros Hl. by rewrite IH.
Qed.

Lemma alter_same {A} (f : A → A) i (l : list A) :
  (∀ x, l !! i = Some x → f x = x) → alter f i l = l.
Proof.
  intros Hf. apply list_eq. intros j.
  destruct (decide (i = j)) as [<-|].
  - rewrite list_lookup_alter_eq. destruct (l !! i) eqn:E; simpl; [|done].
    by rewrite Hf.
  - by rewrite list_lookup_alter_ne.
Qed.

Lemma navigate_prim steps p base :
  navigate steps (YPrim p) = Some base → base = YPrim p ∧ steps = [].
Proof. destruct steps; simpl; [by intros [= <-]|done]. Qed.

(** A step that leads to a container: a key of a keyed container of the
    document, or an index of a sequence of the document. *)
Lemma yget_container s root child :
  yget s root = Some child → is_container child →
  (∃ id entries k, root = YMap id entries ∧ s = Key k
                   ∧ alist_get k entries = Some child)
  ∨ (∃ id items i, root = YArray id items
                   ∧ step_index (length items) s = Some i
                   ∧ items !! i = Some child).
Proof.
  intros Hget Hc.
  destruct root as [p|id entries|id items|id prelim|id prelim], s as [k|i];
    simpl in Hget; try done;
    try (injection Hget as <-; by destruct Hc).
  - left. unfold ymap_get in Hget.
    destruct (alist_get k entries) as [c|] eqn:Hk; simpl in Hget;
      injection Hget as <-; [|by destruct Hc]. by exists id, entries, k.
  - right. exists id, items.
    destruct (List.find _ _) as [i|] eqn:Hi; simpl in Hget.
    + destruct (items !! i) as [c|] eqn:Hc'; simpl in Hget;
        injection Hget as <-; [|by destruct Hc]. exists i. simpl. by rewrite Hi.
    + injection Hget as <-. by destruct Hc.
  - right. unfold yarray_get in Hget.
    destruct (items !! i) as [c|] eqn:Hc'; simpl in Hget;
      injection Hget as <-; [|by destruct Hc]. by exists id, items, i.
Qed.

Lemma navigate_container s rest root child base :
  yget s root = Some child → navigate rest child = Some base →
  is_container base → is_container child.
Proof.
  intros _ Hnav Hc. destruct child as [p| | | |]; try done.
  by apply navigate_prim in Hnav as [-> _].
Qed.

(** Writing back the container that was reached changes nothing. *)
Lemma yreplace_same steps root base :
  navigate steps root = Some base → is_container base →
  yreplace steps base root = root.
Proof.
  revert root. induction steps as [|s rest IH]; intros root; simpl.
  - by intros [= ->].
  - destruct (yget s root) as [child|] eqn:Hget; simpl; [|done].
    intros Hnav Hc.
    pose proof (navigate_container _ _ _ _ _ Hget Hnav Hc) as Hchild.
    destruct (yget_container _ _ _ Hget Hchild)
      as [(id & entries & k & -> & -> & Hk)|(id & items & i & -> & Hs & Hi)];
      cbn [yreplace_child].
    + rewrite Hk, IH by done. by rewrite alist_get_set_same.
    + rewrite Hs. f_equal. apply alter_same. intros x Hx.
      rewrite Hi in Hx. injection Hx as <-. by apply IH.
Qed.

Lemma walk_eq steps c base :
  navigate steps (node c) = Some base → walk steps c = Done c base.
Proof. unfold walk. by intros ->. Qed.

Lemma at_container_eq {A} steps (m : M Cell A) c base :
  navigate steps (node c) = Some base →
  at_container steps m c =
    match m {| node := base; supply := supply c |} with
    | Done c' a =>
        Done {| node := yreplace steps (node c') (node c); supply := supply c' |} a
    | Throw c' e =>
        Throw {| node := yreplace steps (node c') (node c); supply := supply c' |} e
    | OutOfFuel => OutOfFuel
    end.
Proof. unfold at_container. by intros ->. Qed.

Lemma last_removelast parent (s : step) :
  last (parent ++ [s]) = Some s ∧ removelast (parent ++ [s]) = parent.
Proof. split; [apply last_snoc | apply removelast_last]. Qed.

(** [set] on a keyed container of a document. *)
Lemma Y_set_eq k y id entries a :
  Y_set k y {| node := YMap id entries; supply := a |}
  = finished {| node := YMap id (alist_set k (integrate y).1 entries); supply := a |}
             (if (integrate y).2 then None else Some TypeError).
Proof.
  unfold Y_set, write_node. cbn [node supply yset].
  by destruct (integrate y) as [y' [|]].
Qed.

(** [insert] into a sequence of a document. *)
Lemma Y_insert_eq i content id items a :
  Y_insert i content {| node := YArray id items; supply := a |}
  = finished {| node := YArray id (yarray_insert i content items).1; supply := a |}
             (yarray_insert i content items).2.
Proof. reflexivity. Qed.

Lemma Y_delete_eq i len id items a :
  Y_delete i len {| node := YArray id items; supply := a |}
  = finished {| node := YArray id (yarray_delete i len items).1; supply := a |}
             (yarray_delete i len items).2.
Proof. reflexivity. Qed.

Lemma yarray_delete_one i items :
  i < length items →
  yarray_delete i 1 items = (take i items ++ drop (S i) items, None).
Proof.
  intros Hi. unfold yarray_delete.
  rewrite decide_False by lia. rewrite decide_True by lia.
  by replace (i + 1) with (S i) by lia.
Qed.

Lemma yarray_delete_all items : yarray_delete 0 (length items) items = ([], None).
Proof.
  unfold yarray_delete. destruct (decide (length items = 0)) as [Hz|Hz].
  - apply nil_length_inv in Hz. by subst.
  - rewrite decide_True by lia. simpl. by rewrite drop_all.
Qed.

(** A keyed set: the value is converted first, then stored. *)
Lemma defaultApplyPatch_set parent k op value c id entries :
  op ≠ PATCH_REMOVE →
  navigate parent (node c) = Some (YMap id entries) →
  defaultApplyPatch h {| path := parent ++ [Key k]; op := op; value := value |} c =
    match convert h value (supply c) with
    | Done a y =>
        finished {| node := yreplace parent
                              (YMap id (alist_set k (integrate y).1 entries))
                              (node c);
                    supply := a |}
                 (if (integrate y).2 then None else Some TypeError)
    | Throw a e => Throw {| node := node c; supply := a |} e
    | OutOfFuel => OutOfFuel
    end.
Proof.
  intros Hop Hnav. unfold defaultApplyPatch.
  destruct (last_removelast parent (Key k)) as [-> ->].
  unfold and_then at 1. rewrite (walk_eq _ _ _ Hnav).
  cbn match. rewrite (at_container_eq _ _ _ _ Hnav).
  destruct op; try done; unfold and_then; rewrite conv_eq; cbn [node supply];
    (destruct (convert h value (supply c)) as [a y|a e|]; cbn [node supply];
     [|by rewrite (yreplace_same _ _ _ Hnav)|done]);
    rewrite Y_set_eq; by destruct (integrate y).2.
Qed.

(** An insertion into a sequence: the value is converted first. *)
Lemma defaultApplyPatch_insert parent i value c id items :
  navigate parent (node c) = Some (YArray id items) →
  defaultApplyPatch h {| path := parent ++ [Idx i]; op := PATCH_ADD; value := value |} c =
    match convert h value (supply c) with
    | Done a y =>
        finished {| node := yreplace parent
                              (YArray id (yarray_insert i [y] items).1) (node c);
                    supply := a |}
                 (yarray_insert i [y] items).2
    | Throw a e => Throw {| node := node c; supply := a |} e
    | OutOfFuel => OutOfFuel
    end.
Proof.
  intros Hnav. unfold defaultApplyPatch.
  destruct (last_removelast parent (Idx i)) as [-> ->].
  unfold and_then at 1. rewrite (walk_eq _ _ _ Hnav).
  cbn match. rewrite (at_container_eq _ _ _ _ Hnav).
  unfold and_then; rewrite conv_eq; cbn [node supply].
  destruct (convert h value (supply c)) as [a y|a e|]; cbn [node supply];
    [|by rewrite (yreplace_same _ _ _ Hnav)|done].
  rewrite Y_insert_eq. by destruct (yarray_insert i [y] items).2.
Qed.

Lemma traverse_conv vs c :
  traverse (conv h) vs c =
    match traverse (convert h) vs (supply c) with
    | Done a ys => Done {| node := node c; supply := a |} ys
    | Throw a e => Throw {| node := node c; supply := a |} e
    | OutOfFuel => OutOfFuel
    end.
Proof.
  revert c. induction vs as [|v vs IH]; intros c; simpl; [by destruct c|].
  unfold and_then. rewrite conv_eq.
  destruct (convert h v (supply c)) as [a y|a e|]; [|done..].
  rewrite IH. simpl. by destruct (traverse (convert h) vs a).
Qed.

Lemma for_each_app {S A} (f : A → M S unit) xs1 xs2 s :
  for_each f (xs1 ++ xs2) s
  = match for_each f xs1 s with
    | Done s1 _ => for_each f xs2 s1
    | Throw s1 e => Throw s1 e
    | OutOfFuel => OutOfFuel
    end.
Proof.
  revert s. induction xs1 as [|x xs1 IH]; intros s; simpl; [done|].
  unfold and_then. destruct (f x s) as [s1 []| |]; [|done..]. apply IH.
Qed.

(** [for (k in value) target.set(k, toYDataType(value[k]))] on distinct keys
    that the container does not hold yet, with values the engine takes
    in. *)
Lemma populate_entries entries acc id a a' ys ys' :
  NoDup entries.*1 → (∀ k, k ∈ entries.*1 → k ∉ acc.*1) →
  traverse (convert h) entries.*2 a = Done a' ys →
  stored_as ys ys' →
  for_each (set_converted h) entries {| node := YMap id acc; supply := a |}
  = Done {| node := YMap id (acc ++ zip entries.*1 ys'); supply := a' |} tt.
Proof.
  revert acc a ys ys'.
  induction entries as [|[k v] entries IH]; intros acc a ys ys' Hnd Hacc.
  - simpl. intros [= <- <-] Hst. apply Forall2_nil_inv_l in Hst as ->.
    by rewrite app_nil_r.
  - rewrite !fmap_cons in *. cbn [for_each traverse fst snd].
    apply NoDup_cons in Hnd as [Hk Hnd]. unfold and_then, set_converted at 1.
    unfold and_then. cbn [fst snd]. rewrite conv_eq. cbn [supply node].
    destruct (convert h v a) as [a1 y| |]; [|done..].
    destruct (traverse (convert h) entries.*2 a1) as [a2 ys1| |] eqn:Ht; [|done..].
    intros [= <- <-] Hst.
    apply Forall2_cons_inv_l in Hst as (y' & ys1' & Hy & Hst & ->).
    cbn [zip zip_with]. rewrite Y_set_eq, Hy. cbn [fst snd finished].
    rewrite alist_set_fresh by (apply Hacc; left).
    rewrite (IH (acc ++ [(k, y')]) a1 ys1 ys1'); [|done| |done|done].
    + by rewrite <- app_assoc.
    + intros k' Hk'. rewrite fmap_app. simpl.
      rewrite elem_of_app, list_elem_of_singleton.
      intros [?| ->]; [|done]. eapply Hacc; [right|]; done.
Qed.

(** The same loop, when the conversion of an entry throws: the entries
    before it have been set. *)
Lemma populate_entries_throws before k v after acc id a a1 ys ys' a' e :
  NoDup (before ++ (k, v) :: after).*1 →
  (∀ k, k ∈ before.*1 → k ∉ acc.*1) →
  traverse (convert h) before.*2 a = Done a1 ys →
  stored_as ys ys' →
  convert h v a1 = Throw a' e →
  for_each (set_converted h) (before ++ (k, v) :: after)
           {| node := YMap id acc; supply := a |}
  = Throw {| node := YMap id (acc ++ zip before.*1 ys'); supply := a' |} e.
Proof.
  intros Hnd Hacc Htr Hst Hv. rewrite for_each_app.
  rewrite fmap_app in Hnd. apply NoDup_app in Hnd as (Hnd & _ & _).
  rewrite (populate_entries before acc id a a1 ys ys') by done.
  cbn [for_each]. unfold and_then, set_converted at 1. unfold and_then.
  cbn [fst snd]. rewrite conv_eq. cbn [node supply]. by rewrite Hv.
Qed.

Lemma traverse_convert_trees vs ts a :
  trees h vs ts →
  ∃ a' ys, traverse (convert h) vs a = Done a' ys
           ∧ map content ys = ts ∧ Forall is_new ys.
Proof.
  intros Ht. revert a. induction Ht as [|v t vs ts [R Hv] _ IH]; intros a; simpl.
  - by exists a, [].
  - unfold and_then.
    destruct (convert_unshared h v t R a Hv) as (a1 & y & -> & Hy & Hnew).
    destruct (IH a1) as (a2 & ys & -> & Hys & Hnews).
    exists a2, (y :: ys). simpl. rewrite Hy, Hys. by split_and!; [..|constructor].
Qed.

(** Separate conversions of trees the engine takes in: what is stored
    reads as the trees. *)
Lemma traverse_convert_stored vs ts a :
  trees h vs ts → Forall (λ t, storable t = true) ts →
  ∃ a' ys ys', traverse (convert h) vs a = Done a' ys
               ∧ stored_as ys ys' ∧ map toJSON ys' = ts
               ∧ map content ys = ts.
Proof.
  intros Ht Hst.
  destruct (traverse_convert_trees vs ts a Ht) as (a' & ys & Htr & Hys & Hnew).
  destruct (stored_as_new ys Hnew) as (ys' & Hstored & Hread).
  { rewrite <- Hys in Hst. by rewrite Forall_fmap in Hst. }
  exists a', ys, ys'. split_and!; [done..| |done]. by rewrite Hread.
Qed.

(** Root replace of a keyed container of a document, by an object whose
    entries are trees the engine takes in. *)
Lemma root_replace_map c id old r entries ts :
  node c = YMap id old →
  h !! r = Some (OObj entries) → NoDup entries.*1 → trees h entries.*2 ts →
  Forall (λ t, storable t = true) ts →
  ∃ c' ys',
    defaultApplyPatch h {| path := []; op := PATCH_REPLACE; value := VRef r |} c
    = Done c' tt
    ∧ node c' = YMap id (zip entries.*1 ys') ∧ map toJSON ys' = ts.
Proof.
  intros Hc Hr Hnd Ht Hst. destruct c as [n a]. simpl in Hc. subst n.
  destruct (traverse_convert_stored _ _ a Ht Hst) as (a' & ys & ys' & Htr & Hys & Hread & _).
  exists {| node := YMap id (zip entries.*1 ys'); supply := a' |}, ys'.
  split; [|done].
  unfold defaultApplyPatch. simpl. unfold and_then. simpl.
  unfold isJSONObject. simpl. rewrite Hr. simpl.
  apply (populate_entries entries [] id a a' ys ys'); [done| |done..].
  intros k _. apply not_elem_of_nil.
Qed.

(** Root replace of a sequence of a document, by an array of trees the
    engine takes in, none of them [undefined]. *)
Lemma root_replace_array c id old r items ts :
  node c = YArray id old →
  h !! r = Some (OArr items) → trees h items ts →
  storable (JArray ts) = true →
  ∃ c' ys',
    defaultApplyPatch h {| path := []; op := PATCH_REPLACE; value := VRef r |} c
    = Done c' tt
    ∧ node c' = YArray id ys' ∧ map toJSON ys' = ts.
Proof.
  intros Hc Hr Ht Hst. destruct c as [n a]. simpl in Hc. subst n.
  apply storable_array in Hst.
  destruct (traverse_convert_stored _ _ a Ht) as (a' & ys & ys' & Htr & Hys & Hread & Hcont).
  { eapply Forall_impl; [exact Hst|]. by intros t [_ ?]. }
  exists {| node := YArray id ys'; supply := a' |}, ys'.
  split; [|done].
  unfold defaultApplyPatch. simpl. unfold and_then. simpl.
  unfold isJSONObject. simpl. rewrite Hr. simpl.
  rewrite Y_delete_eq, yarray_delete_all. cbn [fst snd finished].
  rewrite traverse_conv. cbn [node supply]. rewrite Htr.
  unfold Y_push, write_node. cbn [node supply ypush].
  rewrite (insert_content_ok ys ys'); [done| |done].
  rewrite <- Hcont in Hst. rewrite Forall_fmap in Hst.
  eapply Forall_impl; [exact Hst|]. intros y [Hy _] ->. by apply Hy.
Qed.

(** The same loop on a keyed container that is in no document: the
    converted values are kept aside as they are. *)
Lemma populate_prelim entries acc id a a' ys :
  NoDup entries.*1 → (∀ k, k ∈ entries.*1 → k ∉ acc.*1) →
  traverse (convert h) entries.*2 a = Done a' ys →
  for_each (set_converted h) entries {| node := YNewMap id acc; supply := a |}
  = Done {| node := YNewMap id (acc ++ zip entries.*1 ys); supply := a' |} tt.
Proof.
  revert acc a ys.
  induction entries as [|[k v] entries IH]; intros acc a ys Hnd Hacc.
  - simpl. intros [= <- <-]. by rewrite app_nil_r.
  - rewrite !fmap_cons in *. cbn [for_each traverse fst snd].
    apply NoDup_cons in Hnd as [Hk Hnd]. unfold and_then, set_converted at 1.
    unfold and_then. cbn [fst snd]. rewrite conv_eq. cbn [supply node].
    destruct (convert h v a) as [a1 y| |]; [|done..].
    destruct (traverse (convert h) entries.*2 a1) as [a2 ys1| |] eqn:Ht; [|done..].
    intros [= <- <-].
    cbn [zip zip_with]. unfold Y_set, write_node. cbn [node supply yset fst snd finished].
    rewrite alist_set_fresh by (apply Hacc; left).
    rewrite (IH (acc ++ [(k, y)]) a1 ys1); [|done| |done].
    + by rewrite <- app_assoc.
    + intros k' Hk'. rewrite fmap_app. simpl.
      rewrite elem_of_app, list_elem_of_singleton.
      intros [?| ->]; [|done]. eapply Hacc; [right|]; done.
Qed.

Lemma root_replace_new_map c id old r entries ts :
  node c = YNewMap id old →
  h !! r = Some (OObj entries) → NoDup entries.*1 → trees h entries.*2 ts →
  ∃ c' ys,
    defaultApplyPatch h {| path := []; op := PATCH_REPLACE; value := VRef r |} c
    = Done c' tt
    ∧ node c' = YNewMap id (zip entries.*1 ys) ∧ map content ys = ts.
Proof.
  intros Hc Hr Hnd Ht. destruct c as [n a]. simpl in Hc. subst n.
  destruct (traverse_convert_trees _ _ a Ht) as (a' & ys & Htr & Hys & _).
  exists {| node := YNewMap id (zip entries.*1 ys); supply := a' |}, ys.
  split; [|done].
  unfold defaultApplyPatch. simpl. unfold and_then. simpl.
  unfold isJSONObject. simpl. rewrite Hr. simpl.
  apply (populate_prelim entries [] id a a' ys); [done| |done].
  intros k _. apply not_elem_of_nil.
Qed.

(** Root replace of a keyed container of a document, when the conversion
    of an entry throws: the entries before it have been set. *)
Lemma root_replace_map_throws c id old r before k v after ts :
  node c = YMap id old →
  h !! r = Some (OObj (before ++ (k, v) :: after)) →
  NoDup (before ++ (k, v) :: after).*1 →
  trees h before.*2 ts → Forall (λ t, storable t = true) ts →
  (∀ a, ∃ a', convert h v a = Throw a' CircularReference) →
  ∃ c' ys',
    defaultApplyPatch h {| path := []; op := PATCH_REPLACE; value := VRef r |} c
    = Throw c' CircularReference
    ∧ node c' = YMap id (zip before.*1 ys') ∧ map toJSON ys' = ts.
Proof.
  intros Hc Hr Hnd Ht Hst Hthrow. destruct c as [n a]. simpl in Hc. subst n.
  destruct (traverse_convert_stored _ _ a Ht Hst) as (a1 & ys & ys' & Htr & Hys & Hread & _).
  destruct (Hthrow a1) as [a' Hv].
  exists {| node := YMap id (zip before.*1 ys'); supply := a' |}, ys'.
  split; [|done].
  unfold defaultApplyPatch. simpl. unfold and_then. simpl.
  unfold isJSONObject. simpl. rewrite Hr. simpl.
  apply (populate_entries_throws before k v after [] id a a1 ys ys' a'); try done.
  intros k' _. apply not_elem_of_nil.
Qed.

Lemma traverse_throws vs v a :
  v ∈ vs → (∀ a, ∃ a', convert h v a = Throw a' CircularReference) →
  ∃ a', traverse (convert h) vs a = Throw a' CircularReference.
Proof.
  intros Hin Hthrow. revert a. induction vs as [|v0 vs IH]; intros a;
    [by apply elem_of_nil in Hin|].
  cbn [traverse]. unfold and_then.
  destruct (convert_returns_or_throws h v0 a) as [a1 [[y Hy]|Hv0]].
  - rewrite Hy. apply elem_of_cons in Hin as [->|Hin].
    + destruct (Hthrow a) as [a2 Hv]. congruence.
    + destruct (IH Hin a1) as [a' ->]. by exists a'.
  - rewrite Hv0. by exists a1.
Qed.

(** Root replace of a sequence of a document, when the conversion of an
    element throws: nothing has been pushed. *)
Lemma root_replace_array_throws c id old r items v :
  node c = YArray id old →
  h !! r = Some (OArr items) → v ∈ items →
  (∀ a, ∃ a', convert h v a = Throw a' CircularReference) →
  ∃ a', defaultApplyPatch h {| path := []; op := PATCH_REPLACE; value := VRef r |} c
        = Throw {| node := YArray id []; supply := a' |} CircularReference.
Proof.
  intros Hc Hr Hv Hthrow. destruct c as [n a]. simpl in Hc. subst n.
  destruct (traverse_throws items v a Hv Hthrow) as [a' Htr]. exists a'.
  unfold defaultApplyPatch. simpl. unfold and_then. simpl.
  unfold isJSONObject. simpl. rewrite Hr. simpl.
  rewrite Y_delete_eq, yarray_delete_all. cbn [fst snd finished].
  rewrite traverse_conv. cbn [node supply]. by rewrite Htr.
Qed.

Lemma root_not_replace op value c :
  op ≠ PATCH_REPLACE →
  defaultApplyPatch h {| path := []; op := op; value := value |} c
  = Throw c (NotImplemented (RootOperation op)).
Proof.
  intros Hop. unfold defaultApplyPatch. simpl. unfold and_then.
  by rewrite bool_decide_eq_true_2.
Qed.

(** The in-place branch of a replace at an index that holds a keyed
    container: what the loop over the entries leaves in the container is
    what it leaves in the tree. *)
Lemma defaultApplyPatch_in_place parent i r entries c id items mid old :
  navigate parent (node c) = Some (YArray id items) →
  items !! i = Some (YMap mid old) →
  h !! r = Some (OObj entries) →
  defaultApplyPatch h {| path := parent ++ [Idx i]; op := PATCH_REPLACE;
                         value := VRef r |} c
  = match for_each (set_converted h) entries
            {| node := YMap mid []; supply := supply c |} with
    | Done m _ =>
        Done {| node := yreplace parent (YArray id (<[i := node m]> items)) (node c);
                supply := supply m |} tt
    | Throw m e =>
        Throw {| node := yreplace parent (YArray id (<[i := node m]> items)) (node c);
                 supply := supply m |} e
    | OutOfFuel => OutOfFuel
    end.
Proof.
  intros Hnav Hi Hr. unfold defaultApplyPatch.
  destruct (last_removelast parent (Idx i)) as [-> ->].
  unfold and_then at 1. rewrite (walk_eq _ _ _ Hnav).
  cbn match. rewrite (at_container_eq _ _ _ _ Hnav).
  unfold and_then at 1. unfold Y_get. cbn [node yget].
  unfold yarray_get. rewrite Hi. cbn [default is_YMap andb].
  unfold isJSONObject. simpl. rewrite Hr. cbn [negb andb type_tag_eqb].
  unfold at_container at 1. cbn [node navigate yget mbind option_bind supply].
  unfold yarray_get. rewrite Hi. cbn [default mbind option_bind].
  unfold and_then. cbn [Y_clear modify_node node supply Object_entries ret].
  unfold Datatypes.id.
  destruct (for_each (set_converted h) entries _) as [m []|m e|];
    cbn [node supply yreplace yreplace_child step_index]; [| |done];
    by rewrite <- list_insert_alter.
Qed.

(** A replace at an index that holds a keyed container, by an object: the
    container stays, its entries are those of the object. *)
Lemma defaultApplyPatch_replace_in_place parent i r entries c id items mid old a' ys ys' :
  navigate parent (node c) = Some (YArray id items) →
  items !! i = Some (YMap mid old) →
  h !! r = Some (OObj entries) → NoDup entries.*1 →
  traverse (convert h) entries.*2 (supply c) = Done a' ys →
  stored_as ys ys' →
  defaultApplyPatch h {| path := parent ++ [Idx i]; op := PATCH_REPLACE;
                         value := VRef r |} c
  = Done {| node := yreplace parent
                      (YArray id (<[i := YMap mid (zip entries.*1 ys')]> items))
                      (node c);
            supply := a' |} tt.
Proof.
  intros Hnav Hi Hr Hnd Htr Hst.
  rewrite (defaultApplyPatch_in_place parent i r entries c id items mid old) by done.
  rewrite (populate_entries entries [] mid (supply c) a' ys ys'); [done..| |done|done].
  intros k _. apply not_elem_of_nil.
Qed.

(** The in-place replace, when the conversion of an entry throws: the
    container is left with the entries before it. *)
Lemma replace_in_place_throws parent i c id items mid old r before k v after ts :
  navigate parent (node c) = Some (YArray id items) →
  items !! i = Some (YMap mid old) →
  h !! r = Some (OObj (before ++ (k, v) :: after)) →
  NoDup (before ++ (k, v) :: after).*1 →
  trees h before.*2 ts → Forall (λ t, storable t = true) ts →
  (∀ a, ∃ a', convert h v a = Throw a' CircularReference) →
  ∃ c' ys',
    defaultApplyPatch h {| path := parent ++ [Idx i]; op := PATCH_REPLACE;
                           value := VRef r |} c
    = Throw c' CircularReference
    ∧ node c' = yreplace parent
                  (YArray id (<[i := YMap mid (zip before.*1 ys')]> items)) (node c)
    ∧ map toJSON ys' = ts.
Proof.
  intros Hnav Hi Hr Hnd Ht Hst Hthrow.
  destruct (traverse_convert_stored _ _ (supply c) Ht Hst)
    as (a1 & ys & ys' & Htr & Hys & Hread & _).
  destruct (Hthrow a1) as [a' Hv].
  exists {| node := yreplace parent
                      (YArray id (<[i := YMap mid (zip before.*1 ys')]> items))
                      (node c);
            supply := a' |}, ys'.
  split_and!; [|done|done].
  rewrite (defaultApplyPatch_in_place parent i r _ c id items mid old) by done.
  rewrite (populate_entries_throws before k v after [] mid (supply c) a1 ys ys' a'
             CircularReference); try done.
  intros k' _. apply not_elem_of_nil.
Qed.

(** A replace at an index in any other case: one element goes, the
    converted value comes in its place. *)
Lemma defaultApplyPatch_replace_full parent i value c id items old :
  navigate parent (node c) = Some (YArray id items) →
  items !! i = Some old →
  is_YMap old && isJSONObject h value = false →
  defaultApplyPatch h {| path := parent ++ [Idx i]; op := PATCH_REPLACE;
                         value := value |} c
  = match convert h value (supply c) with
    | Done a y =>
        finished {| node := yreplace parent
                              (YArray id (take i items ++ (insert_content [y]).1
                                          ++ drop (S i) items)) (node c);
                    supply := a |}
                 (if (insert_content [y]).2 then None else Some TypeError)
    | Throw a e =>
        Throw {| node := yreplace parent
                           (YArray id (take i items ++ drop (S i) items)) (node c);
                 supply := a |} e
    | OutOfFuel => OutOfFuel
    end.
Proof.
  intros Hnav Hi Hno. unfold defaultApplyPatch.
  destruct (last_removelast parent (Idx i)) as [-> ->].
  unfold and_then at 1. rewrite (walk_eq _ _ _ Hnav).
  cbn match. rewrite (at_container_eq _ _ _ _ Hnav).
  unfold and_then at 1. unfold Y_get. cbn [node yget].
  unfold yarray_get. rewrite Hi. cbn [default].
  unfold Datatypes.id. rewrite Hno.
  pose proof (lookup_lt_Some _ _ _ Hi) as Hlt.
  unfold and_then. rewrite Y_delete_eq, yarray_delete_one by done.
  cbn [fst snd finished]. rewrite conv_eq. cbn [node supply].
  destruct (convert h value (supply c)) as [a y|a e|]; [|done..].
  rewrite Y_insert_eq. unfold yarray_insert.
  rewrite decide_True.
  2: { rewrite length_app, length_take, length_drop. lia. }
  rewrite take_app_le by (rewrite length_take; lia).
  rewrite take_take, Nat.min_id.
  rewrite drop_app_ge by (rewrite length_take; lia).
  rewrite length_take. replace (i - i `min` length items) with 0 by lia.
  rewrite drop_0.
  by destruct (insert_content [y]) as [new [|]].
Qed.

End patch_facts.

Section alist_facts.
Context {A : Type}.
Implicit Types l : list (string * A).

Lemma alist_get_set_eq k a l : alist_get k (alist_set k a l) = Some a.
Proof.
  induction l as [|[k' a'] l IH]; simpl.
  - by rewrite decide_True.
  - destruct (decide (k = k')) as [->|]; simpl; [by rewrite decide_True|].
    by rewrite decide_False.
Qed.

Lemma alist_get_set_ne k k' a l : k ≠ k' → alist_get k' (alist_set k a l) = alist_get k' l.
Proof.
  intros Hne. induction l as [|[k'' a'] l IH]; simpl.
  - by rewrite decide_False.
  - destruct (decide (k = k'')) as [->|]; simpl.
    + by rewrite !decide_False.
    + destruct (decide (k' = k'')); [done|apply IH].
Qed.

Lemma alist_get_delete_eq k l : alist_get k (alist_delete k l) = None.
Proof.
  induction l as [|[k' a'] l IH]; simpl; [done|].
  destruct (decide (k = k')) as [->|]; simpl; [done|]. by rewrite decide_False.
Qed.

Lemma alist_get_delete_ne k k' l : k ≠ k' → alist_get k' (alist_delete k l) = alist_get k' l.
Proof.
  intros Hne. induction l as [|[k'' a'] l IH]; simpl; [done|].
  destruct (decide (k = k'')) as [->|]; simpl.
  - by rewrite decide_False.
  - destruct (decide (k' = k'')); [done|apply IH].
Qed.
End alist_facts.

Lemma navigate_app steps1 steps2 root :
  navigate (steps1 ++ steps2) root = navigate steps1 root ≫= navigate steps2.
Proof.
  revert root. induction steps1 as [|s steps1 IH]; intros root; simpl; [done|].
  destruct (yget s root); simpl; [apply IH|done].
Qed.

(** Reading the place that was written. *)
Lemma navigate_yreplace steps root base new :
  navigate steps root = Some base → is_container base →
  navigate steps (yreplace steps new root) = Some new.
Proof.
  revert root. induction steps as [|s rest IH]; intros root; simpl; [done|].
  destruct (yget s root) as [child|] eqn:Hget; simpl; [|done].
  intros Hnav Hc.
  pose proof (navigate_container _ _ _ _ _ Hget Hnav Hc) as Hchild.
  destruct (yget_container _ _ _ Hget Hchild)
    as [(id & entries & k & -> & -> & Hk)|(id & items & i & -> & Hs & Hi)];
    cbn [yreplace_child].
  - rewrite Hk. cbn [yget]. unfold ymap_get. rewrite alist_get_set_eq. simpl.
    by apply IH.
  - rewrite Hs.
    assert (yget s (YArray id (alter (yreplace rest new) i items))
            = Some (yreplace rest new child)) as ->; [|by apply IH].
    destruct s as [k|j]; cbn [yget].
    + rewrite length_alter, Hs. cbn. by rewrite list_lookup_alter_eq, Hi.
    + injection Hs as ->. unfold yarray_get. by rewrite list_lookup_alter_eq, Hi.
Qed.



(* ===================================================================== *)
(** ** Facts about subscriber sets and the binder *)
(* ===================================================================== *)

Section set_facts.
Context {A : Type} `{EqDecision A}.
Implicit Types s : SetData A.

Lemma elem_of_set_values x s : x ∈ set_values s ↔ Some x ∈ s.
Proof.
  unfold set_values. rewrite list_elem_of_omap. split.
  - intros ([y|] & Hy & Heq); simpl in *; [by simplify_eq|done].
  - intros Hx. by exists (Some x).
Qed.

Lemma length_set_delete x s : length (set_delete x s) = length s.
Proof.
  induction s as [|[y|] s IH]; simpl; [done| |by rewrite IH].
  destruct (decide (x = y)); simpl; by rewrite ?IH.
Qed.

Lemma set_delete_absent x s : x ∉ set_values s → set_delete x s = s.
Proof.
  induction s as [|[y|] s IH]; simpl; [done| |].
  - change (set_values (Some y :: s)) with (y :: set_values s).
    rewrite not_elem_of_cons. intros [Hne Hn].
    rewrite decide_False by done. by rewrite IH.
  - intros Hn. by rewrite IH.
Qed.

Lemma filter_all (P : A → Prop) `{∀ x, Decision (P x)} (l : list A) :
  (∀ x, x ∈ l → P x) → filter P l = l.
Proof.
  induction l as [|y l IH]; intros HP; [done|].
  rewrite filter_cons_True by (apply HP; left).
  rewrite IH; [done|]. intros x Hx. apply HP. by right.
Qed.

Lemma filter_absent (x : A) (l : list A) :
  x ∉ l → filter (λ y, y ≠ x) l = l.
Proof. intros Hn. apply filter_all. intros y Hy ->. done. Qed.

Lemma set_values_delete x s :
  NoDup (set_values s) →
  set_values (set_delete x s) = filter (λ y, y ≠ x) (set_values s).
Proof.
  induction s as [|[y|] s IH]; simpl; [done| |by auto].
  change (set_values (Some y :: s)) with (y :: set_values s).
  intros [Hy Hnd]%NoDup_cons.
  destruct (decide (x = y)) as [->|Hne].
  - rewrite filter_cons_False by naive_solver.
    change (set_values (None :: s)) with (set_values s).
    by rewrite filter_absent.
  - rewrite filter_cons_True by naive_solver.
    change (set_values (Some y :: set_delete x s)) with (y :: set_values (set_delete x s)).
    by rewrite IH.
Qed.

Lemma set_delete_wf x s : NoDup (set_values s) → NoDup (set_values (set_delete x s)).
Proof.
  intros Hnd. rewrite set_values_delete by done.
  eapply sublist_NoDup; [done|apply sublist_filter].
Qed.

Lemma set_values_drop_sublist n s : set_values (drop n s) `sublist_of` set_values s.
Proof.
  unfold set_values. rewrite <- (take_drop n s) at 2. rewrite omap_app.
  apply sublist_inserts_l. done.
Qed.

Lemma drop_set_delete n x s :
  NoDup (set_values s) → drop n (set_delete x s) = set_delete x (drop n s).
Proof.
  revert n. induction s as [|o s IH]; intros n Hnd; [by destruct n|].
  destruct n as [|n]; [done|].
  destruct o as [y|]; simpl.
  - change (set_values (Some y :: s)) with (y :: set_values s) in Hnd.
    apply NoDup_cons in Hnd as [Hy Hnd].
    destruct (decide (x = y)) as [->|Hne]; simpl.
    + rewrite set_delete_absent; [done|].
      intros Hin. apply Hy. eapply elem_of_sublist; [done|apply set_values_drop_sublist].
    + by apply IH.
  - by apply IH.
Qed.

Lemma set_delete_idemp x s :
  NoDup (set_values s) → set_delete x (set_delete x s) = set_delete x s.
Proof.
  intros Hnd. apply set_delete_absent.
  rewrite set_values_delete by done.
  rewrite list_elem_of_filter. naive_solver.
Qed.

Lemma deletes_wf xs s : NoDup (set_values s) → NoDup (set_values (deletes xs s)).
Proof.
  revert s. induction xs as [|x xs IH]; intros s Hnd; simpl; [done|].
  apply IH. by apply set_delete_wf.
Qed.

Lemma length_deletes xs s : length (deletes xs s) = length s.
Proof.
  revert s. induction xs as [|x xs IH]; intros s; simpl; [done|].
  by rewrite IH, length_set_delete.
Qed.

Lemma set_values_deletes xs s :
  NoDup (set_values s) →
  set_values (deletes xs s) = filter (λ y, y ∉ xs) (set_values s).
Proof.
  revert s. induction xs as [|x xs IH]; intros s Hnd; simpl.
  - symmetry. apply filter_all. intros y _. apply not_elem_of_nil.
  - rewrite IH by by apply set_delete_wf.
    rewrite set_values_delete by done.
    clear. induction (set_values s) as [|y l IHl]; [done|].
    destruct (decide (y = x)) as [->|Hne].
    + rewrite filter_cons_False by naive_solver.
      rewrite (filter_cons_False (λ y, y ∉ x :: xs)); [done|].
      intros Hn. apply Hn. left.
    + rewrite filter_cons_True by done.
      destruct (decide (y ∈ xs)).
      * rewrite !filter_cons_False; [done| |naive_solver].
        intros Hn. apply Hn. by right.
      * rewrite !filter_cons_True; [by rewrite IHl| |done].
        rewrite not_elem_of_cons. done.
Qed.

Lemma drop_deletes n xs s :
  NoDup (set_values s) → drop n (deletes xs s) = deletes xs (drop n s).
Proof.
  revert s. induction xs as [|x xs IH]; intros s Hnd; simpl; [done|].
  rewrite IH by by apply set_delete_wf. by rewrite drop_set_delete.
Qed.

Lemma set_add_values x s :
  set_values (set_add x s) =
    if bool_decide (x ∈ set_values s) then set_values s else set_values s ++ [x].
Proof.
  unfold set_add, set_has.
  rewrite (bool_decide_ext (Some x ∈ s) (x ∈ set_values s))
    by (symmetry; apply elem_of_set_values).
  case_bool_decide; [done|]. unfold set_values. by rewrite omap_app.
Qed.

Lemma set_add_wf x s : NoDup (set_values s) → NoDup (set_values (set_add x s)).
Proof.
  intros Hnd. rewrite set_add_values. case_bool_decide; [done|].
  apply NoDup_app. split_and!; [done| |apply NoDup_singleton].
  intros y Hy Hx. apply list_elem_of_singleton in Hx. by subst.
Qed.

Lemma set_add_idemp x s : set_add x (set_add x s) = set_add x s.
Proof.
  unfold set_add at 1. unfold set_has.
  rewrite bool_decide_eq_true_2; [done|].
  apply elem_of_set_values. rewrite set_add_values.
  case_bool_decide; [done|]. apply elem_of_app. right. left.
Qed.

End set_facts.

Section survivors_facts.
Variable listeners : ListenerFn → list Action.

Lemma survivors_filter R1 R2 fs :
  survivors listeners (R1 ++ R2) fs
  = survivors listeners R2 (filter (λ f, f ∉ R1) fs).
Proof.
  revert R2. induction fs as [|f fs IH]; intros R2; simpl; [done|].
  destruct (decide (f ∈ R1)) as [Hin|Hin].
  - rewrite filter_cons_False by naive_solver.
    rewrite bool_decide_eq_true_2 by (apply elem_of_app; by left). apply IH.
  - rewrite filter_cons_True by done. simpl.
    destruct (decide (f ∈ R2)) as [Hin2|Hin2].
    + rewrite !bool_decide_eq_true_2; [apply IH|done|apply elem_of_app; by right].
    + rewrite !bool_decide_eq_false_2; [|done|rewrite elem_of_app; naive_solver].
      f_equal. rewrite <- app_assoc. apply IH.
Qed.

Lemma survivors_sublist R fs : survivors listeners R fs `sublist_of` fs.
Proof.
  revert R. induction fs as [|f fs IH]; intros R; simpl; [done|].
  case_bool_decide; [apply sublist_cons|apply sublist_skip]; apply IH.
Qed.

(** A listener that no other listener unsubscribes is invoked. *)
Lemma survivors_kept R fs f :
  f ∈ fs → f ∉ R →
  (∀ g, g ∈ fs → g ≠ f → f ∉ unsubscribed_by (listeners g)) →
  NoDup fs →
  f ∈ survivors listeners R fs.
Proof.
  revert R. induction fs as [|g fs IH]; intros R Hin HR Hothers Hnd; [by apply elem_of_nil in Hin|].
  apply NoDup_cons in Hnd as [Hg Hnd]. simpl.
  apply elem_of_cons in Hin as [->|Hin].
  - rewrite bool_decide_eq_false_2 by done. left.
  - assert (g ≠ f) by (intros ->; done).
    case_bool_decide.
    + apply IH; [done|done| |done]. intros g' ? ?. apply Hothers; [by right|done].
    + right. apply IH; [done| | |done].
      * rewrite elem_of_app. intros [?|?]; [done|].
        eapply Hothers; [left|done|done].
      * intros g' ? ?. apply Hothers; [by right|done].
Qed.

Lemma survivors_all fs :
  (∀ g f, g ∈ fs → f ∈ unsubscribed_by (listeners g) → f = g) →
  NoDup fs →
  survivors listeners [] fs = fs.
Proof.
  intros Hself Hnd.
  assert (∀ R, (∀ f, f ∈ R → f ∉ fs) → survivors listeners R fs = fs) as Hgen.
  { clear -Hself Hnd. induction fs as [|g fs IH]; intros R HR; simpl; [done|].
    apply NoDup_cons in Hnd as [Hg Hnd].
    rewrite bool_decide_eq_false_2.
    2: { intros Hin. apply (HR _ Hin). left. }
    f_equal. apply IH; [|done|].
    - intros g' f ? ?. apply Hself; [by right|done].
    - intros f [Hf|Hf]%elem_of_app Hin.
      + apply (HR _ Hf). by right.
      + apply Hself in Hf; [|left]. by subst. }
  apply Hgen. intros f Hf. by apply elem_of_nil in Hf.
Qed.

Lemma survivors_removed R fs f : f ∈ R → f ∉ survivors listeners R fs.
Proof.
  revert R. induction fs as [|g fs IH]; intros R HR; simpl; [apply not_elem_of_nil|].
  case_bool_decide as Hg; [by apply IH|].
  rewrite not_elem_of_cons. split; [by intros ->|].
  apply IH. apply elem_of_app. by left.
Qed.

Lemma survivors_app R l1 l2 :
  survivors listeners R (l1 ++ l2)
  = survivors listeners R l1
    ++ survivors listeners
         (R ++ (survivors listeners R l1 ≫= λ fn, unsubscribed_by (listeners fn))) l2.
Proof.
  revert R. induction l1 as [|g l1 IH]; intros R; simpl.
  - by rewrite app_nil_r.
  - case_bool_decide; [apply IH|]. simpl. f_equal.
    rewrite IH. by rewrite <- app_assoc.
Qed.

(** A listener unsubscribed by one invoked before its turn is skipped. *)
Lemma survivors_skipped l1 g l2 f :
  g ∈ survivors listeners [] (l1 ++ g :: l2) →
  NoDup (l1 ++ g :: l2) →
  f ∈ l2 → f ∈ unsubscribed_by (listeners g) →
  f ∉ survivors listeners [] (l1 ++ g :: l2).
Proof.
  intros Hg Hnd Hf Hun. rewrite survivors_app in *.
  apply NoDup_app in Hnd as (Hnd1 & Hdisj & Hnd2).
  apply NoDup_cons in Hnd2 as [Hg2 Hnd2].
  assert (g ∉ l1) as Hg1 by (intros ?; eapply Hdisj; [done|left]).
  assert (f ∉ l1) as Hf1 by (intros ?; eapply Hdisj; [done|by right]).
  assert (∀ x, x ∉ l1 → x ∉ survivors listeners [] l1) as Hsub.
  { intros x Hx Hin. apply Hx. eapply elem_of_sublist; [done|apply survivors_sublist]. }
  apply elem_of_app in Hg as [Hg|Hg]; [by apply Hsub in Hg|].
  rewrite not_elem_of_app. split; [by apply Hsub|].
  simpl in *. case_bool_decide as Hrem.
  { exfalso. by eapply survivors_removed. }
  rewrite not_elem_of_cons. split; [by intros ->|].
  apply survivors_removed. apply elem_of_app. by right.
Qed.
(** A listener is invoked exactly when no listener invoked before its turn
    unsubscribes it. *)
Lemma survivors_here l1 f l2 :
  NoDup (l1 ++ f :: l2) →
  f ∈ survivors listeners [] (l1 ++ f :: l2)
  ↔ ∀ g, g ∈ survivors listeners [] l1 → f ∉ unsubscribed_by (listeners g).
Proof.
  intros Hnd. rewrite survivors_app. cbn [app survivors].
  apply NoDup_app in Hnd as (Hnd1 & Hdisj & Hnd2).
  assert (f ∉ survivors listeners [] l1) as Hf1.
  { intros Hin. eapply Hdisj; [|left].
    eapply elem_of_sublist; [done|apply survivors_sublist]. }
  rewrite elem_of_app.
  set (R := survivors listeners [] l1 ≫= λ fn, unsubscribed_by (listeners fn)).
  assert (f ∈ R ↔ ∃ g, f ∈ unsubscribed_by (listeners g)
                        ∧ g ∈ survivors listeners [] l1) as HR.
  { unfold R. apply list_elem_of_bind. }
  case_bool_decide as Hrem.
  - split.
    + intros [?|Hin]; [done|]. by destruct (survivors_removed _ l2 f Hrem).
    + intros Hno. apply HR in Hrem as (g & Hg & Hin). by destruct (Hno g).
  - split; [|intros _; right; left].
    intros _ g Hg Hun. apply Hrem, HR. by exists g.
Qed.

Lemma survivors_before l1 f l2 g :
  NoDup (l1 ++ f :: l2) →
  g ∈ survivors listeners [] l1
  ↔ g ∈ l1 ∧ g ∈ survivors listeners [] (l1 ++ f :: l2).
Proof.
  intros Hnd. rewrite survivors_app, elem_of_app. split.
  - intros Hg. split; [|by left].
    eapply elem_of_sublist; [done|apply survivors_sublist].
  - intros [Hg1 [?|Hg]]; [done|].
    apply NoDup_app in Hnd as (_ & Hdisj & _). destruct (Hdisj g Hg1).
    eapply elem_of_sublist; [done|apply survivors_sublist].
Qed.

Lemma survivors_invoked l1 f l2 :
  NoDup (l1 ++ f :: l2) →
  f ∈ survivors listeners [] (l1 ++ f :: l2)
  ↔ ∀ g, g ∈ l1 → g ∈ survivors listeners [] (l1 ++ f :: l2) →
         CallUnsubscribe f ∉ listeners g.
Proof.
  intros Hnd. rewrite (survivors_here l1 f l2 Hnd). split.
  - intros Hno g Hg1 Hg Hun. apply (Hno g).
    + apply (survivors_before l1 f l2 g Hnd). by split.
    + unfold unsubscribed_by. apply list_elem_of_omap.
      by exists (CallUnsubscribe f).
  - intros Hno g Hg Hun.
    apply (survivors_before l1 f l2 g Hnd) in Hg as [Hg1 Hg].
    apply (Hno g Hg1 Hg).
    unfold unsubscribed_by in Hun. apply list_elem_of_omap in Hun as ([h'|h'] & Hin & Heq);
      simplify_eq. done.
Qed.
End survivors_facts.


Section binder_facts.
Variable h : heap.
Variable yjs_events : YValue → YValue → list YEvent.
Variable listeners : ListenerFn → list Action.

Lemma put_binder_same i b w : binders w !! i = Some b → put_binder i b w = w.
Proof.
  intros Hb. unfold put_binder, set_binders. rewrite list_insert_id by done.
  by destruct w.
Qed.

Lemma put_binder_put_binder i b b' w :
  put_binder i b' (put_binder i b w) = put_binder i b' w.
Proof.
  unfold put_binder, set_binders. simpl. by rewrite list_insert_insert_eq.
Qed.

Lemma binders_put_binder i b b0 w :
  binders w !! i = Some b0 → binders (put_binder i b w) !! i = Some b.
Proof.
  intros Hb. simpl. apply list_lookup_insert_eq. by eapply lookup_lt_Some.
Qed.

Lemma binders_put_binder_ne i j b w :
  i ≠ j → binders (put_binder i b w) !! j = binders w !! j.
Proof. intros Hne. simpl. by apply list_lookup_insert_ne. Qed.

Lemma add_calls_nil w : add_calls [] w = w.
Proof. unfold add_calls, set_calls. rewrite app_nil_r. by destruct w. Qed.

Lemma add_calls_add_calls cs cs' w :
  add_calls cs' (add_calls cs w) = add_calls (cs ++ cs') w.
Proof. unfold add_calls, set_calls. simpl. by rewrite app_assoc. Qed.

Lemma put_binder_add_calls i b cs w :
  put_binder i b (add_calls cs w) = add_calls cs (put_binder i b w).
Proof. reflexivity. Qed.

Lemma set_subscription_same b : set_subscription (subscription b) b = b.
Proof. by destruct b. Qed.

Lemma the_binder_eq i w b : binders w !! i = Some b → the_binder i w = Done w b.
Proof. unfold the_binder. by intros ->. Qed.

Lemma modify_binder_eq i f w b :
  binders w !! i = Some b → modify_binder i f w = Done (put_binder i (f b) w) tt.
Proof.
  intros Hb. unfold modify_binder, modify, put_binder. do 2 f_equal.
  apply list_eq. intros j. destruct (decide (i = j)) as [<-|].
  - rewrite list_lookup_alter_eq, Hb. simpl.
    rewrite list_lookup_insert_eq; [done|]. by eapply lookup_lt_Some.
  - by rewrite list_lookup_alter_ne, list_lookup_insert_ne.
Qed.

Lemma run_actions_eq i body w b :
  only_unsubscribes body → binders w !! i = Some b →
  for_each (run_action i) body w
  = Done (put_binder i (set_subscription
                          (deletes (unsubscribed_by body) (subscription b)) b) w) tt.
Proof.
  revert w b. induction body as [|a body IH]; intros w b Hbody Hb.
  - simpl. unfold ret. by rewrite set_subscription_same, put_binder_same.
  - destruct (Hbody a) as [g ->]; [left|].
    cbn [for_each run_action]. unfold and_then, unsubscribe.
    rewrite (modify_binder_eq _ _ _ _ Hb).
    erewrite IH; [| |by eapply binders_put_binder].
    2: { intros a Ha. apply Hbody. by right. }
    by rewrite put_binder_put_binder.
Qed.

Lemma call_listener_eq i fn w b :
  only_unsubscribes (listeners fn) → binders w !! i = Some b →
  call_listener listeners i fn w
  = Done (put_binder i (set_subscription
                          (deletes (unsubscribed_by (listeners fn)) (subscription b)) b)
            (add_calls [invocation i (snapshot b) fn] w)) tt.
Proof.
  intros Hbody Hb. unfold call_listener, get, and_then.
  rewrite (the_binder_eq _ _ _ Hb). cbn [ret modify].
  by rewrite (run_actions_eq i _ _ b).
Qed.

(** The notification of listeners that unsubscribe listeners. *)
Lemma forEach_unsubscribing i fuel : ∀ k w b,
  binders w !! i = Some b →
  set_wf (subscription b) →
  (∀ fn, fn ∈ set_values (subscription b) → only_unsubscribes (listeners fn)) →
  length (subscription b) - k < fuel →
  let invoked := survivors listeners [] (set_values (drop k (subscription b))) in
  forEach listeners fuel i k w
  = Done (put_binder i
            (set_subscription
               (deletes (invoked ≫= λ fn, unsubscribed_by (listeners fn))
                        (subscription b)) b)
            (add_calls (invocation i (snapshot b) <$> invoked) w)) tt.
Proof.
  induction fuel as [|fuel IH]; intros k w b Hb Hwf Hbody Hlen; [lia|].
  cbn [forEach]. unfold and_then. rewrite (the_binder_eq _ _ _ Hb).
  destruct (subscription b !! k) as [[fn|]|] eqn:Hk.
  - rewrite (drop_S _ _ _ Hk).
    change (set_values (Some fn :: ?s)) with (fn :: set_values s).
    cbn [survivors]. rewrite bool_decide_eq_false_2 by apply not_elem_of_nil.
    cbn [app].
    assert (fn ∈ set_values (subscription b)) as Hfn.
    { apply elem_of_set_values. by eapply list_elem_of_lookup_2. }
    rewrite (call_listener_eq _ _ _ b) by auto.
    set (s1 := deletes (unsubscribed_by (listeners fn)) (subscription b)).
    set (b1 := set_subscription s1 b).
    set (w1 := put_binder i b1 _).
    assert (binders w1 !! i = Some b1) as Hb1 by (by eapply binders_put_binder).
    assert (set_values (drop (S k) s1)
            = filter (λ f, f ∉ unsubscribed_by (listeners fn))
                     (set_values (drop (S k) (subscription b)))) as Hdrop.
    { unfold s1. rewrite drop_deletes by done. apply set_values_deletes.
      eapply sublist_NoDup; [exact Hwf|apply set_values_drop_sublist]. }
    rewrite (IH (S k) w1 b1 Hb1).
    + cbn [subscription snapshot b1 set_subscription]. rewrite Hdrop.
      rewrite <- survivors_filter, app_nil_r.
      set (invoked := survivors listeners _ _).
      unfold w1. rewrite <- put_binder_add_calls, put_binder_put_binder.
      rewrite add_calls_add_calls.
      rewrite fmap_cons. cbn [mbind list_bind app].
      unfold b1, s1, deletes. simpl. by rewrite foldl_app.
    + unfold b1. simpl. by apply deletes_wf.
    + intros f Hf. apply Hbody. unfold b1 in Hf. simpl in Hf.
      unfold s1 in Hf. rewrite set_values_deletes in Hf by done.
      by apply list_elem_of_filter in Hf as [_ ?].
    + unfold b1. simpl. unfold s1. rewrite length_deletes.
      pose proof (lookup_lt_Some _ _ _ Hk). lia.
  - rewrite (drop_S _ _ _ Hk).
    change (set_values (None :: ?s)) with (set_values s).
    apply IH; [done..|]. pose proof (lookup_lt_Some _ _ _ Hk). lia.
  - rewrite drop_ge by (by apply lookup_ge_None).
    cbn. unfold ret. rewrite add_calls_nil.
    by rewrite set_subscription_same, put_binder_same.
Qed.


Lemma observer_own fuel i events w :
  observer listeners fuel i events MUTATIVE_YJS_ORIGIN w = Done w tt.
Proof. unfold observer. by rewrite bool_decide_eq_true_2. Qed.

Lemma commit_own fuel before w :
  commit yjs_events listeners fuel before MUTATIVE_YJS_ORIGIN w = Done w tt.
Proof.
  unfold commit, and_then, get_state.
  destruct (yjs_events before (source w)) as [|e events]; [done|].
  generalize (e :: events). intros evs.
  induction (observers w) as [|j js IH]; [done|].
  cbn [for_each]. unfold and_then. by rewrite observer_own.
Qed.

Lemma type_tag_eqb_eq a b : type_tag_eqb a b = true ↔ a = b.
Proof. destruct a, b; simpl; naive_solver. Qed.

Lemma update_accepted fuel i fn w b :
  binders w !! i = Some b → accepted h (patchesOptionsInOption b) →
  update h yjs_events listeners fuel i fn w
  = update_checked h yjs_events listeners fuel i fn w.
Proof.
  intros Hb Hok. unfold update, and_then. rewrite (the_binder_eq _ _ _ Hb).
  destruct Hok as [->|Ht].
  - by rewrite bool_decide_eq_true_2.
  - apply type_tag_eqb_eq in Ht. rewrite Ht. simpl. by rewrite !andb_false_r.
Qed.

Lemma update_rejected fuel i fn w b :
  binders w !! i = Some b → ¬ accepted h (patchesOptionsInOption b) →
  update h yjs_events listeners fuel i fn w = Throw w InvalidConfiguration.
Proof.
  intros Hb Hno. unfold update, and_then. rewrite (the_binder_eq _ _ _ Hb).
  unfold accepted in Hno.
  rewrite bool_decide_eq_false_2 by naive_solver. 
  destruct (type_tag_eqb _ TObject) eqn:Ht.
  { apply type_tag_eqb_eq in Ht. naive_solver. }
  rewrite bool_decide_eq_false_2; [done|].
  intros Hnull. rewrite Hnull in Ht. done.
Qed.

Lemma doApplyUpdate_eq i fn w b next patches c' :
  binders w !! i = Some b →
  fn (patchesOptionsInOption b) (snapshot b) = (next, patches) →
  for_each (applyPatch_of h b) patches (cell_of w) = Done c' tt →
  doApplyUpdate h i fn w
  = Done (put_binder i (set_snapshot next b) (set_source c' w)) tt.
Proof.
  intros Hb Hfn Hp. unfold doApplyUpdate, and_then.
  rewrite (the_binder_eq _ _ _ Hb). unfold with_source, zoom, applyUpdate.
  rewrite Hfn. unfold and_then. fold (cell_of w). rewrite Hp. cbn [ret].
  by rewrite (modify_binder_eq _ _ _ b).
Qed.

(** A local update: the patches go to the source, the snapshot is swapped,
    the listeners are notified once. *)
Lemma update_eq fuel i fn w b next patches c' :
  binders w !! i = Some b →
  accepted h (patchesOptionsInOption b) →
  fn (patchesOptionsInOption b) (snapshot b) = (next, patches) →
  for_each (applyPatch_of h b) patches (cell_of w) = Done c' tt →
  set_wf (subscription b) →
  (∀ fn, fn ∈ set_values (subscription b) → only_unsubscribes (listeners fn)) →
  length (subscription b) < fuel →
  let invoked := survivors listeners [] (set_values (subscription b)) in
  update h yjs_events listeners fuel i fn w
  = Done (put_binder i
            (set_subscription
               (deletes (invoked ≫= λ fn, unsubscribed_by (listeners fn))
                        (subscription b))
               (set_snapshot next b))
            (add_calls (invocation i next <$> invoked) (set_source c' w))) tt.
Proof.
  intros Hb Hok Hfn Hp Hwf Hbody Hlen invoked.
  rewrite (update_accepted _ _ _ _ b) by done.
  unfold update_checked, and_then, get_state.
  pose proof (doApplyUpdate_eq i fn w b next patches c' Hb Hfn Hp) as Hdo.
  set (b1 := set_snapshot next b) in *.
  set (w1 := put_binder i b1 (set_source c' w)) in *.
  assert (binders w1 !! i = Some b1) as Hb1.
  { unfold w1. eapply binders_put_binder. simpl. done. }
  assert (notify listeners fuel i w1
          = Done (put_binder i
            (set_subscription
               (deletes (invoked ≫= λ fn, unsubscribed_by (listeners fn))
                        (subscription b)) b1)
            (add_calls (invocation i next <$> invoked) (set_source c' w))) tt) as Hn.
  { unfold notify. rewrite (forEach_unsubscribing i fuel 0 w1 b1 Hb1); [|done|done|simpl; lia].
    cbn [subscription snapshot b1 set_snapshot drop]. fold invoked.
    unfold w1. by rewrite <- put_binder_add_calls, put_binder_put_binder. }
  destruct (doc w).
  - unfold transact. rewrite Hdo. unfold and_then. rewrite commit_own. cbn [ret].
    exact Hn.
  - rewrite Hdo. exact Hn.
Qed.


Lemma unsubscribe_twice i fn w b :
  binders w !! i = Some b → set_wf (subscription b) →
  (do! unsubscribe i fn in unsubscribe i fn) w = unsubscribe i fn w.
Proof.
  intros Hb Hwf. unfold and_then, unsubscribe.
  rewrite (modify_binder_eq _ _ _ b) by done.
  erewrite modify_binder_eq by (by eapply binders_put_binder).
  rewrite put_binder_put_binder. cbn [subscription set_subscription].
  by rewrite set_delete_idemp.
Qed.

Lemma observer_remote fuel i events origin w b next :
  origin ≠ MUTATIVE_YJS_ORIGIN →
  binders w !! i = Some b →
  applyYEvents (snapshot b) events = inl next →
  set_wf (subscription b) →
  (∀ fn, fn ∈ set_values (subscription b) → only_unsubscribes (listeners fn)) →
  length (subscription b) < fuel →
  let invoked := survivors listeners [] (set_values (subscription b)) in
  observer listeners fuel i events origin w
  = Done (put_binder i
            (set_subscription
               (deletes (invoked ≫= λ fn, unsubscribed_by (listeners fn))
                        (subscription b))
               (set_snapshot next b))
            (add_calls (invocation i next <$> invoked) w)) tt.
Proof.
  intros Ho Hb Hev Hwf Hbody Hlen invoked. unfold observer.
  rewrite bool_decide_eq_false_2 by done. unfold get, and_then.
  rewrite (the_binder_eq _ _ _ Hb). cbn [ret]. rewrite Hev.
  rewrite (modify_binder_eq _ _ _ b) by done.
  set (b1 := set_snapshot next b).
  unfold notify.
  rewrite (forEach_unsubscribing i fuel 0 _ b1); [| |done|done|simpl; lia].
  2: { by eapply binders_put_binder. }
  cbn [subscription snapshot b1 set_snapshot drop]. fold invoked.
  by rewrite <- put_binder_add_calls, put_binder_put_binder.
Qed.

End binder_facts.

(* ===================================================================== *)
(** ** Which errors the code can throw *)
(* ===================================================================== *)

Section throws.
Context {S : Type} (P : Error → Prop).

Lemma tw_ret {A} (a : A) : throws_within P (ret (S:=S) a).
Proof. by intros s s' e. Qed.

Lemma tw_throw {A} e : P e → throws_within P (throw (S:=S) (A:=A) e).
Proof. intros HP s s' e' [= _ <-]. done. Qed.

Lemma tw_and_then {A B} (m : M S A) (f : A → M S B) :
  throws_within P m → (∀ a, throws_within P (f a)) →
  throws_within P (and_then m f).
Proof.
  intros Hm Hf s s' e. unfold and_then.
  destruct (m s) as [s1 a|s1 e1|] eqn:Hms; [|intros [= _ <-]; by eapply Hm|done].
  apply Hf.
Qed.

Lemma tw_for_each {A} (f : A → M S unit) xs :
  (∀ x, throws_within P (f x)) → throws_within P (for_each f xs).
Proof.
  intros Hf. induction xs as [|x xs IH]; simpl; [apply tw_ret|].
  apply tw_and_then; auto.
Qed.

Lemma tw_traverse {A B} (f : A → M S B) xs :
  (∀ x, throws_within P (f x)) → throws_within P (traverse f xs).
Proof.
  intros Hf. induction xs as [|x xs IH]; simpl; [apply tw_ret|].
  apply tw_and_then; [auto|]. intros y. apply tw_and_then; [auto|].
  intros ys. apply tw_ret.
Qed.

Lemma tw_zoom {T A} (get : S → T) (set : T → S → S) (m : M T A) :
  throws_within P m → throws_within P (zoom get set m).
Proof.
  intros Hm s s' e. unfold zoom.
  destruct (m (get s)) as [t a|t e1|] eqn:Hms; [done| |done].
  intros [= _ <-]. by eapply Hm.
Qed.

Lemma tw_modify (f : S → S) : throws_within P (modify f).
Proof. by intros s s' e. Qed.

Lemma tw_weaken {A} (Q : Error → Prop) (m : M S A) :
  (∀ e, Q e → P e) → throws_within Q m → throws_within P m.
Proof. intros HQ Hm s s' e Hs. eapply HQ, Hm, Hs. Qed.
End throws.

Section throws_util.
Variable h : heap.

Lemma tw_applyJsonObject_with P conv id acc entries :
  (∀ v, throws_within P (conv v)) →
  throws_within P (applyJsonObject_with conv (YNewMap id acc) entries).
Proof.
  intros Hc. revert acc. induction entries as [|[k v] entries IH]; intros acc.
  - apply tw_ret.
  - intros s s' e. rewrite applyJsonObject_with_cons.
    destruct (conv v s) as [s1 y|s1 e1|] eqn:Hv; [apply IH| |done].
    intros [= _ <-]. by eapply Hc.
Qed.

Lemma tw_toYDataType fuel v :
  throws_within (λ e, e = CircularReference) (toYDataType fuel h v).
Proof.
  revert v. induction fuel as [|fuel IH]; intros v; [done|].
  intros s s' e. destruct v as [p|r]; [by rewrite toYDataType_prim|].
  destruct (h !! r) as [[items|entries]|] eqn:Hr.
  - rewrite (toYDataType_array _ _ _ _ _ Hr).
    case_bool_decide; [by intros [= _ <-]|].
    rewrite applyJsonArray_with_new.
    destruct (traverse _ _ _) as [s1 ys|s1 e1|] eqn:Ht; [done| |done].
    intros [= _ <-]. by eapply (tw_traverse _ _ _ IH).
  - rewrite (toYDataType_object _ _ _ _ _ Hr).
    case_bool_decide; [by intros [= _ <-]|].
    by apply (tw_applyJsonObject_with (λ e, e = CircularReference) (toYDataType fuel h)).
  - by rewrite (toYDataType_other _ _ _ _ Hr).
Qed.

Lemma tw_conv v : throws_within (λ e, e ≠ InvalidConfiguration) (conv h v).
Proof.
  unfold conv, convert. do 2 apply tw_zoom.
  eapply tw_weaken; [|apply tw_toYDataType]. by intros e ->.
Qed.

Lemma tw_at_container {A} (P : Error → Prop) steps (m : M Cell A) :
  P TypeError → throws_within P m → throws_within P (at_container steps m).
Proof.
  intros HP Hm c c' e. unfold at_container.
  destruct (navigate steps (node c)); [|by intros [= _ <-]].
  destruct (m _) as [c1 a|c1 e1|] eqn:Hmc; [done| |done].
  intros [= _ <-]. by eapply Hm.
Qed.

Lemma tw_write_node (P : Error → Prop) f :
  (∀ v e, (f v).2 = Some e → P e) → throws_within P (write_node f).
Proof.
  intros Hf c c' e. unfold write_node, finished.
  destruct (f (node c)).2 as [e'|] eqn:He; [|done].
  intros [= _ <-]. by eapply Hf.
Qed.

Lemma tw_Y_set k y : throws_within (λ e, e ≠ InvalidConfiguration) (Y_set k y).
Proof.
  apply tw_write_node. intros [] e; simpl; try done.
  destruct (integrate y) as [y' [|]]; simpl; [done|]. by intros [= <-].
Qed.

Lemma tw_Y_push content : throws_within (λ e, e ≠ InvalidConfiguration) (Y_push content).
Proof.
  apply tw_write_node. intros [] e; simpl; try done.
  destruct (insert_content content) as [new [|]]; simpl; [done|]. by intros [= <-].
Qed.

Lemma tw_Y_insert i content : throws_within (λ e, e ≠ InvalidConfiguration) (Y_insert i content).
Proof.
  apply tw_write_node. intros [] e; simpl; try done.
  unfold yarray_insert. case_decide; simpl; [|by intros [= <-]].
  destruct (insert_content content) as [new [|]]; simpl; [done|]. by intros [= <-].
Qed.

Lemma tw_Y_delete i len : throws_within (λ e, e ≠ InvalidConfiguration) (Y_delete i len).
Proof.
  apply tw_write_node. intros [] e; simpl; try done.
  unfold yarray_delete. repeat case_decide; simpl; try done. by intros [= <-].
Qed.

Lemma tw_Y_delete_from_negative :
  throws_within (λ e, e ≠ InvalidConfiguration) Y_delete_from_negative.
Proof. apply tw_write_node. intros [] e; simpl; try done. by intros [= <-]. Qed.

Lemma tw_Y_length : throws_within (λ e, e ≠ InvalidConfiguration) Y_length.
Proof.
  intros c c' e. unfold Y_length. destruct (node c); try done. by intros [= _ <-].
Qed.

Lemma tw_set_converted kv :
  throws_within (λ e, e ≠ InvalidConfiguration) (set_converted h kv).
Proof. apply tw_and_then; [apply tw_conv|]. intros y. apply tw_Y_set. Qed.

Lemma tw_apply_length value :
  throws_within (λ e, e ≠ InvalidConfiguration) (apply_length value).
Proof.
  unfold apply_length.
  destruct value as [[| |[|]|n|s]|r];
    repeat first [ apply tw_ret | by apply tw_throw | apply tw_Y_delete
                 | apply tw_Y_push | apply tw_Y_delete_from_negative
                 | case_bool_decide
                 | apply tw_and_then; [apply tw_Y_length|intros len] ].
Qed.

Lemma tw_defaultApplyPatch patch :
  throws_within (λ e, e ≠ InvalidConfiguration) (defaultApplyPatch h patch).
Proof.
  destruct patch as [path op value]. unfold defaultApplyPatch.
  destruct (last path) as [property|].
  - apply tw_and_then.
    { intros c c' e. unfold walk. destruct (navigate _ _); [done|]. by intros [= _ <-]. }
    intros base.
    assert (throws_within (λ e, e ≠ InvalidConfiguration)
              (notImplemented (S:=Cell) (A:=unit) (UnsupportedPatch op))) as Hni.
    { by apply tw_throw. }
    assert (∀ k, throws_within (λ e, e ≠ InvalidConfiguration)
              (at_container (removelast path)
                 match op with
                 | PATCH_ADD | PATCH_REPLACE =>
                     let! y := conv h value in Y_set k y
                 | PATCH_REMOVE => Y_delete_key k
                 end)) as Hkey.
    { intros k. apply tw_at_container; [done|].
      destruct op; try done; (apply tw_and_then; [apply tw_conv|]);
        intros y; apply tw_Y_set. }
    assert (throws_within (λ e, e ≠ InvalidConfiguration)
              (at_container (removelast path) (apply_length value))) as Hlen.
    { apply tw_at_container; [done|apply tw_apply_length]. }
    assert (∀ i, throws_within (λ e, e ≠ InvalidConfiguration)
              (at_container (removelast path)
                 match op with
                 | PATCH_ADD => let! y := conv h value in Y_insert i [y]
                 | PATCH_REPLACE =>
                     let! oldValue := Y_get (Idx i) in
                     if is_YMap oldValue && isJSONObject h value then
                       at_container [Idx i]
                         (do! Y_clear in
                          let! entries := Object_entries h value in
                          for_each (set_converted h) entries)
                     else
                       do! Y_delete i 1 in
                       let! y := conv h value in
                       Y_insert i [y]
                 | PATCH_REMOVE => Y_delete i 1
                 end)) as Hidx.
    { intros i. apply tw_at_container; [done|]. destruct op.
      - apply tw_and_then.
        { intros c c' e. unfold Y_get. destruct (yget _ _); [done|]. by intros [= _ <-]. }
        intros oldValue. destruct (is_YMap oldValue && isJSONObject h value).
        + apply tw_at_container; [done|]. apply tw_and_then; [done|]. intros _.
          apply tw_and_then.
          { unfold Object_entries. destruct value as [[| |b|n|s]|r]; try done; by apply tw_throw. }
          intros entries. apply tw_for_each. apply tw_set_converted.
        + apply tw_and_then; [apply tw_Y_delete|]. intros _.
          apply tw_and_then; [apply tw_conv|]. intros y. apply tw_Y_insert.
      - apply tw_and_then; [apply tw_conv|]. intros y. apply tw_Y_insert.
      - apply tw_Y_delete. }
    destruct base as [p|id entries|id items|id prelim|id prelim],
             property as [k|i]; try done; try apply Hkey; try apply Hidx;
      (destruct k as [|a0 k]; [done|]);
      repeat (match goal with
              | |- context [match ?x with _ => _ end] => destruct x
              end; try done).
  - apply tw_and_then.
    { case_bool_decide; [by apply tw_throw|apply tw_ret]. }
    intros _. apply tw_and_then; [done|]. intros target.
    destruct (is_YMap target && isJSONObject h value).
    { apply tw_and_then; [done|]. intros _. apply tw_for_each. apply tw_set_converted. }
    destruct (is_YArray target && isJSONArray h value); [|by apply tw_throw].
    apply tw_and_then; [apply tw_Y_length|]. intros len.
    apply tw_and_then; [apply tw_Y_delete|]. intros _.
    apply tw_and_then; [apply tw_traverse, tw_conv|]. intros ys. apply tw_Y_push.
Qed.
End throws_util.

(* ===================================================================== *)
(** ** The binder: notification, configuration, two binders *)
(* ===================================================================== *)

Lemma elem_of_unsubscribed_by f body :
  f ∈ unsubscribed_by body ↔ CallUnsubscribe f ∈ body.
Proof.
  unfold unsubscribed_by. rewrite list_elem_of_omap. split.
  - intros ([g|g] & Hin & Heq); simplify_eq. done.
  - intros Hin. by exists (CallUnsubscribe f).
Qed.

Lemma keeps_to_itself_only listeners fn :
  keeps_to_itself listeners fn → only_unsubscribes (listeners fn).
Proof. intros Hk a Ha. exists fn. by apply Hk. Qed.

Lemma survivors_keep_to_themselves listeners fs :
  (∀ fn, fn ∈ fs → keeps_to_itself listeners fn) → NoDup fs →
  survivors listeners [] fs = fs.
Proof.
  intros Hk Hnd. apply survivors_all; [|done].
  intros g f Hg Hf. apply elem_of_unsubscribed_by in Hf.
  apply (Hk g Hg) in Hf. by injection Hf.
Qed.

Lemma times_invoked_app fn cs cs' :
  times_invoked fn (cs ++ cs') = times_invoked fn cs + times_invoked fn cs'.
Proof. unfold times_invoked. by rewrite filter_app, length_app. Qed.

Lemma times_invoked_absent i s fn fs :
  fn ∉ fs → times_invoked fn (invocation i s <$> fs) = 0.
Proof.
  induction fs as [|g fs IH]; [done|]. rewrite not_elem_of_cons. intros [Hne Hn].
  rewrite fmap_cons. unfold times_invoked in *.
  rewrite filter_cons_False by (simpl; congruence). by apply IH.
Qed.

Lemma times_invoked_once i s fn fs :
  NoDup fs → fn ∈ fs → times_invoked fn (invocation i s <$> fs) = 1.
Proof.
  induction fs as [|g fs IH]; intros Hnd Hin; [by apply elem_of_nil in Hin|].
  apply NoDup_cons in Hnd as [Hg Hnd]. rewrite fmap_cons.
  apply elem_of_cons in Hin as [->|Hin].
  - change (invocation i s g :: ?l) with ([invocation i s g] ++ l).
    rewrite times_invoked_app, times_invoked_absent by done.
    unfold times_invoked. by rewrite filter_cons_True.
  - unfold times_invoked in *. rewrite filter_cons_False; [by apply IH|].
    simpl. intros ->. done.
Qed.

Lemma times_invoked_count i s fn fs :
  NoDup fs →
  times_invoked fn (invocation i s <$> fs) = if bool_decide (fn ∈ fs) then 1 else 0.
Proof.
  intros Hnd. case_bool_decide.
  - by apply times_invoked_once.
  - by apply times_invoked_absent.
Qed.

Section throws_binder.
Variable h : heap.
Variable yjs_events : YValue → YValue → list YEvent.
Variable listeners : ListenerFn → list Action.

Lemma tw_the_binder i : throws_within (λ e, e = OutsideModel) (the_binder i).
Proof. intros w w' e. unfold the_binder. destruct (_ !! _); [done|]. by intros [= _ <-]. Qed.

Lemma tw_call_listener i fn :
  throws_within (λ e, e = OutsideModel) (call_listener listeners i fn).
Proof.
  unfold call_listener, get. apply tw_and_then.
  { apply tw_and_then; [apply tw_the_binder|]. intros b. apply tw_ret. }
  intros s. apply tw_and_then; [apply tw_modify|]. intros _.
  apply tw_for_each. intros [g|g]; apply tw_modify.
Qed.

Lemma tw_forEach fuel i k :
  throws_within (λ e, e = OutsideModel) (forEach listeners fuel i k).
Proof.
  revert k. induction fuel as [|fuel IH]; intros k; [done|].
  cbn [forEach]. apply tw_and_then; [apply tw_the_binder|]. intros b.
  destruct (subscription b !! k) as [[fn|]|]; [|apply IH|apply tw_ret].
  apply tw_and_then; [apply tw_call_listener|]. intros _. apply IH.
Qed.

Lemma doApplyUpdate_throws i fn w w' e b (P : Error → Prop) :
  binders w !! i = Some b →
  (∀ patch, throws_within P (applyPatch_of h b patch)) →
  doApplyUpdate h i fn w = Throw w' e → P e.
Proof.
  intros Hb Hap. unfold doApplyUpdate, and_then.
  rewrite (the_binder_eq _ _ _ Hb).
  destruct (with_source _ w) as [w1 next|w1 e1|] eqn:Hws; [done| |done].
  intros [= _ <-]. revert Hws. apply tw_zoom.
  unfold applyUpdate. destruct (fn _ _) as [next patches].
  apply tw_and_then; [by apply tw_for_each|]. intros _. apply tw_ret.
Qed.

(** Past the check, [update] throws what the applier throws. *)
Lemma update_checked_throws fuel i fn w w' e b (P : Error → Prop) :
  binders w !! i = Some b →
  (∀ patch, throws_within P (applyPatch_of h b patch)) →
  P OutsideModel →
  update_checked h yjs_events listeners fuel i fn w = Throw w' e → P e.
Proof.
  intros Hb Hap HP. unfold update_checked, and_then, get_state.
  assert (∀ w1, notify listeners fuel i w1 = Throw w' e → P e) as Hn.
  { intros w1 Hw1. apply tw_forEach in Hw1. by subst. }
  destruct (doc w).
  - unfold transact.
    destruct (doApplyUpdate h i fn w) as [w1 []|w1 e1|] eqn:Hdo; [| |done].
    + unfold and_then. rewrite commit_own. apply Hn.
    + rewrite commit_own. intros [= _ <-]. by eapply doApplyUpdate_throws.
  - destruct (doApplyUpdate h i fn w) as [w1 []|w1 e1|] eqn:Hdo; [apply Hn| |done].
    intros [= _ <-]. by eapply doApplyUpdate_throws.
Qed.
End throws_binder.

Lemma applyPatch_of_default h b :
  (∀ o, options b = Some o → applyPatch o = None) →
  ∀ patch, throws_within (λ e, e ≠ InvalidConfiguration) (applyPatch_of h b patch).
Proof.
  intros Hdef patch. unfold applyPatch_of.
  destruct (options b) as [[[custom|] po]|] eqn:Ho; try apply tw_defaultApplyPatch.
  by specialize (Hdef _ eq_refl).
Qed.

Lemma count_absent (f : ListenerFn) fs :
  f ∉ fs → length (filter (λ g, g = f) fs) = 0.
Proof.
  induction fs as [|g fs IH]; [done|]. rewrite not_elem_of_cons. intros [Hne Hn].
  rewrite filter_cons_False by congruence. by apply IH.
Qed.

Lemma count_NoDup (f : ListenerFn) fs :
  NoDup fs → f ∈ fs → length (filter (λ g, g = f) fs) = 1.
Proof.
  induction fs as [|g fs IH]; intros Hnd Hin; [by apply elem_of_nil in Hin|].
  apply NoDup_cons in Hnd as [Hg Hnd]. apply elem_of_cons in Hin as [->|Hin].
  - rewrite filter_cons_True by done. simpl. by rewrite count_absent.
  - rewrite filter_cons_False; [by apply IH|]. intros ->. done.
Qed.

Section subscribe_facts.
Variable h : heap.
Variable yjs_events : YValue → YValue → list YEvent.
Variable listeners : ListenerFn → list Action.

Lemma subscribe_eq i fn w b :
  binders w !! i = Some b →
  subscribe listeners i fn false w
  = Done (put_binder i (set_subscription (set_add fn (subscription b)) b) w) tt.
Proof.
  intros Hb. unfold subscribe, and_then.
  by rewrite (modify_binder_eq _ _ _ b).
Qed.

Lemma unsubscribe_eq i fn w b :
  binders w !! i = Some b →
  unsubscribe i fn w
  = Done (put_binder i (set_subscription (set_delete fn (subscription b)) b) w) tt.
Proof. intros Hb. unfold unsubscribe. by rewrite (modify_binder_eq _ _ _ b). Qed.

Lemma length_set_add (fn : ListenerFn) s : length (set_add fn s) ≤ S (length s).
Proof. unfold set_add. destruct (set_has fn s); [lia|]. rewrite length_app. simpl. lia. Qed.

Lemma elem_of_set_add (fn g : ListenerFn) s :
  g ∈ set_values (set_add fn s) → g ∈ fn :: set_values s.
Proof.
  rewrite set_add_values. case_bool_decide; [by right|].
  rewrite elem_of_app, list_elem_of_singleton. intros [?| ->]; [by right|left].
Qed.

Lemma set_add_has (fn : ListenerFn) s : fn ∈ set_values (set_add fn s).
Proof.
  rewrite set_add_values. case_bool_decide; [done|].
  apply elem_of_app. right. left.
Qed.

(** A transaction of another origin, on a binder whose listeners keep to
    themselves. *)
Lemma observer_calls fuel i events origin w b next :
  origin ≠ MUTATIVE_YJS_ORIGIN →
  binders w !! i = Some b →
  applyYEvents (snapshot b) events = inl next →
  set_wf (subscription b) →
  (∀ f, f ∈ set_values (subscription b) → keeps_to_itself listeners f) →
  length (subscription b) < fuel →
  ∃ w', observer listeners fuel i events origin w = Done w' tt
        ∧ calls w' = calls w ++ (invocation i next <$> set_values (subscription b)).
Proof.
  intros Ho Hb Hev Hwf Hk Hlen. eexists. split.
  { apply (observer_remote listeners fuel i events origin w b next); try done.
    intros f Hf. by apply keeps_to_itself_only, Hk. }
  by rewrite (survivors_keep_to_themselves listeners).
Qed.

(** A change accepted on a binder whose listeners keep to themselves. *)
Lemma update_calls fuel i fn w b next patches c' :
  binders w !! i = Some b →
  accepted h (patchesOptionsInOption b) →
  fn (patchesOptionsInOption b) (snapshot b) = (next, patches) →
  for_each (applyPatch_of h b) patches (cell_of w) = Done c' tt →
  set_wf (subscription b) →
  (∀ f, f ∈ set_values (subscription b) → keeps_to_itself listeners f) →
  length (subscription b) < fuel →
  ∃ w', update h yjs_events listeners fuel i fn w = Done w' tt
        ∧ calls w' = calls w ++ (invocation i next <$> set_values (subscription b)).
Proof.
  intros Hb Hok Hfn Hp Hwf Hk Hlen. eexists. split.
  { apply (update_eq h yjs_events listeners fuel i fn w b next patches c'); try done.
    intros f Hf. by apply keeps_to_itself_only, Hk. }
  by rewrite (survivors_keep_to_themselves listeners).
Qed.
End subscribe_facts.


(* ===================================================================== *)
(** ** The claims of the specification *)
(* ===================================================================== *)

Lemma toPlainValue_toJSON y : toPlainValue y = toJSON y.
Proof. by destruct y. Qed.


Ltac unshared_tac :=
  lazymatch goal with
  | |- unshared _ (VPrim _) _ _ => apply unshared_prim
  | |- unshared _ (VRef _) _ _ =>
      first
        [ eapply unshared_arr; [reflexivity | unshared_tac | set_solver]
        | eapply unshared_obj;
          [reflexivity | repeat constructor; set_solver | reflexivity
          | unshared_tac | set_solver] ]
  | |- unshared_list _ [] _ _ => apply unshared_nil
  | |- unshared_list _ (_ :: _) _ _ =>
      eapply unshared_cons; [unshared_tac | unshared_tac | set_solver]
  | |- unshared_list _ _ _ _ => progress simpl; unshared_tac
  | |- trees _ _ _ => unfold trees; simpl; repeat constructor; unshared_tac
  | |- ∃ R, unshared _ _ _ R => eexists; unshared_tac
  end.


(** An update of one binder leaves the other binders as they were. *)
Lemma update_other_binders h yjs_events listeners fuel i j fn w b next patches c' w' :
  binders w !! i = Some b →
  accepted h (patchesOptionsInOption b) →
  fn (patchesOptionsInOption b) (snapshot b) = (next, patches) →
  for_each (applyPatch_of h b) patches (cell_of w) = Done c' tt →
  set_wf (subscription b) →
  (∀ fn, fn ∈ set_values (subscription b) → only_unsubscribes (listeners fn)) →
  length (subscription b) < fuel →
  update h yjs_events listeners fuel i fn w = Done w' tt →
  i ≠ j → binders w' !! j = binders w !! j.
Proof.
  intros Hb Hok Hfn Hp Hwf Hbody Hlen Hup Hne.
  rewrite (update_eq h yjs_events listeners fuel i fn w b next patches c') in Hup
    by done.
  injection Hup as <-. simpl. by rewrite list_lookup_insert_ne.
Qed.

(** The splice of the specification: [[1, 2, 3, 4]] with the two middle
    elements replaced by [[5, 6]]. *)
Example replay_splice :
  replay 0 [Retain 1; Delete 2; Insert [YPrim (PNum 5); YPrim (PNum 6)]]
         [JPrim (PNum 1); JPrim (PNum 2); JPrim (PNum 3); JPrim (PNum 4)]
  = [JPrim (PNum 1); JPrim (PNum 5); JPrim (PNum 6); JPrim (PNum 4)].
Proof. reflexivity. Qed.

(** Claim C1.  Two binders bound to the same source should end with equal
    snapshots after an [update] on either: the transaction of binder A is to
    be remote for binder B and to update B's snapshot.  Here two binders are
    bound to the empty keyed container of a document and the first one sets
    [count] to 1.  The source and the first binder hold [{ count: 1 }]; the
    observer of the second binder has returned at once, because the origin
    of the transaction is the one symbol all binders share, and its snapshot
    is still [{}]. *)
Theorem update_leaves_other_binder_stale yjs_events listeners :
  ∃ w, (let! a := bind None in
        let! b := bind None in
        update ∅ yjs_events listeners 1 a (set_count 1)) empty_doc = Done w tt
       ∧ toJSON (source w) = JObject [("count", JPrim (PNum 1))]
       ∧ snapshot_of 0 w = Some (JObject [("count", JPrim (PNum 1))])
       ∧ snapshot_of 1 w = Some (JObject []).
Proof.
  eexists. split.
  - unfold and_then. cbn [bind empty_doc].
    apply (update_eq ∅ yjs_events listeners 1 0 (set_count 1) _
             {| snapshot := JObject []; subscription := []; options := None |}
             (set_count 1 js_true (JObject [])).1 (set_count 1 js_true (JObject [])).2
             {| node := YMap 0 [("count", YPrim (PNum 1))]; supply := 1 |}).
    + reflexivity.
    + left. reflexivity.
    + reflexivity.
    + reflexivity.
    + apply NoDup_nil_2.
    + intros fn Hfn. by apply elem_of_nil in Hfn.
    + simpl. lia.
  - split_and!; reflexivity.
Qed.

(** Claim C2, as amended.  A single [update] that produces any number of
    patches, all of which apply, applies them all, publishes the next
    snapshot and then runs one notification pass, with listeners that at
    most call unsubscribe functions of the binder: no subscriber is invoked
    more than once, every invocation receives the next snapshot, and a
    subscriber is invoked exactly once unless a subscriber invoked before
    its turn has unsubscribed it, in which case it is not invoked at all.
    The observer of a binder returns at once, changing nothing, on a
    transaction that carries the binder's own origin. *)
Theorem update_notifies_once h yjs_events listeners fuel i fn w b next patches c' :
  binders w !! i = Some b →
  accepted h (patchesOptionsInOption b) →
  fn (patchesOptionsInOption b) (snapshot b) = (next, patches) →
  for_each (applyPatch_of h b) patches (cell_of w) = Done c' tt →
  set_wf (subscription b) →
  (∀ f, f ∈ set_values (subscription b) → only_unsubscribes (listeners f)) →
  length (subscription b) < fuel →
  (∃ w' invoked,
     update h yjs_events listeners fuel i fn w = Done w' tt
     ∧ calls w' = calls w ++ (invocation i next <$> invoked)
     ∧ invoked `sublist_of` set_values (subscription b)
     ∧ (∀ f, times_invoked f (invocation i next <$> invoked)
             = if bool_decide (f ∈ invoked) then 1 else 0)
     ∧ (∀ l1 f l2, set_values (subscription b) = l1 ++ f :: l2 →
          (f ∈ invoked
           ↔ ∀ g, g ∈ l1 → g ∈ invoked → CallUnsubscribe f ∉ listeners g))
     ∧ snapshot_of i w' = Some next
     ∧ source w' = node c')
  ∧ (∀ fuel' events w0,
       observer listeners fuel' i events MUTATIVE_YJS_ORIGIN w0 = Done w0 tt).
Proof.
  intros Hb Hok Hfn Hp Hwf Hbody Hlen. split; [|intros; apply observer_own].
  eexists _, (survivors listeners [] (set_values (subscription b))). split.
  { by apply (update_eq h yjs_events listeners fuel i fn w b next patches c'). }
  split_and!.
  - done.
  - apply survivors_sublist.
  - intros f. apply times_invoked_count.
    eapply sublist_NoDup; [exact Hwf|apply survivors_sublist].
  - intros l1 f l2 Heq. rewrite Heq. apply survivors_invoked.
    rewrite <- Heq. exact Hwf.
  - unfold snapshot_of. simpl. rewrite list_lookup_insert_eq; [done|].
    by eapply lookup_lt_Some.
  - done.
Qed.

Lemma update_notifies_once_witness :
  (∃ w' invoked,
     update ∅ no_events bodies 4 0 set_a_b (doc_with [4; 1; 2] None) = Done w' tt
     ∧ calls w' = [] ++ (invocation 0 (JObject [("a", JPrim (PNum 1)); ("b", JPrim (PNum 2))])
                           <$> invoked)
     ∧ invoked `sublist_of` [4; 1; 2]
     ∧ (∀ f, times_invoked f (invocation 0 (JObject [("a", JPrim (PNum 1)); ("b", JPrim (PNum 2))])
                                <$> invoked)
             = if bool_decide (f ∈ invoked) then 1 else 0)
     ∧ (∀ l1 f l2, [4; 1; 2] = l1 ++ f :: l2 →
          (f ∈ invoked
           ↔ ∀ g, g ∈ l1 → g ∈ invoked → CallUnsubscribe f ∉ bodies g))
     ∧ snapshot_of 0 w' = Some (JObject [("a", JPrim (PNum 1)); ("b", JPrim (PNum 2))])
     ∧ source w' = YMap 0 [("a", YPrim (PNum 1)); ("b", YPrim (PNum 2))])
  ∧ (∀ fuel' events w0,
       observer bodies fuel' 0 events MUTATIVE_YJS_ORIGIN w0 = Done w0 tt).
Proof.
  apply (update_notifies_once ∅ no_events bodies 4 0 set_a_b (doc_with [4; 1; 2] None)
           (binder_with [4; 1; 2] None)
           (set_a_b js_true (JObject [])).1 (set_a_b js_true (JObject [])).2
           {| node := YMap 0 [("a", YPrim (PNum 1)); ("b", YPrim (PNum 2))]; supply := 1 |}).
  - reflexivity.
  - left. reflexivity.
  - reflexivity.
  - reflexivity.
  - unfold set_wf. simpl. repeat constructor; set_solver.
  - intros f Hf a Ha. simpl in Hf.
    repeat (apply elem_of_cons in Hf as [->|Hf]); simpl in Ha;
      try (by apply elem_of_nil in Ha); try (by apply elem_of_nil in Hf).
    apply list_elem_of_singleton in Ha as ->. eauto.
  - simpl. lia.
Defined.

(** Claim C2 as stated fails: listeners 1 and 2 are subscribed when
    [update] is called, its two patches apply, listener 1 unsubscribes
    listener 2, and listener 2 is not invoked at all. *)
Lemma unsubscribed_subscriber_not_invoked :
  set_values (subscription (binder_with [1; 2] None)) = [1; 2]
  ∧ ∃ w', update ∅ no_events bodies 3 0 set_a_b (doc_with [1; 2] None) = Done w' tt
          ∧ times_invoked 1 (calls w') = 1
          ∧ times_invoked 2 (calls w') = 0.
Proof.
  split; [reflexivity|]. eexists. split; [vm_compute; reflexivity|].
  split; reflexivity.
Qed.

(** Claim C3, as amended.  The patches-generation setting of a binder
    resolves to [true] when the options or the setting are absent or [null].
    When the resolved setting is [true] or an object, [update] passes the
    check, runs the update and throws no InvalidConfiguration error (the
    applier of the caller permitting).  For any other resolved setting, the
    boolean [false] included, [update] throws InvalidConfiguration before
    anything is touched: the state it leaves is the state it found. *)
Theorem update_checks_configuration h yjs_events listeners fuel i fn w b :
  binders w !! i = Some b →
  (∀ patch, throws_within (λ e, e ≠ InvalidConfiguration) (applyPatch_of h b patch)) →
  let v := patchesOptionsInOption b in
  (match options b with
   | Some o => v = nullish (patchesOptions o) js_true
   | None => v = js_true
   end)
  ∧ (accepted h v →
     update h yjs_events listeners fuel i fn w
     = update_checked h yjs_events listeners fuel i fn w
     ∧ ∀ w' e, update h yjs_events listeners fuel i fn w = Throw w' e →
               e ≠ InvalidConfiguration)
  ∧ (¬ accepted h v →
     update h yjs_events listeners fuel i fn w = Throw w InvalidConfiguration).
Proof.
  intros Hb Hap v. split_and!.
  - unfold v, patchesOptionsInOption. by destruct (options b).
  - intros Hok. rewrite (update_accepted h yjs_events listeners fuel i fn w b) by done.
    split; [done|]. intros w' e.
    by apply (update_checked_throws h yjs_events listeners fuel i fn w w' e b
                (λ e, e ≠ InvalidConfiguration)).
  - intros Hno. by apply update_rejected with b.
Qed.

Lemma update_checks_configuration_witness :
  (update options_heap no_events bodies 1 0 (set_count 1)
          (doc_with [] (Some object_options))
   = update_checked options_heap no_events bodies 1 0 (set_count 1)
          (doc_with [] (Some object_options))
   ∧ ∀ w' e, update options_heap no_events bodies 1 0 (set_count 1)
                    (doc_with [] (Some object_options)) = Throw w' e →
             e ≠ InvalidConfiguration)
  ∧ update options_heap no_events bodies 1 0 (set_count 1)
           (doc_with [] (Some {| applyPatch := None;
                                 patchesOptions := VPrim (PStr "invalid") |}))
    = Throw (doc_with [] (Some {| applyPatch := None;
                                  patchesOptions := VPrim (PStr "invalid") |}))
            InvalidConfiguration.
Proof.
  split.
  - apply (update_checks_configuration options_heap no_events bodies 1 0 (set_count 1)
             (doc_with [] (Some object_options))
             (binder_with [] (Some object_options))).
    + reflexivity.
    + apply applyPatch_of_default. intros o [= <-]. reflexivity.
    + right. reflexivity.
  - apply (update_checks_configuration options_heap no_events bodies 1 0 (set_count 1)
             (doc_with [] (Some {| applyPatch := None;
                                   patchesOptions := VPrim (PStr "invalid") |}))
             (binder_with [] (Some {| applyPatch := None;
                                      patchesOptions := VPrim (PStr "invalid") |}))).
    + reflexivity.
    + apply applyPatch_of_default. intros o [= <-]. reflexivity.
    + intros [Heq|Heq]; discriminate Heq.
Defined.

(** Claim C3 as stated fails: [false] is a boolean, and [update] on a
    binder made with [{ patchesOptions: false }] throws the configuration
    error. *)
Lemma false_is_rejected :
  typeof ∅ (VPrim (PBool false)) = TBoolean
  ∧ update ∅ no_events bodies 1 0 (set_count 1) (doc_with [] (Some false_options))
    = Throw (doc_with [] (Some false_options)) InvalidConfiguration.
Proof. split; reflexivity. Qed.

(** Claim C4.  Every plain value free of cycles should convert to a
    container that projects back to it.  The value [[a, a]] with [a = {}] is
    free of cycles and reads as the tree [[{}, {}]]; its conversion throws
    [CircularReference], because the second occurrence of [a] is found in
    [seen]. *)
Theorem shared_value_rejected a :
  tree_of 3 shared_heap (VRef 1) = Some (JArray [JObject []; JObject []])
  ∧ (¬ has_cycle shared_heap (VRef 1))
  ∧ convert shared_heap (VRef 1) a = Throw (S (S a)) CircularReference.
Proof.
  split_and!; [reflexivity| |reflexivity].
  assert (∀ r, reaches shared_heap (VRef 2) r → r = 2) as H2.
  { intros r Hr. apply reaches_inv in Hr as (? & [= <-] & [[-> _]|(c & Hc & _)]); [done|].
    by apply elem_of_nil in Hc. }
  assert (∀ c, c ∈ children shared_heap 1 → c = VRef 2) as Hc1.
  { intros c Hc. change (c ∈ [VRef 2; VRef 2]) in Hc. set_solver. }
  intros (r & Hreach & c & Hc & Hback).
  apply reaches_inv in Hreach as (? & [= <-] & [[-> _]|(c' & Hc' & Hreach)]).
  - apply Hc1 in Hc as ->. by apply H2 in Hback.
  - apply Hc1 in Hc' as ->. apply H2 in Hreach as ->.
    by apply elem_of_nil in Hc.
Qed.

(** Claim C5.  A replace at an index of a sequence by a value that is no
    mapping should delete the element and insert the converted value.  With
    [null] for the value and a keyed container at the index (the case of the
    test 'should handle array element updated to null'), the code takes the
    in-place branch, since [isJSONObject(null)] holds: it clears the
    container and throws a [TypeError] at [Object.entries(null)]. *)
Theorem replace_by_null_throws :
  defaultApplyPatch ∅ {| path := [Key "items"; Idx 1]; op := PATCH_REPLACE;
                         value := VPrim PNull |} items_doc
  = Throw {| node := YMap 0 [("items", YArray 1 [YMap 2 [("id", YPrim (PNum 1))];
                                                 YMap 3 [];
                                                 YMap 4 [("id", YPrim (PNum 3))]])];
             supply := 5 |} TypeError.
Proof. reflexivity. Qed.

(** Claim C6.  For a change event of a sequence container, the deltas
    (retain, delete, insert) are replayed in the order reported against the
    base sequence with one running cursor: retain advances the cursor,
    delete removes that many elements at the cursor, insert splices the
    projections of the inserted elements in at the cursor and advances the
    cursor by their number. *)
Theorem applyYEvent_replays_delta path target ops arr :
  applyYEvent {| e_path := path; e_target := target;
                 e_kind := YArrayEvent (delta_of <$> ops) |} (JArray arr)
  = Done (JArray (replay 0 ops arr)) tt.
Proof. unfold applyYEvent. simpl. by rewrite replay_eq. Qed.

(** Claim C7.  For a patch with the empty path: an op other than replace
    throws NotImplemented and leaves the root as it was.  A replace of a
    keyed root by an object, or of a sequence root by an array, keeps the
    root container, drops what it held and fills it with the conversions of
    the entries of the value, so that the root reads as the value (for a
    keyed root, key by key: the entries of the value in some order).  The
    root is a container of a document or, for a keyed root, one in no
    document, which holds the converted entries aside; the entries of the
    value are trees the engine takes in. *)
Theorem root_patch h value c :
  (∀ op, op ≠ PATCH_REPLACE →
     defaultApplyPatch h {| path := []; op := op; value := value |} c
     = Throw c (NotImplemented (RootOperation op)))
  ∧ (∀ id old r entries ts,
       node c = YMap id old → value = VRef r →
       h !! r = Some (OObj entries) → NoDup entries.*1 → trees h entries.*2 ts →
       Forall (λ t, storable t = true) ts →
       ∃ c' entries' tes,
         defaultApplyPatch h {| path := []; op := PATCH_REPLACE; value := value |} c
         = Done c' tt
         ∧ node c' = YMap id entries'
         ∧ toJSON (node c') = JObject tes
         ∧ tes ≡ₚ zip entries.*1 ts)
  ∧ (∀ id old r entries ts,
       node c = YNewMap id old → value = VRef r →
       h !! r = Some (OObj entries) → NoDup entries.*1 → trees h entries.*2 ts →
       ∃ c' ys,
         defaultApplyPatch h {| path := []; op := PATCH_REPLACE; value := value |} c
         = Done c' tt
         ∧ node c' = YNewMap id (zip entries.*1 ys)
         ∧ content (node c') = JObject (zip entries.*1 ts)
         ∧ toJSON (node c') = JObject [])
  ∧ (∀ id old r items ts,
       node c = YArray id old → value = VRef r →
       h !! r = Some (OArr items) → trees h items ts →
       storable (JArray ts) = true →
       ∃ c' ys,
         defaultApplyPatch h {| path := []; op := PATCH_REPLACE; value := value |} c
         = Done c' tt
         ∧ node c' = YArray id ys
         ∧ toJSON (node c') = JArray ts).
Proof.
  split_and!.
  - intros op Hop. by apply root_not_replace.
  - intros id old r entries ts Hc -> Hr Hnd Ht Hst.
    destruct (root_replace_map h c id old r entries ts) as (c' & ys & Hrun & Hnode & Hys);
      [done..|].
    exists c', (zip entries.*1 ys), (zip entries.*1 ts). split_and!; [done..| |done].
    rewrite Hnode. simpl. rewrite toJSON_zip. by rewrite Hys.
  - intros id old r entries ts Hc -> Hr Hnd Ht.
    destruct (root_replace_new_map h c id old r entries ts) as (c' & ys & Hrun & Hnode & Hys);
      [done..|].
    exists c', ys. split_and!; [done..| |by rewrite Hnode].
    rewrite Hnode. simpl. rewrite content_zip. by rewrite Hys.
  - intros id old r items ts Hc -> Hr Ht Hst.
    destruct (root_replace_array h c id old r items ts) as (c' & ys & Hrun & Hnode & Hys);
      [done..|].
    exists c', ys. split_and!; [done..|].
    rewrite Hnode. simpl. by rewrite Hys.
Qed.

Lemma root_patch_witness :
  defaultApplyPatch plain_heap {| path := []; op := PATCH_ADD; value := VRef 1 |}
                    {| node := YMap 0 [("old", YPrim (PNum 0))]; supply := 1 |}
  = Throw {| node := YMap 0 [("old", YPrim (PNum 0))]; supply := 1 |}
          (NotImplemented (RootOperation PATCH_ADD))
  ∧ (∃ c' entries' tes,
       defaultApplyPatch plain_heap {| path := []; op := PATCH_REPLACE; value := VRef 1 |}
                         {| node := YMap 0 [("old", YPrim (PNum 0))]; supply := 1 |}
       = Done c' tt
       ∧ node c' = YMap 0 entries'
       ∧ toJSON (node c') = JObject tes
       ∧ tes ≡ₚ zip ["x"; "n"] [JObject [("y", JPrim (PStr "z"))];
                                JArray [JPrim (PNum 1); JPrim PNull]])
  ∧ (∃ c' ys,
       defaultApplyPatch plain_heap {| path := []; op := PATCH_REPLACE; value := VRef 1 |}
                         {| node := YNewMap 0 [("old", YPrim (PNum 0))]; supply := 1 |}
       = Done c' tt
       ∧ node c' = YNewMap 0 (zip ["x"; "n"] ys)
       ∧ content (node c')
         = JObject (zip ["x"; "n"] [JObject [("y", JPrim (PStr "z"))];
                                    JArray [JPrim (PNum 1); JPrim PNull]])
       ∧ toJSON (node c') = JObject [])
  ∧ (∃ c' ys,
       defaultApplyPatch plain_heap {| path := []; op := PATCH_REPLACE; value := VRef 5 |}
                         {| node := YArray 0 [YPrim (PNum 7)]; supply := 1 |}
       = Done c' tt
       ∧ node c' = YArray 0 ys
       ∧ toJSON (node c') = JArray [JPrim (PBool true); JObject []]).
Proof.
  split_and!.
  - apply (root_patch plain_heap (VRef 1)
             {| node := YMap 0 [("old", YPrim (PNum 0))]; supply := 1 |}). done.
  - apply (root_patch plain_heap (VRef 1)
             {| node := YMap 0 [("old", YPrim (PNum 0))]; supply := 1 |}
             ) with (old := [("old", YPrim (PNum 0))]) (r := 1)
                    (entries := [("x", VRef 2); ("n", VRef 3)]).
    + reflexivity.
    + reflexivity.
    + reflexivity.
    + repeat constructor; set_solver.
    + unshared_tac.
    + repeat constructor.
  - apply (root_patch plain_heap (VRef 1)
             {| node := YNewMap 0 [("old", YPrim (PNum 0))]; supply := 1 |}
             ) with (old := [("old", YPrim (PNum 0))]) (r := 1)
                    (entries := [("x", VRef 2); ("n", VRef 3)]).
    + reflexivity.
    + reflexivity.
    + reflexivity.
    + repeat constructor; set_solver.
    + unshared_tac.
  - apply (root_patch plain_heap (VRef 5)
             {| node := YArray 0 [YPrim (PNum 7)]; supply := 1 |}
             ) with (old := [YPrim (PNum 7)]) (r := 5)
                    (items := [VPrim (PBool true); VRef 6]).
    + reflexivity.
    + reflexivity.
    + reflexivity.
    + unshared_tac.
    + reflexivity.
Defined.

(** Claim C8, as amended.  The conversion of an array or object that is
    already in [seen] throws CircularReference, and so does the conversion
    of any value from which an object that holds itself, directly or
    through nested arrays and objects, can be reached.  What the tree of a
    document is left with when the conversion throws inside a patch: when
    it is the argument of a set under a key (add or replace) or of an
    insertion at an index (add), the tree is as it was, only identities
    having been drawn; a replace of a keyed root, and the in-place replace
    of a keyed container at an index of a sequence, have emptied the
    container, and it is left holding the entries that came before the
    failing one; a replace of a sequence root leaves the root empty; and
    the replace of an element of a sequence by full replacement leaves the
    sequence without that element. *)
Theorem circular_reference_thrown h :
  (∀ fuel r st, is_Some (h !! r) → r ∈ seen st →
     toYDataType (S fuel) h (VRef r) st = Throw st CircularReference)
  ∧ (∀ v a, has_cycle h v → ∃ a', convert h v a = Throw a' CircularReference)
  ∧ (∀ parent k op value c id entries a',
       op ≠ PATCH_REMOVE →
       navigate parent (node c) = Some (YMap id entries) →
       convert h value (supply c) = Throw a' CircularReference →
       defaultApplyPatch h {| path := parent ++ [Key k]; op := op; value := value |} c
       = Throw {| node := node c; supply := a' |} CircularReference)
  ∧ (∀ parent i value c id items a',
       navigate parent (node c) = Some (YArray id items) →
       convert h value (supply c) = Throw a' CircularReference →
       defaultApplyPatch h {| path := parent ++ [Idx i]; op := PATCH_ADD; value := value |} c
       = Throw {| node := node c; supply := a' |} CircularReference)
  ∧ (∀ c id old r before k v after ts,
       node c = YMap id old →
       h !! r = Some (OObj (before ++ (k, v) :: after)) →
       NoDup (before ++ (k, v) :: after).*1 →
       trees h before.*2 ts → Forall (λ t, storable t = true) ts →
       (∀ a, ∃ a', convert h v a = Throw a' CircularReference) →
       ∃ c' entries' tes,
         defaultApplyPatch h {| path := []; op := PATCH_REPLACE; value := VRef r |} c
         = Throw c' CircularReference
         ∧ node c' = YMap id entries'
         ∧ toJSON (node c') = JObject tes
         ∧ tes ≡ₚ zip before.*1 ts)
  ∧ (∀ c id old r items v,
       node c = YArray id old →
       h !! r = Some (OArr items) → v ∈ items →
       (∀ a, ∃ a', convert h v a = Throw a' CircularReference) →
       ∃ a', defaultApplyPatch h {| path := []; op := PATCH_REPLACE; value := VRef r |} c
             = Throw {| node := YArray id []; supply := a' |} CircularReference)
  ∧ (∀ parent i c id items mid old r before k v after ts,
       navigate parent (node c) = Some (YArray id items) →
       items !! i = Some (YMap mid old) →
       h !! r = Some (OObj (before ++ (k, v) :: after)) →
       NoDup (before ++ (k, v) :: after).*1 →
       trees h before.*2 ts → Forall (λ t, storable t = true) ts →
       (∀ a, ∃ a', convert h v a = Throw a' CircularReference) →
       ∃ c' entries' tes,
         defaultApplyPatch h {| path := parent ++ [Idx i]; op := PATCH_REPLACE;
                                value := VRef r |} c
         = Throw c' CircularReference
         ∧ navigate parent (node c')
           = Some (YArray id (<[i := YMap mid entries']> items))
         ∧ toJSON (YMap mid entries') = JObject tes
         ∧ tes ≡ₚ zip before.*1 ts)
  ∧ (∀ parent i value c id items old a',
       navigate parent (node c) = Some (YArray id items) →
       items !! i = Some old →
       is_YMap old && isJSONObject h value = false →
       convert h value (supply c) = Throw a' CircularReference →
       ∃ c', defaultApplyPatch h {| path := parent ++ [Idx i]; op := PATCH_REPLACE;
                                    value := value |} c
             = Throw c' CircularReference
             ∧ supply c' = a'
             ∧ navigate parent (node c')
               = Some (YArray id (take i items ++ drop (S i) items))).
Proof.
  split_and!.
  - intros fuel r st [[items|entries] Hr] Hin.
    + rewrite (toYDataType_array _ _ _ _ _ Hr). by rewrite bool_decide_eq_true_2.
    + rewrite (toYDataType_object _ _ _ _ _ Hr). by rewrite bool_decide_eq_true_2.
  - intros v a Hcyc. by apply convert_cycle.
  - intros parent k op value c id entries a' Hop Hnav Hconv.
    rewrite (defaultApplyPatch_set h parent k op value c id entries Hop Hnav).
    by rewrite Hconv.
  - intros parent i value c id items a' Hnav Hconv.
    rewrite (defaultApplyPatch_insert h parent i value c id items Hnav).
    by rewrite Hconv.
  - intros c id old r before k v after ts Hc Hr Hnd Ht Hst Hthrow.
    destruct (root_replace_map_throws h c id old r before k v after ts)
      as (c' & ys & Hrun & Hnode & Hys); [done..|].
    exists c', (zip before.*1 ys), (zip before.*1 ts). split_and!; [done..| |done].
    rewrite Hnode. simpl. rewrite toJSON_zip. by rewrite Hys.
  - intros c id old r items v Hc Hr Hv Hthrow.
    by apply (root_replace_array_throws h c id old r items v).
  - intros parent i c id items mid old r before k v after ts Hnav Hi Hr Hnd Ht Hst Hthrow.
    destruct (replace_in_place_throws h parent i c id items mid old r before k v after ts)
      as (c' & ys & Hrun & Hnode & Hys); [done..|].
    exists c', (zip before.*1 ys), (zip before.*1 ts). split_and!; [done| |..|done].
    + rewrite Hnode. by eapply navigate_yreplace.
    + simpl. rewrite toJSON_zip. by rewrite Hys.
  - intros parent i value c id items old a' Hnav Hi Hguard Hconv.
    eexists. split.
    { rewrite (defaultApplyPatch_replace_full h parent i value c id items old) by done.
      by rewrite Hconv. }
    split; [done|]. cbn [node]. by eapply navigate_yreplace.
Qed.

Lemma circular_reference_thrown_witness :
  toYDataType 1 circular_heap (VRef 1) {| seen := {[1]}; alloc := 0 |}
  = Throw {| seen := {[1]}; alloc := 0 |} CircularReference
  ∧ (∃ a', convert circular_heap (VRef 2) 0 = Throw a' CircularReference)
  ∧ (∃ a', convert circular_heap (VRef 3) 0 = Throw a' CircularReference)
  ∧ defaultApplyPatch circular_heap
      {| path := [Key "items"] ++ [Key "data"]; op := PATCH_ADD; value := VRef 1 |}
      {| node := YMap 0 [("items", YMap 1 [])]; supply := 2 |}
    = Throw {| node := YMap 0 [("items", YMap 1 [])]; supply := 3 |} CircularReference
  ∧ defaultApplyPatch circular_heap
      {| path := [Key "items"] ++ [Idx 0]; op := PATCH_ADD; value := VRef 2 |}
      {| node := YMap 0 [("items", YArray 1 [])]; supply := 2 |}
    = Throw {| node := YMap 0 [("items", YArray 1 [])]; supply := 3 |} CircularReference
  ∧ (∃ c' entries' tes,
       defaultApplyPatch circular_heap
         {| path := []; op := PATCH_REPLACE; value := VRef 1 |}
         {| node := YMap 0 [("old", YPrim (PNum 0))]; supply := 1 |}
       = Throw c' CircularReference
       ∧ node c' = YMap 0 entries'
       ∧ toJSON (node c') = JObject tes
       ∧ tes ≡ₚ zip ["a"] [JPrim (PNum 1)])
  ∧ (∃ a', defaultApplyPatch circular_heap
             {| path := []; op := PATCH_REPLACE; value := VRef 2 |}
             {| node := YArray 0 [YPrim (PNum 7)]; supply := 1 |}
           = Throw {| node := YArray 0 []; supply := a' |} CircularReference)
  ∧ (∃ c' entries' tes,
       defaultApplyPatch circular_heap
         {| path := [Key "items"] ++ [Idx 1]; op := PATCH_REPLACE; value := VRef 1 |}
         items_doc
       = Throw c' CircularReference
       ∧ navigate [Key "items"] (node c')
         = Some (YArray 1 (<[1 := YMap 3 entries']>
                             [YMap 2 [("id", YPrim (PNum 1))];
                              YMap 3 [("id", YPrim (PNum 2))];
                              YMap 4 [("id", YPrim (PNum 3))]]))
       ∧ toJSON (YMap 3 entries') = JObject tes
       ∧ tes ≡ₚ zip ["a"] [JPrim (PNum 1)])
  ∧ (∃ c', defaultApplyPatch circular_heap
             {| path := [Key "items"] ++ [Idx 1]; op := PATCH_REPLACE; value := VRef 2 |}
             items_doc
           = Throw c' CircularReference
           ∧ supply c' = 6
           ∧ navigate [Key "items"] (node c')
             = Some (YArray 1 (take 1 [YMap 2 [("id", YPrim (PNum 1))];
                                       YMap 3 [("id", YPrim (PNum 2))];
                                       YMap 4 [("id", YPrim (PNum 3))]]
                               ++ drop 2 [YMap 2 [("id", YPrim (PNum 1))];
                                          YMap 3 [("id", YPrim (PNum 2))];
                                          YMap 4 [("id", YPrim (PNum 3))]]))).
Proof.
  destruct (circular_reference_thrown circular_heap)
    as (Hseen & Hcyc & Hset & Hins & Hroot & Hseq & Hplace & Hfull).
  assert (has_cycle circular_heap (VRef 1)) as Hc1.
  { exists 1. split.
    + apply reaches_here. by eexists.
    + exists (VRef 1). split; [|apply reaches_here; by eexists].
      change (VRef 1 ∈ [VPrim (PNum 1); VRef 1]). set_solver. }
  assert (has_cycle circular_heap (VRef 2)) as Hc2.
  { exists 2. split.
    + apply reaches_here. by eexists.
    + exists (VRef 2). split; [|apply reaches_here; by eexists].
      change (VRef 2 ∈ [VPrim (PNum 1); VPrim (PNum 2); VRef 2]). set_solver. }
  split_and!.
  - apply Hseen; [by eexists|]. simpl. set_solver.
  - by apply Hcyc.
  - apply Hcyc. exists 3. split.
    + apply reaches_here. by eexists.
    + exists (VRef 4). split.
      * change (VRef 4 ∈ [VRef 4]). set_solver.
      * apply reaches_child with (VRef 3); [|apply reaches_here; by eexists].
        change (VRef 3 ∈ [VRef 3]). set_solver.
  - apply (Hset [Key "items"] "data" PATCH_ADD (VRef 1)
             {| node := YMap 0 [("items", YMap 1 [])]; supply := 2 |} 1 []); [done| |];
      reflexivity.
  - apply (Hins [Key "items"] 0 (VRef 2)
             {| node := YMap 0 [("items", YArray 1 [])]; supply := 2 |} 1 []);
      reflexivity.
  - apply (Hroot {| node := YMap 0 [("old", YPrim (PNum 0))]; supply := 1 |}
             0 [("old", YPrim (PNum 0))] 1 [("a", VPrim (PNum 1))] "self" (VRef 1) []).
    + reflexivity.
    + reflexivity.
    + repeat constructor; set_solver.
    + unshared_tac.
    + repeat constructor.
    + intros a. by apply Hcyc.
  - apply (Hseq {| node := YArray 0 [YPrim (PNum 7)]; supply := 1 |}
             0 [YPrim (PNum 7)] 2 [VPrim (PNum 1); VPrim (PNum 2); VRef 2] (VRef 2)).
    + reflexivity.
    + reflexivity.
    + set_solver.
    + intros a. by apply Hcyc.
  - apply (Hplace [Key "items"] 1 items_doc 1 _ 3 [("id", YPrim (PNum 2))] 1
             [("a", VPrim (PNum 1))] "self" (VRef 1) []).
    + reflexivity.
    + reflexivity.
    + reflexivity.
    + repeat constructor; set_solver.
    + unshared_tac.
    + repeat constructor.
    + intros a. by apply Hcyc.
  - apply (Hfull [Key "items"] 1 (VRef 2) items_doc 1 _ (YMap 3 [("id", YPrim (PNum 2))]) 6).
    + reflexivity.
    + reflexivity.
    + reflexivity.
    + reflexivity.
Defined.

(** Claim C8 as stated fails on a replace of the root: the root is cleared
    and [a] is set before the conversion of [self] throws, so the root, which
    held [{ old: 0 }], is left holding [{ a: 1 }]. *)
Lemma root_replace_left_partial :
  defaultApplyPatch circular_heap {| path := []; op := PATCH_REPLACE; value := VRef 1 |}
                    {| node := YMap 0 [("old", YPrim (PNum 0))]; supply := 1 |}
  = Throw {| node := YMap 0 [("a", YPrim (PNum 1))]; supply := 2 |} CircularReference.
Proof. reflexivity. Qed.

(** Claim C9, as amended.  Calling the function [subscribe] returned twice
    is the same as calling it once.  During a notification, with listeners
    that at most call such functions (a listener that subscribes during
    the notification is not covered), the listeners invoked are the
    survivors of those subscribed at the start: each is invoked at most
    once, one that no other listener unsubscribes is invoked, exactly once
    (also when it unsubscribes itself), and one that an invoked listener
    unsubscribed before its turn is not invoked in the notification in
    progress. *)
Theorem unsubscribe_during_notification listeners fuel i w b :
  binders w !! i = Some b →
  set_wf (subscription b) →
  (∀ f, f ∈ set_values (subscription b) → only_unsubscribes (listeners f)) →
  length (subscription b) < fuel →
  let subscribed := set_values (subscription b) in
  (∀ f, (do! unsubscribe i f in unsubscribe i f) w = unsubscribe i f w)
  ∧ ∃ w' invoked,
      notify listeners fuel i w = Done w' tt
      ∧ calls w' = calls w ++ (invocation i (snapshot b) <$> invoked)
      ∧ invoked = survivors listeners [] subscribed
      ∧ invoked `sublist_of` subscribed
      ∧ NoDup invoked
      ∧ (∀ f, times_invoked f (invocation i (snapshot b) <$> invoked) ≤ 1)
      ∧ (∀ f, f ∈ subscribed →
              (∀ g, g ∈ subscribed → g ≠ f → CallUnsubscribe f ∉ listeners g) →
              f ∈ invoked
              ∧ times_invoked f (invocation i (snapshot b) <$> invoked) = 1)
      ∧ (∀ l1 g l2 f, subscribed = l1 ++ g :: l2 → g ∈ invoked → f ∈ l2 →
                      CallUnsubscribe f ∈ listeners g →
                      (f ∉ invoked)
                      ∧ times_invoked f (invocation i (snapshot b) <$> invoked) = 0).
Proof.
  intros Hb Hwf Hbody Hlen subscribed. split.
  { intros f. by apply unsubscribe_twice with b. }
  assert (NoDup (survivors listeners [] subscribed)) as Hnd.
  { eapply sublist_NoDup; [exact Hwf|apply survivors_sublist]. }
  eexists _, (survivors listeners [] subscribed). split_and!.
  - unfold notify. apply (forEach_unsubscribing listeners i fuel 0 w b); [done..|lia].
  - done.
  - done.
  - apply survivors_sublist.
  - done.
  - intros f. rewrite times_invoked_count by done. case_bool_decide; lia.
  - intros f Hf Hothers.
    assert (f ∈ survivors listeners [] subscribed) as Hin.
    { apply survivors_kept; [done|apply not_elem_of_nil| |done].
      intros g Hg Hne. rewrite elem_of_unsubscribed_by. by apply Hothers. }
    split; [done|]. by apply times_invoked_once.
  - intros l1 g l2 f Heq Hg Hf Hun.
    assert (f ∉ survivors listeners [] subscribed) as Hout.
    { rewrite Heq in Hg |- *.
      apply (survivors_skipped listeners l1 g l2 f);
        [done| |done|by apply elem_of_unsubscribed_by].
      rewrite <- Heq. exact Hwf. }
    split; [done|]. by apply times_invoked_absent.
Qed.

Lemma unsubscribe_during_notification_witness :
  (∀ f, (do! unsubscribe 0 f in unsubscribe 0 f) (doc_with [3; 1; 2; 4] None)
        = unsubscribe 0 f (doc_with [3; 1; 2; 4] None))
  ∧ ∃ w' invoked,
      notify bodies 5 0 (doc_with [3; 1; 2; 4] None) = Done w' tt
      ∧ calls w' = [] ++ (invocation 0 (JObject []) <$> invoked)
      ∧ invoked = survivors bodies [] [3; 1; 2; 4]
      ∧ invoked `sublist_of` [3; 1; 2; 4]
      ∧ NoDup invoked
      ∧ (∀ f, times_invoked f (invocation 0 (JObject []) <$> invoked) ≤ 1)
      ∧ (∀ f, f ∈ [3; 1; 2; 4] →
              (∀ g, g ∈ [3; 1; 2; 4] → g ≠ f → CallUnsubscribe f ∉ bodies g) →
              f ∈ invoked
              ∧ times_invoked f (invocation 0 (JObject []) <$> invoked) = 1)
      ∧ (∀ l1 g l2 f, [3; 1; 2; 4] = l1 ++ g :: l2 → g ∈ invoked → f ∈ l2 →
                      CallUnsubscribe f ∈ bodies g →
                      (f ∉ invoked)
                      ∧ times_invoked f (invocation 0 (JObject []) <$> invoked) = 0).
Proof.
  apply (unsubscribe_during_notification bodies 5 0 (doc_with [3; 1; 2; 4] None)
           (binder_with [3; 1; 2; 4] None)).
  - reflexivity.
  - unfold set_wf. simpl. repeat constructor; set_solver.
  - intros f Hf a Ha. simpl in Hf.
    repeat (apply elem_of_cons in Hf as [->|Hf]); simpl in Ha;
      try (by apply elem_of_nil in Ha); try (by apply elem_of_nil in Hf);
      apply list_elem_of_singleton in Ha as ->; eauto.
  - simpl. lia.
Defined.

(** Claim C9 as stated fails: listener 2 is subscribed when the
    notification begins, listener 1 unsubscribes it, and listener 2 is not
    invoked. *)
Lemma removed_listener_skipped :
  set_values (subscription (binder_with [1; 2] None)) = [1; 2]
  ∧ ∃ w', update ∅ no_events bodies 3 0 (set_count 1) (doc_with [1; 2] None) = Done w' tt
          ∧ listener <$> calls w' = [1].
Proof. split; [reflexivity|]. eexists. split; [vm_compute; reflexivity|reflexivity]. Qed.

(** Claim C10, as amended.  Subscribing the same listener twice registers
    it once.  With listeners that leave the subscriptions of the others
    alone, a snapshot change accepted after that, be it an [update] whose
    patches apply or a transaction of another origin whose events apply to
    the snapshot, invokes the listener exactly once; and one call of the
    function either [subscribe] returned removes it, after which such a
    change does not invoke it. *)
Theorem subscribe_twice h yjs_events listeners fuel i f fn w b next patches c' :
  binders w !! i = Some b →
  set_wf (subscription b) →
  accepted h (patchesOptionsInOption b) →
  fn (patchesOptionsInOption b) (snapshot b) = (next, patches) →
  for_each (applyPatch_of h b) patches (cell_of w) = Done c' tt →
  (∀ g, g ∈ f :: set_values (subscription b) → keeps_to_itself listeners g) →
  S (length (subscription b)) < fuel →
  ∃ w2 b2,
    (do! subscribe listeners i f false in subscribe listeners i f false) w
    = Done w2 tt
    ∧ binders w2 !! i = Some b2
    ∧ length (filter (λ g, g = f) (set_values (subscription b2))) = 1
    ∧ (∃ w3 new,
         update h yjs_events listeners fuel i fn w2 = Done w3 tt
         ∧ calls w3 = calls w2 ++ new ∧ times_invoked f new = 1)
    ∧ (∀ events origin seen,
         origin ≠ MUTATIVE_YJS_ORIGIN →
         applyYEvents (snapshot b) events = inl seen →
         ∃ w3 new,
           observer listeners fuel i events origin w2 = Done w3 tt
           ∧ calls w3 = calls w2 ++ new ∧ times_invoked f new = 1)
    ∧ (∃ w4 b4,
         unsubscribe i f w2 = Done w4 tt
         ∧ binders w4 !! i = Some b4
         ∧ (f ∉ set_values (subscription b4))
         ∧ (∃ w5 new,
              update h yjs_events listeners fuel i fn w4 = Done w5 tt
              ∧ calls w5 = calls w4 ++ new ∧ times_invoked f new = 0)
         ∧ (∀ events origin seen,
              origin ≠ MUTATIVE_YJS_ORIGIN →
              applyYEvents (snapshot b) events = inl seen →
              ∃ w5 new,
                observer listeners fuel i events origin w4 = Done w5 tt
                ∧ calls w5 = calls w4 ++ new ∧ times_invoked f new = 0)).
Proof.
  intros Hb Hwf Hok Hfn Hp Hk Hlen.
  set (s2 := set_add f (subscription b)).
  set (b2 := set_subscription s2 b).
  set (w2 := put_binder i b2 w).
  assert (binders w2 !! i = Some b2) as Hb2 by (by eapply binders_put_binder).
  assert (set_wf s2) as Hwf2 by (by apply set_add_wf).
  assert (∀ g, g ∈ set_values s2 → keeps_to_itself listeners g) as Hk2.
  { intros g Hg. by apply Hk, elem_of_set_add. }
  assert (length s2 < fuel) as Hlen2.
  { pose proof (length_set_add f (subscription b)). unfold s2. lia. }
  exists w2, b2. split_and!.
  - unfold and_then. rewrite (subscribe_eq listeners i f w b Hb).
    rewrite (subscribe_eq listeners i f _ (set_subscription s2 b)) by done.
    cbn [subscription set_subscription]. unfold w2, b2, s2.
    by rewrite set_add_idemp, put_binder_put_binder.
  - done.
  - apply count_NoDup; [done|apply set_add_has].
  - destruct (update_calls h yjs_events listeners fuel i fn w2 b2 next patches c')
      as (w3 & Hup & Hcalls); try done.
    exists w3, (invocation i next <$> set_values s2). split_and!; [done..|].
    apply times_invoked_once; [done|apply set_add_has].
  - intros events origin seen Ho Hev.
    destruct (observer_calls listeners fuel i events origin w2 b2 seen)
      as (w3 & Hob & Hcalls); try done.
    exists w3, (invocation i seen <$> set_values s2). split_and!; [done..|].
    apply times_invoked_once; [done|apply set_add_has].
  - set (s4 := set_delete f s2).
    set (b4 := set_subscription s4 b2).
    set (w4 := put_binder i b4 w2).
    assert (binders w4 !! i = Some b4) as Hb4 by (by eapply binders_put_binder).
    assert (set_values s4 = filter (λ g, g ≠ f) (set_values s2)) as Hs4.
    { by apply set_values_delete. }
    assert (f ∉ set_values s4) as Hf4.
    { rewrite Hs4, list_elem_of_filter. naive_solver. }
    assert (set_wf s4) as Hwf4 by (by apply set_delete_wf).
    assert (∀ g, g ∈ set_values s4 → keeps_to_itself listeners g) as Hk4.
    { intros g Hg. apply Hk2. rewrite Hs4 in Hg.
      by apply list_elem_of_filter in Hg as [_ ?]. }
    assert (length s4 < fuel) as Hlen4.
    { unfold s4. by rewrite length_set_delete. }
    exists w4, b4. split_and!; [by apply unsubscribe_eq|done|done|..].
    + destruct (update_calls h yjs_events listeners fuel i fn w4 b4 next patches c')
        as (w5 & Hup & Hcalls); try done.
      exists w5, (invocation i next <$> set_values s4).
      split_and!; [done|done|]. by apply times_invoked_absent.
    + intros events origin seen Ho Hev.
      destruct (observer_calls listeners fuel i events origin w4 b4 seen)
        as (w5 & Hob & Hcalls); try done.
      exists w5, (invocation i seen <$> set_values s4).
      split_and!; [done|done|]. by apply times_invoked_absent.
Qed.

Lemma subscribe_twice_witness :
  ∃ w2 b2,
    (do! subscribe bodies 0 3 false in subscribe bodies 0 3 false) (doc_with [4] None)
    = Done w2 tt
    ∧ binders w2 !! 0 = Some b2
    ∧ length (filter (λ g, g = 3) (set_values (subscription b2))) = 1
    ∧ (∃ w3 new,
         update ∅ no_events bodies 4 0 set_a_b w2 = Done w3 tt
         ∧ calls w3 = calls w2 ++ new ∧ times_invoked 3 new = 1)
    ∧ (∀ events origin seen,
         origin ≠ MUTATIVE_YJS_ORIGIN →
         applyYEvents (JObject []) events = inl seen →
         ∃ w3 new,
           observer bodies 4 0 events origin w2 = Done w3 tt
           ∧ calls w3 = calls w2 ++ new ∧ times_invoked 3 new = 1)
    ∧ (∃ w4 b4,
         unsubscribe 0 3 w2 = Done w4 tt
         ∧ binders w4 !! 0 = Some b4
         ∧ (3 ∉ set_values (subscription b4))
         ∧ (∃ w5 new,
              update ∅ no_events bodies 4 0 set_a_b w4 = Done w5 tt
              ∧ calls w5 = calls w4 ++ new ∧ times_invoked 3 new = 0)
         ∧ (∀ events origin seen,
              origin ≠ MUTATIVE_YJS_ORIGIN →
              applyYEvents (JObject []) events = inl seen →
              ∃ w5 new,
                observer bodies 4 0 events origin w4 = Done w5 tt
                ∧ calls w5 = calls w4 ++ new ∧ times_invoked 3 new = 0)).
Proof.
  apply (subscribe_twice ∅ no_events bodies 4 0 3 set_a_b (doc_with [4] None)
           (binder_with [4] None)
           (set_a_b js_true (JObject [])).1 (set_a_b js_true (JObject [])).2
           {| node := YMap 0 [("a", YPrim (PNum 1)); ("b", YPrim (PNum 2))]; supply := 1 |}).
  - reflexivity.
  - unfold set_wf. simpl. repeat constructor; set_solver.
  - left. reflexivity.
  - reflexivity.
  - reflexivity.
  - intros g Hg a Ha.
    repeat (apply elem_of_cons in Hg as [->|Hg]); simpl in Ha;
      try (by apply elem_of_nil in Ha); try (by apply elem_of_nil in Hg).
    by apply list_elem_of_singleton in Ha.
  - simpl. lia.
Defined.

(** Claim C10 as stated fails: listener 2 is subscribed twice, after
    listener 1, whose body unsubscribes listener 2; the update that follows
    is accepted and applied, and listener 2 is not invoked. *)
Lemma twice_subscribed_listener_skipped :
  ∃ w', (do! subscribe bodies 0 2 false in
         do! subscribe bodies 0 2 false in
         update ∅ no_events bodies 4 0 (set_count 1)) (doc_with [1] None) = Done w' tt
        ∧ snapshot_of 0 w' = Some (JObject [("count", JPrim (PNum 1))])
        ∧ times_invoked 2 (calls w') = 0.
Proof. eexists. split; [vm_compute; reflexivity|]. split; reflexivity. Qed.

(* ===================================================================== *)
(** ** Further properties of the code *)
(* ===================================================================== *)

(** *** The value converter *)

(** X1 (util.ts, isJSONPrimitive, isJSONArray, isJSONObject): the three
    guards overlap in one value only: [null] passes both [isJSONPrimitive] and
    [isJSONObject], no other value passes two of them, and an array passes
    [isJSONArray] alone. *)
Theorem guards_overlap_at_null h v :
  isJSONPrimitive h v && isJSONObject h v = is_null v
  ∧ isJSONArray h v && (isJSONPrimitive h v || isJSONObject h v) = false.
Proof.
  unfold isJSONPrimitive, isJSONObject, isJSONArray.
  destruct v as [[| |b|n|s]|r]; simpl; try done.
  by destruct (h !! r) as [[items|entries]|].
Qed.

(** X2 (util.ts, toYDataType): a call of [toYDataType] from outside always
    ends: it returns a value or throws, and the only error it throws is
    [CircularReference]. *)
Theorem convert_total h v a :
  ∃ a', (∃ y, convert h v a = Done a' y)
        ∨ convert h v a = Throw a' CircularReference.
Proof. apply convert_returns_or_throws. Qed.

Lemma fresh_between_nil a a' : a ≤ a' → fresh_between a a' [].
Proof. intros. split; [constructor|]. intros id Hid. by apply elem_of_nil in Hid. Qed.

Lemma fresh_between_app a b c l1 l2 :
  fresh_between a b l1 → fresh_between b c l2 → a ≤ b → b ≤ c →
  fresh_between a c (l1 ++ l2).
Proof.
  intros [Hnd1 H1] [Hnd2 H2] Hab Hbc. split.
  - apply NoDup_app. split_and!; [done| |done].
    intros id Hi1 Hi2. apply H1 in Hi1. apply H2 in Hi2. lia.
  - intros id [Hi|Hi]%elem_of_app; [apply H1 in Hi|apply H2 in Hi]; lia.
Qed.

Lemma fresh_between_cons a c l :
  fresh_between (S a) c l → S a ≤ c → fresh_between a c (a :: l).
Proof.
  intros [Hnd Hl] Hac. split.
  - apply NoDup_cons. split; [|done]. intros Hin. apply Hl in Hin. lia.
  - intros id [->|Hi]%elem_of_cons; [lia|]. apply Hl in Hi. lia.
Qed.

Lemma flat_map_app' {A B} (f : A → list B) l1 l2 :
  flat_map f (l1 ++ l2) = flat_map f l1 ++ flat_map f l2.
Proof. induction l1; simpl; [done|]. by rewrite IHl1, app_assoc. Qed.

Lemma traverse_allocates conv items st st' ys :
  allocates conv → traverse conv items st = Done st' ys →
  alloc st ≤ alloc st'
  ∧ fresh_between (alloc st) (alloc st') (flat_map container_ids ys).
Proof.
  intros Hc. revert st ys. induction items as [|v items IH]; intros st ys; simpl.
  - intros [= <- <-]. split; [done|]. by apply fresh_between_nil.
  - unfold and_then. destruct (conv v st) as [st1 y| |] eqn:Hv; [|done..].
    destruct (traverse conv items st1) as [st2 ys'| |] eqn:Ht; [|done..].
    simpl. intros [= <- <-].
    destruct (Hc _ _ _ _ Hv) as [Ha1 Hf1]. destruct (IH _ _ Ht) as [Ha2 Hf2].
    split; [lia|]. simpl. by apply fresh_between_app with (alloc st1).
Qed.

Lemma applyJsonObject_with_allocates conv entries id acc st st' y :
  allocates conv →
  applyJsonObject_with conv (YNewMap id acc) entries st = Done st' y →
  NoDup entries.*1 → (∀ k, k ∈ entries.*1 → k ∉ acc.*1) →
  ∃ new, y = YNewMap id (acc ++ new)
         ∧ alloc st ≤ alloc st'
         ∧ fresh_between (alloc st) (alloc st')
                         (flat_map (λ kv, container_ids kv.2) new).
Proof.
  intros Hc. revert acc st. induction entries as [|[k v] entries IH]; intros acc st.
  - simpl. intros [= <- <-] _ _. exists []. rewrite app_nil_r.
    split_and!; [done..|]. by apply fresh_between_nil.
  - rewrite fmap_cons. rewrite applyJsonObject_with_cons.
    destruct (conv v st) as [st1 y1| |] eqn:Hv; [|done..].
    intros Ht [Hk Hnd]%NoDup_cons Hacc.
    rewrite alist_set_fresh in Ht by (apply Hacc; left).
    destruct (IH _ _ Ht Hnd) as (new & -> & Ha2 & Hf2).
    { intros k' Hk'. rewrite fmap_app. simpl.
      rewrite elem_of_app, list_elem_of_singleton.
      intros [?| ->]; [|done]. eapply Hacc; [right|]; done. }
    destruct (Hc _ _ _ _ Hv) as [Ha1 Hf1].
    exists ((k, y1) :: new). rewrite <- app_assoc. split_and!; [done|lia|].
    simpl. by apply fresh_between_app with (alloc st1).
Qed.

Lemma toYDataType_allocates h fuel :
  heap_wf h → allocates (toYDataType fuel h).
Proof.
  intros Hwf. induction fuel as [|fuel IH]; intros v st st' y; [done|].
  destruct v as [p|r].
  { rewrite toYDataType_prim. intros [= <- <-]. split; [done|]. by apply fresh_between_nil. }
  destruct (h !! r) as [[items|entries]|] eqn:Hr.
  - rewrite (toYDataType_array _ _ _ _ _ Hr). case_bool_decide; [done|].
    rewrite applyJsonArray_with_new.
    destruct (traverse _ _ _) as [st1 ys| |] eqn:Ht; [|done..].
    simpl. intros [= <- <-].
    apply (traverse_allocates _ _ _ _ _ IH) in Ht as [Ha Hf]. simpl in *.
    split; [lia|]. apply fresh_between_cons; [done|lia].
  - rewrite (toYDataType_object _ _ _ _ _ Hr). case_bool_decide; [done|].
    intros Ht.
    apply (applyJsonObject_with_allocates _ _ _ _ _ _ _ IH) in Ht
      as (new & -> & Ha & Hf); [|by eapply Hwf|].
    2: { intros k _. apply not_elem_of_nil. }
    simpl in *. split; [lia|]. apply fresh_between_cons; [done|lia].
  - rewrite (toYDataType_other _ _ _ _ Hr). intros [= <- <-].
    split; [done|]. by apply fresh_between_nil.
Qed.

(** X3 (util.ts, toYDataType, applyJsonArray, applyJsonObject): every
    container of a converted value is a new one: the containers of the
    result are pairwise distinct and none of them existed before the call. *)
Theorem convert_allocates_fresh h v a a' y :
  heap_wf h → convert h v a = Done a' y →
  a ≤ a' ∧ NoDup (container_ids y) ∧ ∀ id, id ∈ container_ids y → a ≤ id < a'.
Proof.
  intros Hwf. unfold convert, zoom.
  destruct (toYDataType _ _ _ _) as [st' y'| |] eqn:Ht; [|done..].
  intros [= <- <-].
  apply (toYDataType_allocates h _ Hwf) in Ht as [Ha [Hnd Hf]]. simpl in *.
  split_and!; [done|done|]. intros id Hid. by apply Hf.
Qed.

Lemma plain_heap_wf : heap_wf plain_heap.
Proof.
  intros r entries Hr. unfold plain_heap in Hr.
  repeat (rewrite lookup_insert in Hr; case_decide;
          [simplify_eq; repeat constructor; set_solver|]).
  apply lookup_singleton_Some in Hr as [_ [= <-]]. constructor.
Qed.

Lemma convert_allocates_fresh_witness :
  7 ≤ 10 ∧ NoDup [7; 8; 9] ∧ ∀ id, id ∈ [7; 8; 9] → 7 ≤ id < 10.
Proof.
  apply (convert_allocates_fresh plain_heap (VRef 1) 7 10
           (YNewMap 7 [("x", YNewMap 8 [("y", YPrim (PStr "z"))]);
                       ("n", YNewArray 9 [YPrim (PNum 1); YPrim PNull])])).
  - apply plain_heap_wf.
  - reflexivity.
Defined.

(** X4 (util.ts, toYDataType, toPlainValue): a value in which no array or
    object occurs twice is converted.  The result is a primitive, or a new
    container that is in no document yet: it holds the value aside and
    [toPlainValue] reads it as empty.  Once the engine has taken it into a
    document, which it does when no array of the value holds [undefined],
    [toPlainValue] of what is stored is the value again. *)
Theorem roundtrip_without_sharing h v t R a :
  unshared h v t R →
  ∃ a' y,
    convert h v a = Done a' y
    ∧ content y = t
    ∧ toPlainValue y = match t with
                       | JPrim p => JPrim p
                       | JArray _ => JArray []
                       | JObject _ => JObject []
                       end
    ∧ (storable t = true →
       ∃ y', integrate y = (y', true) ∧ toPlainValue y' = t).
Proof.
  intros Hv. destruct (convert_unshared h v t R a Hv) as (a' & y & Hconv & Hy & Hnew).
  exists a', y. split_and!; [done|done|by rewrite toPlainValue_new, Hy|].
  intros Hst. rewrite <- Hy in Hst.
  destruct (integrate_new y Hnew Hst) as (y' & Hint & Hread).
  exists y'. split; [done|]. by rewrite toPlainValue_toJSON, Hread.
Qed.

Lemma roundtrip_without_sharing_witness :
  ∃ a' y,
    convert plain_heap (VRef 1) 0 = Done a' y
    ∧ content y = JObject [("x", JObject [("y", JPrim (PStr "z"))]);
                           ("n", JArray [JPrim (PNum 1); JPrim PNull])]
    ∧ toPlainValue y = JObject []
    ∧ ∃ y', integrate y = (y', true)
            ∧ toPlainValue y'
              = JObject [("x", JObject [("y", JPrim (PStr "z"))]);
                         ("n", JArray [JPrim (PNum 1); JPrim PNull])].
Proof.
  assert (∃ R, unshared plain_heap (VRef 1)
                 (JObject [("x", JObject [("y", JPrim (PStr "z"))]);
                           ("n", JArray [JPrim (PNum 1); JPrim PNull])]) R)
    as [R Hu] by unshared_tac.
  destruct (roundtrip_without_sharing plain_heap (VRef 1) _ R 0 Hu)
    as (a' & y & Hconv & Hy & Hread & Hint).
  exists a', y. split_and!; [done..|]. by apply Hint.
Defined.

Section reads_back_facts.
Variable h : heap.
Hypothesis Hclosed : ∀ r r', VRef r' ∈ children h r → is_Some (h !! r').

Lemma traverse_reads_back conv items st st' ys :
  reads_back h conv →
  (∀ r, VRef r ∈ items → is_Some (h !! r)) →
  traverse conv items st = Done st' ys →
  ∃ ts R, unshared_list h items ts R ∧ R ## seen st ∧ seen st' = seen st ∪ R.
Proof.
  intros Hc. revert st ys. induction items as [|v items IH]; intros st ys Hdef; simpl.
  - intros [= <- <-]. exists [], ∅. split_and!; [constructor|set_solver..].
  - unfold and_then. destruct (conv v st) as [st1 y| |] eqn:Hv; [|done..].
    destruct (traverse conv items st1) as [st2 ys'| |] eqn:Ht; [|done..].
    simpl. intros [= <- <-].
    assert (∀ r, v = VRef r → is_Some (h !! r)) as Hdv
      by (intros r ->; apply Hdef; left).
    assert (∀ r, VRef r ∈ items → is_Some (h !! r)) as Hdi
      by (intros r ?; apply Hdef; by right).
    destruct (Hc _ _ _ _ Hdv Hv) as (t & R1 & Hu & Hd1 & Hs1).
    destruct (IH _ _ Hdi Ht) as (ts & R2 & Hl & Hd2 & Hs2).
    exists (t :: ts), (R1 ∪ R2). split_and!.
    + constructor; [done..|]. rewrite Hs1 in Hd2. set_solver.
    + rewrite Hs1 in Hd2. set_solver.
    + rewrite Hs2, Hs1. set_solver.
Qed.

Lemma applyJsonObject_with_reads_back conv entries id acc st st' y :
  reads_back h conv →
  (∀ r, VRef r ∈ entries.*2 → is_Some (h !! r)) →
  applyJsonObject_with conv (YNewMap id acc) entries st = Done st' y →
  ∃ ts R, unshared_list h entries.*2 ts R ∧ R ## seen st ∧ seen st' = seen st ∪ R.
Proof.
  intros Hc. revert acc st. induction entries as [|[k v] entries IH]; intros acc st Hdef.
  - simpl. intros [= <- <-]. exists [], ∅. split_and!; [constructor|set_solver..].
  - rewrite fmap_cons in *. rewrite applyJsonObject_with_cons.
    destruct (conv v st) as [st1 y1| |] eqn:Hv; [|done..].
    intros Ht.
    assert (∀ r, v = VRef r → is_Some (h !! r)) as Hdv
      by (intros r ->; apply Hdef; left).
    assert (∀ r, VRef r ∈ entries.*2 → is_Some (h !! r)) as Hdi
      by (intros r ?; apply Hdef; by right).
    destruct (Hc _ _ _ _ Hdv Hv) as (t & R1 & Hu & Hd1 & Hs1).
    destruct (IH _ _ Hdi Ht) as (ts & R2 & Hl & Hd2 & Hs2).
    exists (t :: ts), (R1 ∪ R2). split_and!.
    + constructor; [done..|]. rewrite Hs1 in Hd2. set_solver.
    + rewrite Hs1 in Hd2. set_solver.
    + rewrite Hs2, Hs1. set_solver.
Qed.

Lemma unshared_list_length items ts R :
  unshared_list h items ts R → length items = length ts.
Proof. induction 1; simpl; auto. Qed.

Lemma toYDataType_reads_back fuel :
  heap_wf h → reads_back h (toYDataType fuel h).
Proof.
  intros Hwf. induction fuel as [|fuel IH]; intros v st st' y Hdef; [done|].
  destruct v as [p|r].
  { rewrite toYDataType_prim. intros [= <- <-]. exists (JPrim p), ∅.
    split_and!; [constructor|set_solver..]. }
  destruct (h !! r) as [[items|entries]|] eqn:Hr.
  - rewrite (toYDataType_array _ _ _ _ _ Hr). case_bool_decide as Hin; [done|].
    rewrite applyJsonArray_with_new.
    destruct (traverse _ _ _) as [st1 ys| |] eqn:Ht; [|done..].
    simpl. intros [= <- <-].
    apply (traverse_reads_back _ _ _ _ _ IH) in Ht as (ts & R & Hl & Hd & Hs).
    2: { intros r' Hr'. apply (Hclosed r). unfold children. by rewrite Hr. }
    simpl in *. exists (JArray ts), ({[r]} ∪ R). split_and!.
    + apply unshared_arr with items; [done..|set_solver].
    + set_solver.
    + rewrite Hs. set_solver.
  - rewrite (toYDataType_object _ _ _ _ _ Hr). case_bool_decide as Hin; [done|].
    intros Ht.
    apply (applyJsonObject_with_reads_back _ _ _ _ _ _ _ IH) in Ht as (ts & R & Hl & Hd & Hs).
    2: { intros r' Hr'. apply (Hclosed r). unfold children. by rewrite Hr. }
    simpl in *. exists (JObject (zip entries.*1 ts)), ({[r]} ∪ R).
    pose proof (unshared_list_length _ _ _ Hl) as Hlen. rewrite !length_fmap in Hlen.
    split_and!.
    + apply unshared_obj with entries; [done|by eapply Hwf| | |set_solver].
      * apply fst_zip. rewrite length_fmap. lia.
      * rewrite snd_zip; [done|]. rewrite length_fmap. lia.
    + set_solver.
    + rewrite Hs. set_solver.
  - destruct (Hdef r eq_refl) as [? ?]. congruence.
Qed.
End reads_back_facts.

(** X5 (util.ts, toYDataType): on a heap whose objects have distinct keys
    and hold only primitives, arrays and plain objects, [toYDataType]
    returns exactly for the values that are trees in which no array or
    object occurs twice; for every other value it throws. *)
Theorem convert_succeeds_iff_unshared h v a :
  heap_wf h → plain_closed h v →
  ((∃ a' y, convert h v a = Done a' y) ↔ (∃ t R, unshared h v t R))
  ∧ ((¬ ∃ t R, unshared h v t R) →
     ∃ a', convert h v a = Throw a' CircularReference).
Proof.
  intros Hwf [Hv Hclosed].
  assert ((∃ a' y, convert h v a = Done a' y) → ∃ t R, unshared h v t R) as Hback.
  { intros (a' & y & Hconv). unfold convert, zoom in Hconv.
    destruct (toYDataType _ _ _ _) as [st' y'| |] eqn:Ht; [|done..].
    apply (toYDataType_reads_back h Hclosed _ Hwf) in Ht as (t & R & Hu & _); [|done].
    eauto. }
  split; [split; [done|]|].
  - intros (t & R & Hu).
    destruct (convert_unshared h v t R a Hu) as (a' & y & Hconv & _). eauto.
  - intros Hno. destruct (convert_returns_or_throws h v a) as [a' [[y Hy]|Hthrow]].
    + destruct Hno. apply Hback. eauto.
    + by exists a'.
Qed.

Lemma plain_heap_closed : plain_closed plain_heap (VRef 1).
Proof.
  split.
  - intros r [= <-]. eexists. reflexivity.
  - intros r r' Hin. unfold children in Hin.
    destruct (plain_heap !! r) as [o|] eqn:Hr; [|by apply elem_of_nil in Hin].
    unfold plain_heap in Hr.
    repeat (rewrite lookup_insert in Hr; case_decide;
            [simplify_eq; simpl in Hin;
             repeat (apply elem_of_cons in Hin as [Hin|Hin];
                     [simplify_eq; eexists; reflexivity|]);
             by apply elem_of_nil in Hin|]).
    apply lookup_singleton_Some in Hr as [_ <-]. by apply elem_of_nil in Hin.
Qed.

Lemma convert_succeeds_iff_unshared_witness :
  ((∃ a' y, convert plain_heap (VRef 1) 0 = Done a' y)
   ↔ (∃ t R, unshared plain_heap (VRef 1) t R))
  ∧ ((¬ ∃ t R, unshared plain_heap (VRef 1) t R) →
     ∃ a', convert plain_heap (VRef 1) 0 = Throw a' CircularReference).
Proof.
  apply convert_succeeds_iff_unshared; [apply plain_heap_wf|apply plain_heap_closed].
Defined.

(** *** The patch applier *)

Section keyed_patches.
Variable h : heap.

Lemma defaultApplyPatch_remove_key parent k value c id entries :
  navigate parent (node c) = Some (YMap id entries) →
  defaultApplyPatch h {| path := parent ++ [Key k]; op := PATCH_REMOVE; value := value |} c
  = Done {| node := yreplace parent (YMap id (alist_delete k entries)) (node c);
            supply := supply c |} tt.
Proof.
  intros Hnav. unfold defaultApplyPatch.
  destruct (last_removelast parent (Key k)) as [-> ->].
  unfold and_then at 1. rewrite (walk_eq _ _ _ Hnav).
  cbn match. by rewrite (at_container_eq _ _ _ _ Hnav).
Qed.

(** X6 (bind.ts, defaultApplyPatch): a patch whose path ends with a string
    key below a keyed container of a document converts the value and sets
    the key to it ([add] and [replace] alike), or deletes the key
    ([remove], the value is not looked at).  When the engine takes the
    converted value in, the patch returns and reading the key gives what
    was stored; when it does not, the patch throws a [TypeError] and the
    key holds what was stored before the engine gave up.  A value that is
    a tree, no array of which holds [undefined], is taken in, and the key
    then reads as that tree.  After a remove the key reads [undefined].  In
    each case the container keeps its identity, and its other keys read as
    before. *)
Theorem keyed_patch parent k op value c id entries :
  navigate parent (node c) = Some (YMap id entries) →
  (op ≠ PATCH_REMOVE → ∀ a y y' ok,
     convert h value (supply c) = Done a y → integrate y = (y', ok) →
     ∃ c' entries',
       defaultApplyPatch h {| path := parent ++ [Key k]; op := op; value := value |} c
       = (if ok then Done c' tt else Throw c' TypeError)
       ∧ supply c' = a
       ∧ navigate parent (node c') = Some (YMap id entries')
       ∧ alist_get k entries' = Some y'
       ∧ ∀ k', k' ≠ k → alist_get k' entries' = alist_get k' entries)
  ∧ (op ≠ PATCH_REMOVE → ∀ t R,
     unshared h value t R → storable t = true →
     ∃ c' entries' y',
       defaultApplyPatch h {| path := parent ++ [Key k]; op := op; value := value |} c
       = Done c' tt
       ∧ navigate parent (node c') = Some (YMap id entries')
       ∧ alist_get k entries' = Some y'
       ∧ toJSON y' = t
       ∧ ∀ k', k' ≠ k → alist_get k' entries' = alist_get k' entries)
  ∧ (op = PATCH_REMOVE →
     ∃ c' entries',
       defaultApplyPatch h {| path := parent ++ [Key k]; op := op; value := value |} c
       = Done c' tt
       ∧ supply c' = supply c
       ∧ navigate parent (node c') = Some (YMap id entries')
       ∧ alist_get k entries' = None
       ∧ ∀ k', k' ≠ k → alist_get k' entries' = alist_get k' entries).
Proof.
  intros Hnav.
  assert (op ≠ PATCH_REMOVE → ∀ a y y' ok,
     convert h value (supply c) = Done a y → integrate y = (y', ok) →
     ∃ c' entries',
       defaultApplyPatch h {| path := parent ++ [Key k]; op := op; value := value |} c
       = (if ok then Done c' tt else Throw c' TypeError)
       ∧ supply c' = a
       ∧ navigate parent (node c') = Some (YMap id entries')
       ∧ alist_get k entries' = Some y'
       ∧ ∀ k', k' ≠ k → alist_get k' entries' = alist_get k' entries) as Hset.
  { intros Hop a y y' ok Hconv Hint.
    exists {| node := yreplace parent (YMap id (alist_set k y' entries)) (node c);
              supply := a |}, (alist_set k y' entries).
    split_and!.
    - rewrite (defaultApplyPatch_set h parent k op value c id entries Hop Hnav).
      rewrite Hconv, Hint. by destruct ok.
    - done.
    - cbn [node]. by eapply navigate_yreplace.
    - apply alist_get_set_eq.
    - intros k' Hne. by apply alist_get_set_ne. }
  split_and!.
  - exact Hset.
  - intros Hop t R Hu Hst.
    destruct (convert_unshared h value t R (supply c) Hu) as (a & y & Hconv & Hy & Hnew).
    rewrite <- Hy in Hst. destruct (integrate_new y Hnew Hst) as (y' & Hint & Hread).
    destruct (Hset Hop a y y' true Hconv Hint) as (c' & entries' & Hrun & _ & Hnav' & Hk & Hothers).
    exists c', entries', y'. split_and!; [done..| |done]. by rewrite Hread.
  - intros ->.
    exists {| node := yreplace parent (YMap id (alist_delete k entries)) (node c);
              supply := supply c |}, (alist_delete k entries).
    split_and!.
    + by rewrite (defaultApplyPatch_remove_key parent k value c id entries Hnav).
    + done.
    + cbn [node]. by eapply navigate_yreplace.
    + apply alist_get_delete_eq.
    + intros k' Hne. by apply alist_get_delete_ne.
Qed.
End keyed_patches.

Section other_patches.
Variable h : heap.

Lemma defaultApplyPatch_remove_index parent i value c id items :
  navigate parent (node c) = Some (YArray id items) →
  i < length items →
  defaultApplyPatch h {| path := parent ++ [Idx i]; op := PATCH_REMOVE; value := value |} c
  = Done {| node := yreplace parent (YArray id (take i items ++ drop (S i) items)) (node c);
            supply := supply c |} tt.
Proof.
  intros Hnav Hi. unfold defaultApplyPatch.
  destruct (last_removelast parent (Idx i)) as [-> ->].
  unfold and_then at 1. rewrite (walk_eq _ _ _ Hnav).
  cbn match. rewrite (at_container_eq _ _ _ _ Hnav).
  by rewrite Y_delete_eq, yarray_delete_one.
Qed.

Lemma yarray_insert_one i y items :
  i ≤ length items → y ≠ yundefined →
  yarray_insert i [y] items
  = (take i items ++ (integrate y).1 :: drop i items,
     if (integrate y).2 then None else Some TypeError).
Proof.
  intros Hi Hy. unfold yarray_insert. rewrite decide_True by done.
  by rewrite insert_content_one.
Qed.

Lemma yarray_insert_undefined i items :
  i ≤ length items →
  yarray_insert i [yundefined] items = (items, Some TypeError).
Proof.
  intros Hi. unfold yarray_insert. rewrite decide_True by done.
  rewrite insert_content_undefined. cbn. by rewrite take_drop.
Qed.

(** X7 (bind.ts, defaultApplyPatch): below a sequence of a document, [add]
    at an index up to the length converts the value and inserts it in
    front of the element at that index: the patch returns when the engine
    takes the converted value in, and throws a [TypeError], with what was
    stored before the engine gave up at that index, when it does not.  A
    value that is a tree other than [undefined], no array of which holds
    [undefined], is taken in and reads as that tree.  An [add] of a value
    that converts to [undefined] throws a [TypeError] and an [add] at an
    index beyond the length throws [LengthExceeded], both leaving the tree
    as it was.  [remove] at an index below the length takes out that one
    element and converts nothing. *)
Theorem sequence_patch parent i value c id items :
  navigate parent (node c) = Some (YArray id items) →
  (i ≤ length items → ∀ a y y' ok,
     convert h value (supply c) = Done a y → y ≠ yundefined →
     integrate y = (y', ok) →
     ∃ c', defaultApplyPatch h {| path := parent ++ [Idx i]; op := PATCH_ADD;
                                  value := value |} c
           = (if ok then Done c' tt else Throw c' TypeError)
           ∧ navigate parent (node c')
             = Some (YArray id (take i items ++ y' :: drop i items)))
  ∧ (i ≤ length items → ∀ t R,
     unshared h value t R → t ≠ undefined → storable t = true →
     ∃ c' y', defaultApplyPatch h {| path := parent ++ [Idx i]; op := PATCH_ADD;
                                     value := value |} c = Done c' tt
              ∧ navigate parent (node c')
                = Some (YArray id (take i items ++ y' :: drop i items))
              ∧ toJSON y' = t)
  ∧ (i ≤ length items → ∀ a,
     convert h value (supply c) = Done a yundefined →
     defaultApplyPatch h {| path := parent ++ [Idx i]; op := PATCH_ADD;
                            value := value |} c
     = Throw {| node := node c; supply := a |} TypeError)
  ∧ (length items < i → ∀ a y,
     convert h value (supply c) = Done a y →
     defaultApplyPatch h {| path := parent ++ [Idx i]; op := PATCH_ADD;
                            value := value |} c
     = Throw {| node := node c; supply := a |} LengthExceeded)
  ∧ (i < length items →
     ∃ c', defaultApplyPatch h {| path := parent ++ [Idx i]; op := PATCH_REMOVE;
                                  value := value |} c = Done c' tt
           ∧ navigate parent (node c')
             = Some (YArray id (take i items ++ drop (S i) items))
           ∧ supply c' = supply c).
Proof.
  intros Hnav.
  assert (i ≤ length items → ∀ a y y' ok,
     convert h value (supply c) = Done a y → y ≠ yundefined →
     integrate y = (y', ok) →
     ∃ c', defaultApplyPatch h {| path := parent ++ [Idx i]; op := PATCH_ADD;
                                  value := value |} c
           = (if ok then Done c' tt else Throw c' TypeError)
           ∧ navigate parent (node c')
             = Some (YArray id (take i items ++ y' :: drop i items))) as Hadd.
  { intros Hi a y y' ok Hconv Hy Hint.
    exists {| node := yreplace parent
                        (YArray id (take i items ++ y' :: drop i items)) (node c);
              supply := a |}.
    split.
    - rewrite (defaultApplyPatch_insert h parent i value c id items Hnav).
      rewrite Hconv, yarray_insert_one, Hint by done. by destruct ok.
    - cbn [node]. by eapply navigate_yreplace. }
  split_and!.
  - exact Hadd.
  - intros Hi t R Hu Hdef Hst.
    destruct (convert_unshared h value t R (supply c) Hu) as (a & y & Hconv & Hy & Hnew).
    rewrite <- Hy in Hst. destruct (integrate_new y Hnew Hst) as (y' & Hint & Hread).
    destruct (Hadd Hi a y y' true Hconv) as (c' & Hrun & Hnav'); [|done|].
    { intros ->. by destruct Hdef. }
    exists c', y'. split_and!; [done..|]. by rewrite Hread.
  - intros Hi a Hconv.
    rewrite (defaultApplyPatch_insert h parent i value c id items Hnav).
    rewrite Hconv, yarray_insert_undefined by done. cbn [fst snd finished].
    by rewrite (yreplace_same _ _ _ Hnav).
  - intros Hi a y Hconv.
    rewrite (defaultApplyPatch_insert h parent i value c id items Hnav).
    rewrite Hconv. unfold yarray_insert. rewrite decide_False by lia.
    cbn [fst snd finished]. by rewrite (yreplace_same _ _ _ Hnav).
  - intros Hi. eexists. split.
    { by rewrite (defaultApplyPatch_remove_index parent i value c id items Hnav). }
    split; [|done]. cbn [node]. by eapply navigate_yreplace.
Qed.

(** X8 (bind.ts, defaultApplyPatch): [replace] at an index of a sequence
    of a document keeps a keyed container found there when the new value is
    a plain object, giving it the entries of the object (the container
    keeps its identity and its place, and reads as the object, key by
    key); the entries are trees the engine takes in.  Otherwise the element
    is deleted and the converted value inserted in its place, the other
    elements staying: the patch returns when the engine takes the converted
    value in, and throws a [TypeError] when it does not; when the value
    converts to [undefined], the [TypeError] leaves the sequence without
    the element. *)
Theorem sequence_replace parent i value c id items :
  navigate parent (node c) = Some (YArray id items) →
  (∀ mid old r entries ts,
     items !! i = Some (YMap mid old) → value = VRef r →
     h !! r = Some (OObj entries) → NoDup entries.*1 → trees h entries.*2 ts →
     Forall (λ t, storable t = true) ts →
     ∃ c' entries' tes,
       defaultApplyPatch h {| path := parent ++ [Idx i]; op := PATCH_REPLACE;
                              value := value |} c = Done c' tt
       ∧ navigate parent (node c')
         = Some (YArray id (<[i := YMap mid entries']> items))
       ∧ toJSON (YMap mid entries') = JObject tes
       ∧ tes ≡ₚ zip entries.*1 ts)
  ∧ (∀ old a y y' ok,
       items !! i = Some old → is_YMap old && isJSONObject h value = false →
       convert h value (supply c) = Done a y → y ≠ yundefined →
       integrate y = (y', ok) →
       ∃ c', defaultApplyPatch h {| path := parent ++ [Idx i]; op := PATCH_REPLACE;
                                    value := value |} c
             = (if ok then Done c' tt else Throw c' TypeError)
             ∧ navigate parent (node c') = Some (YArray id (<[i := y']> items)))
  ∧ (∀ old a,
       items !! i = Some old → is_YMap old && isJSONObject h value = false →
       convert h value (supply c) = Done a yundefined →
       ∃ c', defaultApplyPatch h {| path := parent ++ [Idx i]; op := PATCH_REPLACE;
                                    value := value |} c
             = Throw c' TypeError
             ∧ navigate parent (node c')
               = Some (YArray id (take i items ++ drop (S i) items))).
Proof.
  intros Hnav. split_and!.
  - intros mid old r entries ts Hi -> Hr Hnd Ht Hst.
    destruct (traverse_convert_stored h _ _ (supply c) Ht Hst)
      as (a' & ys & ys' & Htr & Hys & Hread & _).
    exists {| node := yreplace parent
                        (YArray id (<[i := YMap mid (zip entries.*1 ys')]> items))
                        (node c);
              supply := a' |}, (zip entries.*1 ys'), (zip entries.*1 ts).
    split_and!.
    + by apply (defaultApplyPatch_replace_in_place h parent i r entries c id
                  items mid old a' ys ys').
    + cbn [node]. by eapply navigate_yreplace.
    + simpl. rewrite toJSON_zip. by rewrite Hread.
    + done.
  - intros old a y y' ok Hi Hguard Hconv Hy Hint.
    exists {| node := yreplace parent (YArray id (<[i := y']> items)) (node c);
              supply := a |}.
    split; [|cbn [node]; by eapply navigate_yreplace].
    rewrite (defaultApplyPatch_replace_full h parent i value c id items old) by done.
    rewrite Hconv, insert_content_one, Hint by done. cbn [fst snd app].
    rewrite insert_take_drop by (by eapply lookup_lt_Some).
    by destruct ok.
  - intros old a Hi Hguard Hconv. eexists. split.
    { rewrite (defaultApplyPatch_replace_full h parent i value c id items old) by done.
      rewrite Hconv, insert_content_undefined. cbn [fst snd app finished]. done. }
    cbn [node]. by eapply navigate_yreplace.
Qed.

(** X9 (bind.ts, defaultApplyPatch): a patch of the key [length] of a
    sequence with a number [n] leaves a sequence of exactly [n] elements:
    the first [n] of the old ones, filled up with [null]; nothing is
    converted. *)
Theorem length_patch parent op (n : nat) c id items :
  navigate parent (node c) = Some (YArray id items) →
  ∃ c' items',
    defaultApplyPatch h {| path := parent ++ [Key "length"]; op := op;
                           value := VPrim (PNum (Z.of_nat n)) |} c = Done c' tt
    ∧ navigate parent (node c') = Some (YArray id items')
    ∧ length items' = n
    ∧ items' = take n items ++ replicate (n - length items) (YPrim PNull)
    ∧ supply c' = supply c.
Proof.
  intros Hnav.
  exists {| node := yreplace parent
                      (YArray id (take n items ++ replicate (n - length items) (YPrim PNull)))
                      (node c);
            supply := supply c |},
         (take n items ++ replicate (n - length items) (YPrim PNull)).
  split_and!; [|by eapply navigate_yreplace| |done|done].
  - unfold defaultApplyPatch.
    destruct (last_removelast parent (Key "length")) as [-> ->].
    unfold and_then at 1. rewrite (walk_eq _ _ _ Hnav).
    cbn match. rewrite (at_container_eq _ _ _ _ Hnav).
    unfold apply_length, and_then. cbn [Y_length node supply].
    rewrite bool_decide_eq_false_2 by lia. rewrite Nat2Z.id.
    destruct (decide (n < length items)) as [Hlt|Hge].
    + rewrite bool_decide_eq_true_2 by done.
      rewrite Y_delete_eq. unfold yarray_delete.
      rewrite decide_False by lia. rewrite decide_True by lia.
      cbn [fst snd finished node supply].
      replace (n + (length items - n)) with (length items) by lia.
      rewrite drop_all. replace (n - length items) with 0 by lia. done.
    + rewrite bool_decide_eq_false_2 by done.
      destruct (decide (length items < n)) as [Hgt|Heq].
      * rewrite bool_decide_eq_true_2 by done.
        unfold Y_push, write_node. cbn [node supply ypush].
        rewrite insert_content_nulls. cbn [fst snd finished node supply].
        by rewrite take_ge by lia.
      * rewrite bool_decide_eq_false_2 by done. cbn [ret node supply].
        rewrite take_ge by lia. replace (n - length items) with 0 by lia.
        cbn [replicate]. rewrite app_nil_r.
        done.
  - rewrite length_app, length_take, length_replicate. lia.
Qed.

(** X10 (bind.ts, defaultApplyPatch): a patch whose parent path runs
    through a primitive throws a [TypeError], and a patch that ends with
    an index below a keyed container, with a key other than [length] below
    a sequence, or below a primitive throws [NotImplemented]; in both cases
    the tree is as it was. *)
Theorem unapplicable_patch_untouched parent s op value c :
  (navigate parent (node c) = None →
   defaultApplyPatch h {| path := parent ++ [s]; op := op; value := value |} c
   = Throw c TypeError)
  ∧ (∀ base, navigate parent (node c) = Some base → unsupported base s →
     defaultApplyPatch h {| path := parent ++ [s]; op := op; value := value |} c
     = Throw c (NotImplemented (UnsupportedPatch op))).
Proof.
  split.
  - intros Hnav. unfold defaultApplyPatch.
    destruct (last_removelast parent s) as [-> ->].
    unfold and_then, walk. by rewrite Hnav.
  - intros base Hnav Hun. unfold defaultApplyPatch.
    destruct (last_removelast parent s) as [-> ->].
    unfold and_then at 1. rewrite (walk_eq _ _ _ Hnav).
    destruct base as [p|id entries|id items|id prelim|id prelim], s as [k|i];
      simpl in Hun; try done;
      repeat (match goal with
              | |- context [match ?x with _ => _ end] => destruct x
              end; try done).
Qed.

(** X11 (bind.ts, defaultApplyPatch): a replace of the root by a value that
    is neither an object for a keyed root nor an array for a sequence root
    throws [NotImplemented] and leaves the root as it was; [null] counts as
    an object, so a replace of a keyed root by [null] empties the root. *)
Theorem root_replace_mismatch value c :
  (is_YMap (node c) && isJSONObject h value = false →
   is_YArray (node c) && isJSONArray h value = false →
   defaultApplyPatch h {| path := []; op := PATCH_REPLACE; value := value |} c
   = Throw c (NotImplemented RootReplace))
  ∧ (∀ id old, node c = YMap id old → value = VPrim PNull →
     defaultApplyPatch h {| path := []; op := PATCH_REPLACE; value := value |} c
     = Done {| node := YMap id []; supply := supply c |} tt).
Proof.
  split.
  - intros Hm Ha. unfold defaultApplyPatch. simpl. unfold and_then. simpl.
    by rewrite Hm, Ha.
  - intros id old Hc ->. destruct c as [n a]. simpl in Hc. by subst n.
Qed.
End other_patches.

Lemma keyed_patch_witness :
  (∃ c' entries',
     defaultApplyPatch plain_heap
       {| path := [Key "items"; Idx 0] ++ [Key "id"]; op := PATCH_REPLACE;
          value := VRef 3 |} items_doc
     = Done c' tt
     ∧ supply c' = 6
     ∧ navigate [Key "items"; Idx 0] (node c') = Some (YMap 2 entries')
     ∧ alist_get "id" entries' = Some (YArray 5 [YPrim (PNum 1); YPrim PNull])
     ∧ ∀ k', k' ≠ "id" → alist_get k' entries' = alist_get k' [("id", YPrim (PNum 1))])
  ∧ (∃ c' entries' y',
       defaultApplyPatch plain_heap
         {| path := [Key "items"; Idx 0] ++ [Key "id"]; op := PATCH_ADD;
            value := VRef 3 |} items_doc
       = Done c' tt
       ∧ navigate [Key "items"; Idx 0] (node c') = Some (YMap 2 entries')
       ∧ alist_get "id" entries' = Some y'
       ∧ toJSON y' = JArray [JPrim (PNum 1); JPrim PNull]
       ∧ ∀ k', k' ≠ "id" → alist_get k' entries' = alist_get k' [("id", YPrim (PNum 1))])
  ∧ (∃ c' entries',
       defaultApplyPatch plain_heap
         {| path := [Key "items"; Idx 0] ++ [Key "id"]; op := PATCH_REMOVE;
            value := VPrim PUndefined |} items_doc
       = Done c' tt
       ∧ supply c' = supply items_doc
       ∧ navigate [Key "items"; Idx 0] (node c') = Some (YMap 2 entries')
       ∧ alist_get "id" entries' = None
       ∧ ∀ k', k' ≠ "id" → alist_get k' entries' = alist_get k' [("id", YPrim (PNum 1))]).
Proof.
  split_and!.
  - apply (proj1 (keyed_patch plain_heap [Key "items"; Idx 0] "id" PATCH_REPLACE
                    (VRef 3) items_doc 2 [("id", YPrim (PNum 1))] eq_refl)
             ltac:(discriminate) 6 (YNewArray 5 [YPrim (PNum 1); YPrim PNull])
             (YArray 5 [YPrim (PNum 1); YPrim PNull]) true eq_refl eq_refl).
  - assert (∃ R, unshared plain_heap (VRef 3) (JArray [JPrim (PNum 1); JPrim PNull]) R)
      as [R Hu] by unshared_tac.
    apply (proj1 (proj2 (keyed_patch plain_heap [Key "items"; Idx 0] "id" PATCH_ADD
                           (VRef 3) items_doc 2 [("id", YPrim (PNum 1))] eq_refl))
             ltac:(discriminate) _ R Hu eq_refl).
  - apply (proj2 (proj2 (keyed_patch plain_heap [Key "items"; Idx 0] "id" PATCH_REMOVE
                           (VPrim PUndefined) items_doc 2 [("id", YPrim (PNum 1))] eq_refl))
             eq_refl).
Defined.

Lemma sequence_patch_witness :
  (∃ c', defaultApplyPatch plain_heap
           {| path := [Key "items"] ++ [Idx 3]; op := PATCH_ADD;
              value := VPrim (PStr "end") |} items_doc = Done c' tt
         ∧ navigate [Key "items"] (node c')
           = Some (YArray 1 (take 3 [YMap 2 [("id", YPrim (PNum 1))];
                                     YMap 3 [("id", YPrim (PNum 2))];
                                     YMap 4 [("id", YPrim (PNum 3))]]
                             ++ YPrim (PStr "end")
                                :: drop 3 [YMap 2 [("id", YPrim (PNum 1))];
                                           YMap 3 [("id", YPrim (PNum 2))];
                                           YMap 4 [("id", YPrim (PNum 3))]])))
  ∧ (∃ c' y', defaultApplyPatch plain_heap
                {| path := [Key "items"] ++ [Idx 0]; op := PATCH_ADD;
                   value := VRef 2 |} items_doc = Done c' tt
              ∧ navigate [Key "items"] (node c')
                = Some (YArray 1 (take 0 [YMap 2 [("id", YPrim (PNum 1))];
                                          YMap 3 [("id", YPrim (PNum 2))];
                                          YMap 4 [("id", YPrim (PNum 3))]]
                                  ++ y' :: drop 0 [YMap 2 [("id", YPrim (PNum 1))];
                                                   YMap 3 [("id", YPrim (PNum 2))];
                                                   YMap 4 [("id", YPrim (PNum 3))]]))
              ∧ toJSON y' = JObject [("y", JPrim (PStr "z"))])
  ∧ defaultApplyPatch plain_heap
      {| path := [Key "items"] ++ [Idx 1]; op := PATCH_ADD;
         value := VPrim PUndefined |} items_doc
    = Throw {| node := node items_doc; supply := 5 |} TypeError
  ∧ defaultApplyPatch plain_heap
      {| path := [Key "items"] ++ [Idx 4]; op := PATCH_ADD;
         value := VPrim (PNum 0) |} items_doc
    = Throw {| node := node items_doc; supply := 5 |} LengthExceeded
  ∧ (∃ c', defaultApplyPatch plain_heap
             {| path := [Key "items"] ++ [Idx 1]; op := PATCH_REMOVE;
                value := VPrim PUndefined |} items_doc = Done c' tt
           ∧ navigate [Key "items"] (node c')
             = Some (YArray 1 (take 1 [YMap 2 [("id", YPrim (PNum 1))];
                                       YMap 3 [("id", YPrim (PNum 2))];
                                       YMap 4 [("id", YPrim (PNum 3))]]
                               ++ drop 2 [YMap 2 [("id", YPrim (PNum 1))];
                                          YMap 3 [("id", YPrim (PNum 2))];
                                          YMap 4 [("id", YPrim (PNum 3))]]))
           ∧ supply c' = supply items_doc).
Proof.
  split_and!.
  - apply (proj1 (sequence_patch plain_heap [Key "items"] 3 (VPrim (PStr "end"))
                    items_doc 1 _ eq_refl)
             ltac:(simpl; lia) 5 (YPrim (PStr "end")) (YPrim (PStr "end")) true
             eq_refl ltac:(discriminate) eq_refl).
  - assert (∃ R, unshared plain_heap (VRef 2) (JObject [("y", JPrim (PStr "z"))]) R)
      as [R Hu] by unshared_tac.
    apply (proj1 (proj2 (sequence_patch plain_heap [Key "items"] 0 (VRef 2)
                           items_doc 1 _ eq_refl))
             ltac:(simpl; lia) _ R Hu ltac:(discriminate) eq_refl).
  - apply (proj1 (proj2 (proj2 (sequence_patch plain_heap [Key "items"] 1
                                  (VPrim PUndefined) items_doc 1 _ eq_refl)))
             ltac:(simpl; lia) 5 eq_refl).
  - apply (proj1 (proj2 (proj2 (proj2 (sequence_patch plain_heap [Key "items"] 4
                                         (VPrim (PNum 0)) items_doc 1 _ eq_refl))))
             ltac:(simpl; lia) 5 (YPrim (PNum 0)) eq_refl).
  - apply (proj2 (proj2 (proj2 (proj2 (sequence_patch plain_heap [Key "items"] 1
                                         (VPrim PUndefined) items_doc 1 _ eq_refl))))
             ltac:(simpl; lia)).
Defined.

Lemma sequence_replace_witness :
  (∃ c' entries' tes,
     defaultApplyPatch plain_heap
       {| path := [Key "items"] ++ [Idx 1]; op := PATCH_REPLACE;
          value := VRef 2 |} items_doc = Done c' tt
     ∧ navigate [Key "items"] (node c')
       = Some (YArray 1 (<[1 := YMap 3 entries']>
                           [YMap 2 [("id", YPrim (PNum 1))];
                            YMap 3 [("id", YPrim (PNum 2))];
                            YMap 4 [("id", YPrim (PNum 3))]]))
     ∧ toJSON (YMap 3 entries') = JObject tes
     ∧ tes ≡ₚ zip ["y"] [JPrim (PStr "z")])
  ∧ (∃ c', defaultApplyPatch plain_heap
             {| path := [Key "items"] ++ [Idx 1]; op := PATCH_REPLACE;
                value := VPrim (PNum 9) |} items_doc = Done c' tt
           ∧ navigate [Key "items"] (node c')
             = Some (YArray 1 (<[1 := YPrim (PNum 9)]>
                                 [YMap 2 [("id", YPrim (PNum 1))];
                                  YMap 3 [("id", YPrim (PNum 2))];
                                  YMap 4 [("id", YPrim (PNum 3))]])))
  ∧ (∃ c', defaultApplyPatch plain_heap
             {| path := [Key "items"] ++ [Idx 1]; op := PATCH_REPLACE;
                value := VPrim PUndefined |} items_doc = Throw c' TypeError
           ∧ navigate [Key "items"] (node c')
             = Some (YArray 1 (take 1 [YMap 2 [("id", YPrim (PNum 1))];
                                       YMap 3 [("id", YPrim (PNum 2))];
                                       YMap 4 [("id", YPrim (PNum 3))]]
                               ++ drop 2 [YMap 2 [("id", YPrim (PNum 1))];
                                          YMap 3 [("id", YPrim (PNum 2))];
                                          YMap 4 [("id", YPrim (PNum 3))]]))).
Proof.
  split_and!.
  - apply (proj1 (sequence_replace plain_heap [Key "items"] 1 (VRef 2)
                    items_doc 1 _ eq_refl)
             3 [("id", YPrim (PNum 2))] 2 [("y", VPrim (PStr "z"))]
             [JPrim (PStr "z")] eq_refl eq_refl eq_refl).
    + repeat constructor. set_solver.
    + unshared_tac.
    + repeat constructor.
  - apply (proj1 (proj2 (sequence_replace plain_heap [Key "items"] 1 (VPrim (PNum 9))
                           items_doc 1 _ eq_refl))
             (YMap 3 [("id", YPrim (PNum 2))]) 5 (YPrim (PNum 9)) (YPrim (PNum 9)) true
             eq_refl eq_refl eq_refl ltac:(discriminate) eq_refl).
  - apply (proj2 (proj2 (sequence_replace plain_heap [Key "items"] 1 (VPrim PUndefined)
                           items_doc 1 _ eq_refl))
             (YMap 3 [("id", YPrim (PNum 2))]) 5 eq_refl eq_refl eq_refl).
Defined.

Lemma length_patch_witness :
  ∃ c' items',
    defaultApplyPatch plain_heap
      {| path := [Key "items"] ++ [Key "length"]; op := PATCH_REPLACE;
         value := VPrim (PNum (Z.of_nat 1)) |} items_doc = Done c' tt
    ∧ navigate [Key "items"] (node c') = Some (YArray 1 items')
    ∧ length items' = 1
    ∧ items' = take 1 [YMap 2 [("id", YPrim (PNum 1))];
                       YMap 3 [("id", YPrim (PNum 2))];
                       YMap 4 [("id", YPrim (PNum 3))]]
               ++ replicate (1 - 3) (YPrim PNull)
    ∧ supply c' = supply items_doc.
Proof.
  apply (length_patch plain_heap [Key "items"] PATCH_REPLACE 1 items_doc 1 _ eq_refl).
Defined.

Lemma unapplicable_patch_untouched_witness :
  defaultApplyPatch plain_heap
    {| path := [Key "items"; Idx 0; Key "id"; Key "x"] ++ [Key "y"]; op := PATCH_ADD;
       value := VPrim (PNum 1) |} items_doc
  = Throw items_doc TypeError
  ∧ defaultApplyPatch plain_heap
      {| path := [] ++ [Idx 0]; op := PATCH_ADD; value := VPrim (PNum 1) |} items_doc
    = Throw items_doc (NotImplemented (UnsupportedPatch PATCH_ADD)).
Proof.
  split.
  - apply (proj1 (unapplicable_patch_untouched plain_heap
                    [Key "items"; Idx 0; Key "id"; Key "x"] (Key "y") PATCH_ADD
                    (VPrim (PNum 1)) items_doc) eq_refl).
  - apply (proj2 (unapplicable_patch_untouched plain_heap [] (Idx 0) PATCH_ADD
                    (VPrim (PNum 1)) items_doc) _ eq_refl I).
Defined.

Lemma root_replace_mismatch_witness :
  defaultApplyPatch plain_heap
    {| path := []; op := PATCH_REPLACE; value := VRef 3 |} items_doc
  = Throw items_doc (NotImplemented RootReplace)
  ∧ defaultApplyPatch plain_heap
      {| path := []; op := PATCH_REPLACE; value := VPrim PNull |} items_doc
    = Done {| node := YMap 0 []; supply := supply items_doc |} tt.
Proof.
  split.
  - apply (proj1 (root_replace_mismatch plain_heap (VRef 3) items_doc)
             eq_refl eq_refl).
  - apply (proj2 (root_replace_mismatch plain_heap (VPrim PNull) items_doc)
             0 _ eq_refl eq_refl).
Defined.

(** *** Failed updates, transactions of others, unbind *)

Section transactions.
Variable h : heap.
Variable yjs_events : YValue → YValue → list YEvent.
Variable listeners : ListenerFn → list Action.

(** X12 (bind.ts, applyUpdate, update): when a patch of an update throws,
    [update] throws the same error, the snapshot stays the one before the
    update and no listener is invoked; the source keeps what the patches
    before the failing one did to it. *)
Theorem failed_update fuel i fn w b next patches c' e :
  binders w !! i = Some b →
  accepted h (patchesOptionsInOption b) →
  fn (patchesOptionsInOption b) (snapshot b) = (next, patches) →
  for_each (applyPatch_of h b) patches (cell_of w) = Throw c' e →
  ∃ w', update h yjs_events listeners fuel i fn w = Throw w' e
        ∧ source w' = node c'
        ∧ binders w' = binders w
        ∧ calls w' = calls w.
Proof.
  intros Hb Hok Hfn Hp. exists (set_source c' w). split; [|done].
  rewrite (update_accepted _ _ _ _ _ _ _ b) by done.
  assert (doApplyUpdate h i fn w = Throw (set_source c' w) e) as Hdo.
  { unfold doApplyUpdate, and_then. rewrite (the_binder_eq _ _ _ Hb).
    unfold with_source, zoom, applyUpdate. rewrite Hfn. unfold and_then.
    fold (cell_of w). by rewrite Hp. }
  unfold update_checked, and_then, get_state. destruct (doc w).
  - unfold transact. rewrite Hdo. by rewrite commit_own.
  - by rewrite Hdo.
Qed.

Lemma notified_put_binder events i b cs w js :
  i ∉ js →
  js ≫= notified events (put_binder i b (add_calls cs w)) = js ≫= notified events w.
Proof.
  induction js as [|j js IH]; [done|].
  intros [Hne Hi]%not_elem_of_cons. cbn [mbind list_bind]. rewrite IH by done.
  f_equal. unfold notified. by rewrite binders_put_binder_ne.
Qed.

Lemma observers_run fuel events origin js : ∀ w,
  origin ≠ MUTATIVE_YJS_ORIGIN → NoDup js →
  (∀ j, j ∈ js → ready listeners fuel events w j) →
  ∃ w', for_each (λ i, observer listeners fuel i events origin) js w = Done w' tt
        ∧ source w' = source w ∧ ids w' = ids w ∧ doc w' = doc w
        ∧ observers w' = observers w
        ∧ calls w' = calls w ++ (js ≫= notified events w)
        ∧ (∀ j b, j ∈ js → binders w !! j = Some b →
             snapshot_of j w' = Some (next_snapshot events b))
        ∧ (∀ j, j ∉ js → binders w' !! j = binders w !! j).
Proof.
  induction js as [|i js IH]; intros w Ho Hnd Hready.
  - exists w. simpl. rewrite app_nil_r. split_and!; try done.
    intros j b Hj. by apply elem_of_nil in Hj.
  - apply NoDup_cons in Hnd as [Hi Hnd].
    destruct (Hready i) as (b & Hb & [next Hnext] & Hwf & Hk & Hlen); [left|].
    cbn [for_each]. unfold and_then.
    rewrite (observer_remote listeners fuel i events origin w b next); try done.
    2: { intros f Hf. by apply keeps_to_itself_only, Hk. }
    rewrite (survivors_keep_to_themselves listeners) by done.
    set (b1 := set_subscription _ _). set (w1 := put_binder i b1 _).
    destruct (IH w1 Ho Hnd) as (w' & Hrun & Hs & Hids & Hdoc & Hobs & Hcalls & Hin & Hout).
    { intros j Hj. destruct (Hready j) as (bj & Hbj & Hrest); [by right|].
      exists bj. split; [|done]. unfold w1.
      rewrite binders_put_binder_ne; [done|]. intros ->. done. }
    exists w'. split_and!; try done.
    + rewrite Hcalls. unfold w1. rewrite notified_put_binder by done.
      change (calls (put_binder i b1 (add_calls ?cs w))) with (calls w ++ cs).
      rewrite <- app_assoc. f_equal. cbn [mbind list_bind]. f_equal.
      unfold notified. rewrite Hb. unfold next_snapshot. by rewrite Hnext.
    + intros j bj [->|Hj]%elem_of_cons Hbj.
      * unfold snapshot_of. rewrite (Hout i Hi). unfold w1.
        erewrite binders_put_binder by done. simpl.
        unfold next_snapshot. simplify_eq. by rewrite Hnext.
      * apply Hin; [done|]. unfold w1. rewrite binders_put_binder_ne; [done|].
        intros ->. done.
    + intros j [Hne Hj]%not_elem_of_cons. rewrite (Hout j Hj). unfold w1.
      by rewrite binders_put_binder_ne.
Qed.

Lemma external_eq fuel mutation origin w c' :
  origin ≠ MUTATIVE_YJS_ORIGIN →
  mutation (cell_of w) = Done c' tt →
  let events := yjs_events (source w) (node c') in
  events ≠ [] →
  NoDup (observers w) →
  (∀ j, j ∈ observers w → ready listeners fuel events w j) →
  ∃ w', external yjs_events listeners fuel mutation origin w = Done w' tt
        ∧ source w' = node c'
        ∧ observers w' = observers w
        ∧ calls w' = calls w ++ (observers w ≫= notified events w)
        ∧ (∀ j b, j ∈ observers w → binders w !! j = Some b →
             snapshot_of j w' = Some (next_snapshot events b))
        ∧ (∀ j, j ∉ observers w → binders w' !! j = binders w !! j).
Proof.
  intros Ho Hm events Hev Hnd Hready.
  destruct (observers_run fuel events origin (observers w) (set_source c' w) Ho Hnd)
    as (w' & Hrun & Hs & _ & _ & Hobs & Hcalls & Hin & Hout).
  { done. }
  exists w'. split_and!; try done.
  unfold external, transact, with_source, zoom. fold (cell_of w). rewrite Hm.
  unfold commit, get_state, and_then. cbn [source set_source].
  fold events. destruct events as [|ev evs] eqn:Hevs; [done|].
  cbn [observers set_source]. by rewrite Hrun.
Qed.

(** X13 (bind.ts, observer): a transaction of another origin that changed
    the source reaches every binder still bound: each replays the events on
    its own snapshot and then invokes its listeners once with the new
    snapshot, the binders in the order in which they were bound (listeners
    that keep to themselves). *)
Theorem remote_transaction_reaches_binders fuel mutation origin w c' :
  origin ≠ MUTATIVE_YJS_ORIGIN →
  mutation (cell_of w) = Done c' tt →
  yjs_events (source w) (node c') ≠ [] →
  NoDup (observers w) →
  (∀ j, j ∈ observers w →
     ready listeners fuel (yjs_events (source w) (node c')) w j) →
  ∃ w', external yjs_events listeners fuel mutation origin w = Done w' tt
        ∧ source w' = node c'
        ∧ calls w' = calls w
                     ++ (observers w ≫= notified (yjs_events (source w) (node c')) w)
        ∧ (∀ j b, j ∈ observers w → binders w !! j = Some b →
             snapshot_of j w'
             = Some (next_snapshot (yjs_events (source w) (node c')) b)).
Proof.
  intros Ho Hm Hev Hnd Hready.
  destruct (external_eq fuel mutation origin w c' Ho Hm Hev Hnd Hready)
    as (w' & ? & ? & ? & ? & ? & ?).
  by exists w'.
Qed.

(** X14 (bind.ts, unbind): after [unbind] a transaction of another origin
    leaves the binder alone: its snapshot and its subscriptions are as
    before and none of its listeners is invoked, although the source
    changed. *)
Theorem unbind_stops_observation fuel i mutation origin w c' :
  origin ≠ MUTATIVE_YJS_ORIGIN →
  mutation (cell_of w) = Done c' tt →
  yjs_events (source w) (node c') ≠ [] →
  NoDup (observers w) →
  (∀ j, j ∈ observers w → j ≠ i →
     ready listeners fuel (yjs_events (source w) (node c')) w j) →
  ∃ w', (do! unbind i in external yjs_events listeners fuel mutation origin) w
        = Done w' tt
        ∧ source w' = node c'
        ∧ (i ∉ observers w')
        ∧ binders w' !! i = binders w !! i
        ∧ (∀ c, c ∈ calls w' → by_binder c = i → c ∈ calls w).
Proof.
  intros Ho Hm Hev Hnd Hready.
  set (w0 := set_observers (filter (λ j, j ≠ i) (observers w)) w).
  destruct (external_eq fuel mutation origin w0 c' Ho Hm Hev)
    as (w' & Hrun & Hs & Hobs & Hcalls & Hin & Hout).
  { unfold w0. simpl. by apply NoDup_filter. }
  { intros j [Hne Hj]%list_elem_of_filter. by apply Hready. }
  assert (i ∉ observers w0) as Hi.
  { unfold w0. simpl. rewrite list_elem_of_filter. naive_solver. }
  exists w'. split_and!; try done.
  - by rewrite Hobs.
  - by rewrite (Hout i Hi).
  - intros c Hc Hby. rewrite Hcalls in Hc. apply elem_of_app in Hc as [Hc|Hc]; [done|].
    apply list_elem_of_bind in Hc as (j & Hc & Hj).
    unfold notified in Hc. destruct (binders w0 !! j) as [bj|]; [|by apply elem_of_nil in Hc].
    apply list_elem_of_fmap in Hc as (f & -> & _). simpl in Hby. by subst j.
Qed.

End transactions.

Lemma failed_update_witness :
  ∃ w', update circular_heap no_events bodies 5 0 set_a_self (doc_with [1] None)
        = Throw w' CircularReference
        ∧ source w' = YMap 0 [("a", YPrim (PNum 1))]
        ∧ binders w' = binders (doc_with [1] None)
        ∧ calls w' = calls (doc_with [1] None).
Proof.
  eapply (failed_update circular_heap no_events bodies 5 0 set_a_self
            (doc_with [1] None) (binder_with [1] None)
            (JObject [("a", JPrim (PNum 1))]) _
            {| node := YMap 0 [("a", YPrim (PNum 1))]; supply := 2 |}
            CircularReference eq_refl).
  - by left.
  - reflexivity.
  - reflexivity.
Defined.

Lemma bodies_ready :
  ready bodies 5
        (count_added (YMap 0 []) (YMap 0 [("count", YPrim (PNum 1))]))
        (doc_with [3; 4] None) 0.
Proof.
  exists (binder_with [3; 4] None). split_and!.
  - reflexivity.
  - eexists. reflexivity.
  - repeat constructor; set_solver.
  - intros fn Hfn a Ha.
    repeat (apply elem_of_cons in Hfn as [->|Hfn];
            [repeat (apply elem_of_cons in Ha as [->|Ha]; [done|]);
             by apply elem_of_nil in Ha|]).
    by apply elem_of_nil in Hfn.
  - simpl. lia.
Qed.

Lemma remote_transaction_reaches_binders_witness :
  ∃ w', external count_added bodies 5 (Y_set "count" (YPrim (PNum 1))) ONull
          (doc_with [3; 4] None) = Done w' tt
        ∧ source w' = YMap 0 [("count", YPrim (PNum 1))]
        ∧ calls w' = [invocation 0 (JObject [("count", JPrim (PNum 1))]) 3;
                      invocation 0 (JObject [("count", JPrim (PNum 1))]) 4]
        ∧ snapshot_of 0 w' = Some (JObject [("count", JPrim (PNum 1))]).
Proof.
  destruct (remote_transaction_reaches_binders count_added bodies 5
              (Y_set "count" (YPrim (PNum 1))) ONull (doc_with [3; 4] None)
              {| node := YMap 0 [("count", YPrim (PNum 1))]; supply := 1 |})
    as (w' & Hrun & Hs & Hc & Hsnap).
  - discriminate.
  - reflexivity.
  - discriminate.
  - repeat constructor; set_solver.
  - intros j Hj. apply list_elem_of_singleton in Hj as ->. apply bodies_ready.
  - exists w'. split_and!; [done|done|done|].
    apply (Hsnap 0 (binder_with [3; 4] None)); [left|reflexivity].
Defined.

Lemma unbind_stops_observation_witness :
  ∃ w', (do! unbind 0 in
         external count_added bodies 5 (Y_set "count" (YPrim (PNum 1))) ONull)
          (doc_with [3; 4] None) = Done w' tt
        ∧ source w' = YMap 0 [("count", YPrim (PNum 1))]
        ∧ (0 ∉ observers w')
        ∧ binders w' !! 0 = Some (binder_with [3; 4] None)
        ∧ (∀ c, c ∈ calls w' → by_binder c = 0 → c ∈ calls (doc_with [3; 4] None)).
Proof.
  apply (unbind_stops_observation count_added bodies 5 0
           (Y_set "count" (YPrim (PNum 1))) ONull (doc_with [3; 4] None)
           {| node := YMap 0 [("count", YPrim (PNum 1))]; supply := 1 |}).
  - discriminate.
  - reflexivity.
  - discriminate.
  - repeat constructor; set_solver.
  - intros j Hj Hne. by apply list_elem_of_singleton in Hj.
Defined.

(** *** Subscriptions and events *)

Lemma set_delete_at {A} `{EqDecision A} (x : A) (s : SetData A) k :
  s !! k = Some (Some x) → NoDup (set_values s) → set_delete x s = <[k := None]> s.
Proof.
  revert k. induction s as [|[y|] s IH]; intros k Hk Hnd; [done| |].
  - change (set_values (Some y :: s)) with (y :: set_values s) in Hnd.
    apply NoDup_cons in Hnd as [Hy Hnd]. simpl.
    destruct k as [|k]; simpl in *.
    + injection Hk as ->. by rewrite decide_True.
    + rewrite decide_False; [by rewrite (IH k)|].
      intros ->. apply Hy. apply elem_of_set_values. by eapply list_elem_of_lookup_2.
  - change (set_values (None :: s)) with (set_values s) in Hnd.
    destruct k as [|k]; simpl in *; [done|]. by rewrite (IH k).
Qed.

Section live_set.
Variable h : heap.
Variable yjs_events : YValue → YValue → list YEvent.
Variable listeners : ListenerFn → list Action.

(** X15 (bind.ts, subscribe): [subscribe] with [immediate] invokes the
    listener once, with the current snapshot, after adding it: no other
    listener is invoked, the snapshot stays, and what the listener
    unsubscribed in that call (itself included) is no longer subscribed. *)
Theorem subscribe_immediate i fn w b :
  binders w !! i = Some b → set_wf (subscription b) →
  only_unsubscribes (listeners fn) →
  ∃ w' b', subscribe listeners i fn true w = Done w' tt
        ∧ calls w' = calls w ++ [invocation i (snapshot b) fn]
        ∧ binders w' !! i = Some b'
        ∧ snapshot b' = snapshot b
        ∧ set_values (subscription b')
          = filter (λ g, g ∉ unsubscribed_by (listeners fn))
                   (set_values (set_add fn (subscription b))).
Proof.
  intros Hb Hwf Hbody. unfold subscribe, and_then.
  rewrite (modify_binder_eq _ _ _ b) by done.
  set (b1 := set_subscription (set_add fn (subscription b)) b).
  rewrite (call_listener_eq listeners i fn _ b1);
    [|done|by eapply binders_put_binder].
  eexists _, (set_subscription
                (deletes (unsubscribed_by (listeners fn)) (subscription b1)) b1).
  split_and!; [done|done| |done|].
  - eapply binders_put_binder. simpl. by eapply binders_put_binder.
  - simpl. apply set_values_deletes. by apply set_add_wf.
Qed.

Lemma forEach_resubscribing fn i fuel : ∀ k w b j,
  resubscribes listeners fn →
  binders w !! i = Some b → set_wf (subscription b) →
  (∀ g, g ∈ set_values (subscription b) → g ≠ fn → listeners g = []) →
  subscription b !! j = Some (Some fn) → k ≤ j →
  forEach listeners fuel i k w = OutOfFuel.
Proof.
  induction fuel as [|fuel IH]; intros k w b j Hfn Hb Hwf Hothers Hj Hkj; [done|].
  cbn [forEach]. unfold and_then. rewrite (the_binder_eq _ _ _ Hb).
  destruct (subscription b !! k) as [[g|]|] eqn:Hk.
  - destruct (decide (g = fn)) as [->|Hne].
    + unfold call_listener, get, and_then. rewrite (the_binder_eq _ _ _ Hb).
      cbn [ret modify]. rewrite Hfn. cbn [for_each run_action].
      unfold and_then, unsubscribe.
      erewrite modify_binder_eq by exact Hb.
      erewrite modify_binder_eq by (by eapply binders_put_binder).
      rewrite put_binder_put_binder. cbn [ret subscription set_subscription].
      set (s1 := set_add fn (set_delete fn (subscription b))).
      assert (fn ∉ set_values (set_delete fn (subscription b))) as Hout.
      { rewrite set_values_delete by done. rewrite list_elem_of_filter. naive_solver. }
      assert (s1 = <[k := None]> (subscription b) ++ [Some fn]) as Hs1.
      { unfold s1, set_add, set_has. rewrite bool_decide_eq_false_2.
        - by rewrite (set_delete_at fn _ k).
        - by rewrite <- elem_of_set_values. }
      eapply (IH (S k) _ _ (length (subscription b))); [done| | | | |].
      * by eapply binders_put_binder.
      * simpl. by apply set_add_wf, set_delete_wf.
      * simpl. intros g Hg Hne. apply Hothers; [|done].
        apply elem_of_set_add in Hg. apply elem_of_cons in Hg as [->|Hg]; [done|].
        rewrite set_values_delete in Hg by done.
        by apply list_elem_of_filter in Hg as [_ ?].
      * simpl. fold s1. rewrite Hs1.
        apply list_lookup_middle. symmetry. apply length_insert.
      * apply lookup_lt_Some in Hk. lia.
    + assert (listeners g = []) as Hg.
      { apply Hothers; [|done]. apply elem_of_set_values.
        by eapply list_elem_of_lookup_2. }
      rewrite (call_listener_eq listeners i g w b); [| |done].
      2: { rewrite Hg. intros a Ha. by apply elem_of_nil in Ha. }
      rewrite Hg.
      change (deletes (unsubscribed_by []) (subscription b)) with (subscription b).
      rewrite set_subscription_same.
      eapply (IH (S k) _ b j); [done| |done|done|done|].
      * by eapply binders_put_binder.
      * destruct (decide (k = j)) as [->|]; [|lia]. congruence.
  - eapply (IH (S k) w b j); try done.
    destruct (decide (k = j)) as [->|]; [|lia]. congruence.
  - apply lookup_ge_None in Hk. apply lookup_lt_Some in Hj. lia.
Qed.

(** X16 (bind.ts, update): the notification walks the live set, so an
    update does not return when a subscribed listener unsubscribes itself
    and subscribes again: the set hands the listener out once more every
    time. Whatever the fuel, the run is not over. *)
Theorem resubscribing_listener_never_returns fuel i fn u w b next patches c' :
  binders w !! i = Some b →
  accepted h (patchesOptionsInOption b) →
  u (patchesOptionsInOption b) (snapshot b) = (next, patches) →
  for_each (applyPatch_of h b) patches (cell_of w) = Done c' tt →
  set_wf (subscription b) →
  fn ∈ set_values (subscription b) →
  resubscribes listeners fn →
  (∀ g, g ∈ set_values (subscription b) → g ≠ fn → listeners g = []) →
  update h yjs_events listeners fuel i u w = OutOfFuel.
Proof.
  intros Hb Hok Hu Hp Hwf Hin Hfn Hothers.
  rewrite (update_accepted _ _ _ _ _ _ _ b) by done.
  unfold update_checked, and_then, get_state.
  pose proof (doApplyUpdate_eq h i u w b next patches c' Hb Hu Hp) as Hdo.
  apply elem_of_set_values, list_elem_of_lookup in Hin as [j Hj].
  assert (notify listeners fuel i
            (put_binder i (set_snapshot next b) (set_source c' w)) = OutOfFuel) as Hn.
  { unfold notify. eapply (forEach_resubscribing fn i fuel 0 _ (set_snapshot next b) j);
      try done; [|lia].
    eapply binders_put_binder. simpl. done. }
  destruct (doc w).
  - unfold transact. rewrite Hdo. unfold and_then. rewrite commit_own. cbn [ret].
    exact Hn.
  - rewrite Hdo. exact Hn.
Qed.
End live_set.

Lemma alist_get_absent {A} k (l : list (string * A)) :
  k ∉ l.*1 → alist_get k l = None.
Proof.
  induction l as [|[k' a] l IH]; [done|]. rewrite fmap_cons, not_elem_of_cons.
  intros [Hne Hl]. simpl. rewrite decide_False by done. by apply IH.
Qed.

Lemma apply_key_changes path id src keys entries :
  NoDup keys.*1 →
  ∃ entries',
    applyYEvent {| e_path := path; e_target := YMap id src; e_kind := YMapEvent keys |}
                (JObject entries) = Done (JObject entries') tt
    ∧ ∀ k, alist_get k entries'
           = match alist_get k keys with
             | Some KDelete => None
             | Some _ => Some (toPlainValue (ymap_get k src))
             | None => alist_get k entries
             end.
Proof.
  unfold applyYEvent. cbn [e_kind e_target].
  change (isJSONObject_tree (JObject entries)) with true. cbn match.
  revert entries. induction keys as [|[k0 a0] keys IH]; intros entries Hnd.
  - by exists entries.
  - rewrite fmap_cons in Hnd. apply NoDup_cons in Hnd as [Hk0 Hnd].
    cbn [for_each]. unfold and_then.
    assert (∃ entries1,
              apply_key_change (YMap id src) (k0, a0) (JObject entries)
              = Done (JObject entries1) tt
              ∧ alist_get k0 entries1
                = match a0 with
                  | KDelete => None
                  | _ => Some (toPlainValue (ymap_get k0 src))
                  end
              ∧ ∀ k, k ≠ k0 → alist_get k entries1 = alist_get k entries)
      as (entries1 & -> & Hsame & Hother).
    { destruct a0; unfold apply_key_change; cbn [fst snd yget assign delete_property];
        eexists; (split; [reflexivity|]); split;
        first [apply alist_get_set_eq | apply alist_get_delete_eq
              | intros k Hk; by rewrite alist_get_set_ne
              | intros k Hk; by rewrite alist_get_delete_ne ]. }
    destruct (IH entries1 Hnd) as (entries' & -> & Hget).
    exists entries'. split; [done|]. intros k. rewrite Hget. cbn [alist_get].
    destruct (decide (k = k0)) as [->|Hne].
    + rewrite (alist_get_absent k0 keys Hk0). rewrite Hsame. by destruct a0.
    + rewrite Hother by done. done.
Qed.

(** X17 (bind.ts, applyYEvent): a keyed event on an object assigns to every
    key reported as added or updated the plain value the target holds for
    it, deletes every key reported as deleted, and leaves the other
    properties as they were. *)
Theorem applyYEvent_keys path id src keys entries :
  NoDup keys.*1 →
  ∃ entries',
    applyYEvent {| e_path := path; e_target := YMap id src; e_kind := YMapEvent keys |}
                (JObject entries) = Done (JObject entries') tt
    ∧ ∀ k, alist_get k entries'
           = match alist_get k keys with
             | Some KDelete => None
             | Some _ => Some (toPlainValue (ymap_get k src))
             | None => alist_get k entries
             end.
Proof. apply apply_key_changes. Qed.

(** X18 (bind.ts, applyYEvent): an event that does not fit the value at
    its path is ignored: a keyed event on an array, a sequence event on
    anything but an array, an event of another kind, and any event on a
    primitive other than [null]. On [null], which passes [isJSONObject], a
    keyed event with a change throws a [TypeError]. *)
Theorem applyYEvent_mismatch event :
  (∀ keys items, e_kind event = YMapEvent keys →
     applyYEvent event (JArray items) = Done (JArray items) tt)
  ∧ (∀ delta base, e_kind event = YArrayEvent delta → isJSONArray_tree base = false →
       applyYEvent event base = Done base tt)
  ∧ (∀ base, e_kind event = YOtherEvent → applyYEvent event base = Done base tt)
  ∧ (∀ p, p ≠ PNull → applyYEvent event (JPrim p) = Done (JPrim p) tt)
  ∧ (∀ kc keys, e_kind event = YMapEvent (kc :: keys) →
       applyYEvent event (JPrim PNull) = Throw (JPrim PNull) TypeError).
Proof.
  unfold applyYEvent. split_and!.
  - by intros keys items ->.
  - intros delta base -> Hb. by destruct base.
  - intros base ->. by destruct base.
  - intros p Hp. destruct (e_kind event); [|done..]. by destruct p.
  - intros [k a] keys ->. change (isJSONObject_tree (JPrim PNull)) with true.
    cbn match. cbn [for_each]. unfold and_then, apply_key_change. cbn [fst snd].
    destruct a; try done; by destruct (yget _ _).
Qed.

Lemma jget_path_prim steps p base :
  jget_path steps (JPrim p) = Some base → ∃ q, base = JPrim q.
Proof.
  revert p. induction steps as [|s rest IH]; intros p; cbn [jget_path].
  - intros [= <-]. by exists p.
  - assert (jget s (JPrim p) = None ∨ ∃ q, jget s (JPrim p) = Some (JPrim q)) as [->|[q ->]].
    { destruct p as [| |b|n|str]; cbn [jget]; eauto.
      case_bool_decide; [eauto|]. right.
      destruct (step_index _ _) as [i|]; simpl; [|by eexists].
      destruct (char_at i str); simpl; by eexists. }
    + done.
    + apply IH.
Qed.

Lemma jget_path_jreplace steps root base new :
  jget_path steps root = Some base → is_tree_container base →
  jget_path steps (jreplace steps new root) = Some new.
Proof.
  revert root. induction steps as [|s rest IH]; intros root; simpl; [done|].
  destruct (jget s root) as [child|] eqn:Hget; simpl; [|done].
  intros Hnav Hc.
  assert (∀ p, child ≠ JPrim p) as Hchild.
  { intros p ->. apply jget_path_prim in Hnav as [q ->]. done. }
  destruct root as [p|items|entries].
  - assert (∃ q, child = JPrim q) as [q ->]; [|by destruct (Hchild q)].
    destruct p as [| |b|n|str]; cbn [jget] in Hget; simplify_eq; eauto.
    case_bool_decide; simplify_eq; eauto.
    destruct (step_index _ _) as [i|]; simpl; eauto.
    destruct (char_at i str); simpl; eauto.
  - simpl in *. case_bool_decide; [simplify_eq; by edestruct Hchild|].
    destruct (step_index (length items) s) as [i|] eqn:Hi; simpl in *;
      [|simplify_eq; by edestruct Hchild].
    destruct (items !! i) as [c|] eqn:Hc'; simpl in *;
      [|simplify_eq; by edestruct Hchild].
    injection Hget as ->. simpl. rewrite bool_decide_eq_false_2 by done.
    rewrite length_alter, Hi. simpl. rewrite list_lookup_alter_eq, Hc'. simpl.
    by apply IH.
  - simpl in *.
    destruct (alist_get (step_key s) entries) as [c|] eqn:Hk; simpl in *;
      [|simplify_eq; by edestruct Hchild].
    injection Hget as ->. simpl. rewrite alist_get_set_eq. simpl. by apply IH.
Qed.

(** X19 (bind.ts, applyYEvents): an event is applied to the object or array
    its path leads to in the snapshot, and the next snapshot holds the
    result at that path; when the path runs through [null] or [undefined],
    the error is a [TypeError]. *)
Theorem applyYEvents_at_path snapshot event :
  (jget_path (e_path event) snapshot = None →
   applyYEvents snapshot [event] = inr TypeError)
  ∧ (∀ base base', jget_path (e_path event) snapshot = Some base →
       is_tree_container base →
       applyYEvent event base = Done base' tt →
       ∃ next, applyYEvents snapshot [event] = inl next
               ∧ jget_path (e_path event) next = Some base').
Proof.
  unfold applyYEvents. cbn [for_each]. unfold and_then, at_draft. split.
  - by intros ->.
  - intros base base' Hget Hc Hev. rewrite Hget, Hev. cbn [ret].
    eexists. split; [done|]. by eapply jget_path_jreplace.
Qed.

Lemma subscribe_immediate_witness :
  ∃ w' b', subscribe bodies 0 3 true (doc_with [1] None) = Done w' tt
        ∧ calls w' = [invocation 0 (JObject []) 3]
        ∧ binders w' !! 0 = Some b'
        ∧ snapshot b' = JObject []
        ∧ set_values (subscription b') = [1].
Proof.
  apply (subscribe_immediate bodies 0 3 (doc_with [1] None) (binder_with [1] None)
           eq_refl).
  - repeat constructor; set_solver.
  - intros a Ha. apply list_elem_of_singleton in Ha as ->. by exists 3.
Defined.

Lemma resubscribing_listener_never_returns_witness :
  update plain_heap no_events resubscriber 1000 0 (set_count 1) (doc_with [1] None)
  = OutOfFuel.
Proof.
  eapply (resubscribing_listener_never_returns plain_heap no_events resubscriber
           1000 0 1 (set_count 1) (doc_with [1] None) (binder_with [1] None)
           _ _ {| node := YMap 0 [("count", YPrim (PNum 1))]; supply := 1 |} eq_refl).
  - by left.
  - reflexivity.
  - reflexivity.
  - repeat constructor; set_solver.
  - left.
  - reflexivity.
  - intros g Hg Hne. by apply list_elem_of_singleton in Hg.
Defined.

Lemma applyYEvent_keys_witness :
  ∃ entries',
    applyYEvent {| e_path := []; e_target := YMap 0 [("a", YPrim (PNum 1))];
                   e_kind := YMapEvent [("a", KAdd); ("b", KDelete)] |}
                (JObject [("b", JPrim (PNum 2)); ("c", JPrim (PNum 3))])
    = Done (JObject entries') tt
    ∧ alist_get "a" entries' = Some (JPrim (PNum 1))
    ∧ alist_get "b" entries' = None
    ∧ alist_get "c" entries' = Some (JPrim (PNum 3)).
Proof.
  destruct (applyYEvent_keys [] 0 [("a", YPrim (PNum 1))]
              [("a", KAdd); ("b", KDelete)]
              [("b", JPrim (PNum 2)); ("c", JPrim (PNum 3))])
    as (entries' & Hrun & Hget).
  - repeat constructor; set_solver.
  - exists entries'. split_and!; [done|apply (Hget "a")|apply (Hget "b")|apply (Hget "c")].
Defined.

Lemma applyYEvent_mismatch_witness :
  applyYEvent {| e_path := []; e_target := YMap 0 []; e_kind := YMapEvent [("a", KAdd)] |}
              (JArray [JPrim (PNum 1)])
  = Done (JArray [JPrim (PNum 1)]) tt
  ∧ applyYEvent {| e_path := []; e_target := YMap 0 [];
                   e_kind := YMapEvent [("a", KAdd)] |}
                (JPrim PNull)
    = Throw (JPrim PNull) TypeError.
Proof.
  pose proof (applyYEvent_mismatch
                {| e_path := []; e_target := YMap 0 [];
                   e_kind := YMapEvent [("a", KAdd)] |})
    as (Harr & _ & _ & _ & Hnull).
  split.
  - apply (Harr [("a", KAdd)] [JPrim (PNum 1)] eq_refl).
  - apply (Hnull ("a", KAdd) [] eq_refl).
Defined.

Lemma applyYEvents_at_path_witness :
  ∃ next,
    applyYEvents (JObject [("items", JArray [])])
      [{| e_path := [Key "items"]; e_target := YArray 1 [YPrim (PNum 1)];
          e_kind := YArrayEvent [{| d_retain := None; d_delete := None;
                                    d_insert := Some (InsArray [YPrim (PNum 1)]) |}] |}]
    = inl next
    ∧ jget_path [Key "items"] next = Some (JArray [JPrim (PNum 1)]).
Proof.
  apply (proj2 (applyYEvents_at_path (JObject [("items", JArray [])])
                  {| e_path := [Key "items"]; e_target := YArray 1 [YPrim (PNum 1)];
                     e_kind := YArrayEvent
                                 [{| d_retain := None; d_delete := None;
                                     d_insert := Some (InsArray [YPrim (PNum 1)]) |}] |})
           (JArray []) (JArray [JPrim (PNum 1)]) eq_refl I eq_refl).
Defined.

Lemma in_sync_toJSON source :
  in_sync (map (λ kv : string * YValue, (kv.1, toJSON kv.2)) source) source.
Proof.
  intros k. induction source as [|[k' y] source IH]; [done|]. simpl.
  by destruct (decide (k = k')).
Qed.

(** X20 (bind.ts, applyYEvent): when the object agrees with the keyed
    container as it was before a change and the event tells the difference
    to the container as it is now, the object agrees with the container
    after the event is applied. *)
Theorem keyed_event_keeps_in_sync path id before after keys entries :
  NoDup keys.*1 → describes keys before after → in_sync entries before →
  ∃ entries',
    applyYEvent {| e_path := path; e_target := YMap id after; e_kind := YMapEvent keys |}
                (JObject entries) = Done (JObject entries') tt
    ∧ in_sync entries' after.
Proof.
  intros Hnd Hdesc Hsync.
  destruct (apply_key_changes path id after keys entries Hnd) as (entries' & Hrun & Hget).
  exists entries'. split; [done|]. intros k. rewrite Hget. specialize (Hdesc k).
  destruct (alist_get k keys) as [[| |]|].
  - destruct Hdesc as [y Hy]. unfold ymap_get. rewrite Hy. simpl.
    by rewrite toPlainValue_toJSON.
  - destruct Hdesc as [y Hy]. unfold ymap_get. rewrite Hy. simpl.
    by rewrite toPlainValue_toJSON.
  - by rewrite Hdesc.
  - by rewrite Hdesc, Hsync.
Qed.

Lemma keyed_event_keeps_in_sync_witness :
  ∃ entries',
    applyYEvent {| e_path := []; e_target := YMap 0 [("a", YArray 1 []); ("c", YPrim (PNum 3))];
                   e_kind := YMapEvent [("a", KAdd); ("b", KDelete)] |}
                (JObject [("b", JPrim (PNum 2)); ("c", JPrim (PNum 3))])
    = Done (JObject entries') tt
    ∧ in_sync entries' [("a", YArray 1 []); ("c", YPrim (PNum 3))].
Proof.
  apply (keyed_event_keeps_in_sync [] 0
           [("b", YPrim (PNum 2)); ("c", YPrim (PNum 3))]
           [("a", YArray 1 []); ("c", YPrim (PNum 3))]
           [("a", KAdd); ("b", KDelete)]
           [("b", JPrim (PNum 2)); ("c", JPrim (PNum 3))]).
  - repeat constructor; set_solver.
  - intros k. simpl.
    repeat (destruct (decide (k = _)) as [->|]; simpl; [by eauto|]). done.
  - apply (in_sync_toJSON [("b", YPrim (PNum 2)); ("c", YPrim (PNum 3))]).
Defined.

(** *** createBinder *)

Section tree_facts.
Variable h : heap.

Lemma unshared_list_Forall2 vs ts R :
  unshared_list h vs ts R →
  Forall2 (λ v t, ∃ R1, unshared h v t R1 ∧ R1 ⊆ R) vs ts.
Proof.
  induction 1 as [|v vs t ts R1 R2 Hv Hvs IH Hd]; [constructor|].
  constructor.
  - exists R1. split; [done|set_solver].
  - eapply Forall2_impl; [exact IH|]. intros v' t' (R' & ? & ?).
    exists R'. split; [done|set_solver].
Qed.

Lemma unshared_list_trees vs ts R : unshared_list h vs ts R → trees h vs ts.
Proof.
  intros Hl. eapply Forall2_impl; [by apply unshared_list_Forall2|].
  intros v t (R1 & ? & _). by exists R1.
Qed.

Lemma unshared_dom v t R : unshared h v t R → R ⊆ dom h
with unshared_list_dom vs ts R : unshared_list h vs ts R → R ⊆ dom h.
Proof.
  - intros [p|r items ts R' Hr Hl Hn|r entries tes R' Hr Hnd Hk Hl Hn].
    + set_solver.
    + apply unshared_list_dom in Hl. apply elem_of_dom_2 in Hr. set_solver.
    + apply unshared_list_dom in Hl. apply elem_of_dom_2 in Hr. set_solver.
  - intros [|v vs' t ts' R1 R2 Hv Hl Hd].
    + set_solver.
    + apply unshared_dom in Hv. apply unshared_list_dom in Hl. set_solver.
Qed.

Lemma tree_of_unshared fuel : ∀ v t R,
  unshared h v t R → size R < fuel → tree_of fuel h v = Some t.
Proof.
  induction fuel as [|fuel IH]; intros v t R Hu Hsize; [lia|].
  inversion Hu as [p|r items ts R' Hr Hl Hn|r entries tes R' Hr Hnd Hk Hl Hn]; subst.
  - done.
  - rewrite size_union in Hsize by set_solver. rewrite size_singleton in Hsize.
    cbn [tree_of]. rewrite Hr.
    assert (mapM (tree_of fuel h) items = Some ts) as ->; [|done].
    apply mapM_Some. eapply Forall2_impl; [by apply unshared_list_Forall2|].
    intros v t (R1 & Hv & Hsub). apply (IH _ _ R1 Hv).
    apply subseteq_size in Hsub. lia.
  - rewrite size_union in Hsize by set_solver. rewrite size_singleton in Hsize.
    cbn [tree_of]. rewrite Hr.
    assert (mapM (λ kv, pair kv.1 <$> tree_of fuel h kv.2) entries = Some tes) as ->;
      [|done].
    apply mapM_Some. apply unshared_list_Forall2 in Hl.
    clear Hr Hnd Hu. revert tes Hk Hl.
    induction entries as [|[k v] entries IHe]; intros [|[k' t] tes] Hk Hl;
      try done; try by constructor.
    rewrite !fmap_cons in *. injection Hk as -> Hk.
    apply Forall2_cons in Hl as [(R1 & Hv & Hsub) Hl].
    constructor; [|by apply IHe].
    simpl in *. rewrite (IH _ _ R1 Hv); [done|].
    apply subseteq_size in Hsub. lia.
Qed.

Lemma tree_of_enough v t R :
  unshared h v t R → tree_of (enough_fuel h) h v = Some t.
Proof.
  intros Hu. apply (tree_of_unshared _ _ _ R Hu).
  pose proof (unshared_dom _ _ _ Hu) as Hsub. apply subseteq_size in Hsub.
  rewrite size_dom in Hsub. unfold enough_fuel. lia.
Qed.
End tree_facts.

Section createBinder_facts.
Variable h : heap.
Variable yjs_events : YValue → YValue → list YEvent.
Variable listeners : ListenerFn → list Action.

Lemma root_replace_unshared c r t R :
  unshared h (VRef r) t R → storable t = true →
  in_doc (node c) = true →
  is_YMap (node c) && isJSONObject h (VRef r)
  || is_YArray (node c) && isJSONArray h (VRef r) = true →
  ∃ c', defaultApplyPatch h {| path := []; op := PATCH_REPLACE; value := VRef r |} c
        = Done c' tt
        ∧ in_doc (node c') = true
        ∧ toJSON (node c') = t.
Proof.
  intros Hu Hst Hdoc Hkind.
  inversion Hu as [|r' items ts R' Hr Hl Hn|r' entries tes R' Hr Hnd Hk Hl Hn]; subst.
  - unfold isJSONObject, isJSONArray in Hkind. simpl in Hkind. rewrite Hr in Hkind.
    simpl in Hkind. rewrite andb_false_r, andb_true_r in Hkind. simpl in Hkind.
    destruct (node c) as [|id old|id old|id old|id old] eqn:Hc; try done.
    destruct (root_replace_array h c id old r items ts Hc Hr) as (c' & ys & Hrun & Hn' & Hys).
    { by eapply unshared_list_trees. }
    { done. }
    exists c'. split_and!; [done|by rewrite Hn'|]. rewrite Hn'. simpl. by rewrite Hys.
  - unfold isJSONObject, isJSONArray in Hkind. simpl in Hkind. rewrite Hr in Hkind.
    simpl in Hkind. rewrite andb_false_r, andb_true_r, orb_false_r in Hkind.
    destruct (node c) as [|id old|id old|id old|id old] eqn:Hc; try done.
    destruct (root_replace_map h c id old r entries tes.*2 Hc Hr Hnd)
      as (c' & ys & Hrun & Hn' & Hys).
    { by eapply unshared_list_trees. }
    { apply storable_object in Hst. by rewrite Forall_fmap. }
    exists c'. split_and!; [done|by rewrite Hn'|]. rewrite Hn'. cbn [toJSON].
    rewrite toJSON_zip, Hys, <- Hk. by rewrite zip_fst_snd.
Qed.

Lemma new_binder_accepted options b :
  default_options h options → Bind.options b = options →
  accepted h (patchesOptionsInOption b).
Proof.
  intros Hdef Ho. unfold patchesOptionsInOption. rewrite Ho.
  destruct options as [o|]; [|by left]. by apply Hdef.
Qed.

Lemma new_binder_applyPatch options b :
  default_options h options → Bind.options b = options →
  applyPatch_of h b = defaultApplyPatch h.
Proof.
  intros Hdef Ho. unfold applyPatch_of. rewrite Ho.
  destruct options as [[ap po]|]; [|done].
  destruct (Hdef _ eq_refl) as [Hap _]. simpl in Hap. by subst ap.
Qed.

(** X21 (helpers.ts, createBinder): for a source that belongs to a
    document, [createBinder] with an object for a keyed source, or an array
    for a sequence source, in which no array or object occurs twice and no
    array holds [undefined], returns a bound binder whose snapshot is the
    initial state, and the source reads as the initial state whatever it
    held before (for a keyed source: with the entries of the initial state,
    in some order); no listener is invoked. *)
Theorem createBinder_initial_state fuel r t R options w :
  unshared h (VRef r) t R →
  storable t = true →
  in_doc (source w) = true →
  is_YMap (source w) && isJSONObject h (VRef r)
  || is_YArray (source w) && isJSONArray h (VRef r) = true →
  default_options h options →
  0 < fuel →
  ∃ w', createBinder h yjs_events listeners fuel (VRef r) options w
        = Done w' (length (binders w))
        ∧ snapshot_of (length (binders w)) w' = Some t
        ∧ same_entries (toJSON (source w')) t
        ∧ in_doc (source w') = true
        ∧ observers w' = observers w ++ [length (binders w)]
        ∧ calls w' = calls w.
Proof.
  intros Hu Hst Hdoc Hkind Hdef Hfuel. unfold createBinder, and_then, bind, state_tree.
  rewrite (tree_of_enough h _ _ _ Hu). cbn [default].
  set (i := length (binders w)).
  set (b := {| snapshot := toJSON (source w); subscription := []; options := options |}).
  set (w1 := set_observers _ _).
  assert (binders w1 !! i = Some b) as Hb.
  { unfold w1. simpl. by apply list_lookup_middle. }
  destruct (root_replace_unshared (cell_of w1) r t R Hu Hst Hdoc Hkind)
    as (c' & Hrun & Hdoc' & Ht).
  rewrite (update_eq h yjs_events listeners fuel i _ w1 b t
             [{| path := []; op := PATCH_REPLACE; value := VRef r |}] c' Hb).
  - eexists. split; [done|]. split_and!; [| |done|done|].
    + unfold snapshot_of. erewrite binders_put_binder; [done|]. exact Hb.
    + cbn. rewrite Ht. unfold same_entries. by destruct t.
    + simpl. apply app_nil_r.
  - by apply (new_binder_accepted options).
  - done.
  - rewrite (new_binder_applyPatch options) by done.
    cbn [for_each]. unfold and_then. by rewrite Hrun.
  - constructor.
  - intros fn Hfn. by apply elem_of_nil in Hfn.
  - simpl. lia.
Qed.

(** X22 (helpers.ts, createBinder): with an initial state of the other kind
    (an array for a keyed source, an object for a sequence source, a
    primitive other than [null] for a keyed one) [createBinder] throws
    [NotImplemented]; the source is as before, and the observer that [bind]
    registered stays registered. *)
Theorem createBinder_kind_mismatch fuel v t R options w :
  unshared h v t R →
  is_YMap (source w) && isJSONObject h v = false →
  is_YArray (source w) && isJSONArray h v = false →
  default_options h options →
  ∃ w', createBinder h yjs_events listeners fuel v options w
        = Throw w' (NotImplemented RootReplace)
        ∧ source w' = source w
        ∧ observers w' = observers w ++ [length (binders w)]
        ∧ snapshot_of (length (binders w)) w' = Some (toJSON (source w)).
Proof.
  intros Hu Hm Ha Hdef. unfold createBinder, and_then, bind, state_tree.
  rewrite (tree_of_enough h _ _ _ Hu). cbn [default]. unfold Datatypes.id.
  set (i := length (binders w)).
  set (b := {| snapshot := toJSON (source w); subscription := []; options := options |}).
  set (w1 := set_observers _ _).
  assert (binders w1 !! i = Some b) as Hb.
  { unfold w1. simpl. by apply list_lookup_middle. }
  exists w1. split; [|split_and!; try done].
  - rewrite (update_accepted h yjs_events listeners fuel i _ w1 b Hb)
      by (by apply (new_binder_accepted options)).
    assert (doApplyUpdate h i (initial_recipe t v) w1
            = Throw w1 (NotImplemented RootReplace)) as Hdo.
    { unfold doApplyUpdate, and_then. rewrite (the_binder_eq _ _ _ Hb).
      unfold with_source, zoom, applyUpdate, initial_recipe.
      rewrite (new_binder_applyPatch options) by done.
      cbn [for_each]. unfold and_then.
      unfold defaultApplyPatch. simpl. unfold and_then. simpl.
      rewrite Hm, Ha. simpl. by destruct w. }
    unfold update_checked, and_then, get_state. destruct (doc w1).
    + unfold transact. rewrite Hdo. by rewrite commit_own.
    + by rewrite Hdo.
  - unfold snapshot_of. by rewrite Hb.
Qed.
End createBinder_facts.

Lemma createBinder_initial_state_witness :
  ∃ w', createBinder plain_heap no_events bodies 1 (VRef 1) None empty_doc
        = Done w' (length (binders empty_doc))
        ∧ snapshot_of (length (binders empty_doc)) w'
          = Some (JObject [("x", JObject [("y", JPrim (PStr "z"))]);
                           ("n", JArray [JPrim (PNum 1); JPrim PNull])])
        ∧ same_entries (toJSON (source w'))
            (JObject [("x", JObject [("y", JPrim (PStr "z"))]);
                      ("n", JArray [JPrim (PNum 1); JPrim PNull])])
        ∧ in_doc (source w') = true
        ∧ observers w' = observers empty_doc ++ [length (binders empty_doc)]
        ∧ calls w' = calls empty_doc.
Proof.
  assert (∃ R, unshared plain_heap (VRef 1)
                 (JObject [("x", JObject [("y", JPrim (PStr "z"))]);
                           ("n", JArray [JPrim (PNum 1); JPrim PNull])]) R)
    as [R Hu] by unshared_tac.
  apply (createBinder_initial_state plain_heap no_events bodies 1 1 _ R None empty_doc Hu).
  - reflexivity.
  - reflexivity.
  - reflexivity.
  - intros o. discriminate.
  - lia.
Defined.

Lemma createBinder_kind_mismatch_witness :
  ∃ w', createBinder plain_heap no_events bodies 1 (VRef 3) None empty_doc
        = Throw w' (NotImplemented RootReplace)
        ∧ source w' = source empty_doc
        ∧ observers w' = observers empty_doc ++ [length (binders empty_doc)]
        ∧ snapshot_of (length (binders empty_doc)) w' = Some (toJSON (source empty_doc)).
Proof.
  eapply (createBinder_kind_mismatch plain_heap no_events bodies 1 (VRef 3) _ _
            None empty_doc).
  - unshared_tac.
  - reflexivity.
  - reflexivity.
  - intros o. discriminate.
Defined.
